(** * fsmod: record files, their readers and writers, Split and Join

    A shallow embedding of [csv_files.go], [json_files.go] and [scan.go].

    Go values are modelled as follows.
    - [error] values: the inductive [error]; Go's [nil] error is [None].
    - A function returning [(v, err)] returns a pair here as well, because
      the readers of this package do return data together with an error.
    - [[]byte] is [list byte]; Go [string]s are [string]s; [int] is [Z]
      (the counters of Split never leave the range of a 64-bit [int] before
      the input has 2^63 records, so no wrap-around is written out).
    - The stack below a codec (descriptor, [bufio], optional [gzip]) is a
      [stream]: the bytes it still delivers and the error it reports once
      they are used up ([io.EOF] for a well-formed file).  The end of a
      stream is stable: every read after the last byte reports that error.
    - The file system is a finite map from paths to file contents, with an
      environment that tells which creations and writes fail.
    - The marshalers, [encoding/csv], [bufio], [gzip] and [os] are not part
      of the package; they are modelled by their documented behaviour, as
      far as the functions of the package depend on it.

    The first part of the file holds the definitions, the second part the
    lemmas and theorems. *)

From Stdlib Require Import Strings.String Strings.Ascii Strings.Byte.
From Stdlib Require Import List ZArith NArith Lia Bool.
From Stdlib Require Import DecimalString.
From stdpp Require Import gmap strings.
Import ListNotations.

Open Scope string_scope.
Open Scope list_scope.
Open Scope Z_scope.

(** ** Errors *)

Inductive error : Type :=
| io_EOF
| io_ErrUnexpectedEOF
| csv_ErrFieldCount
| ErrSys (code : nat)
    (* a failure of the operating system or of the compression layer *)
| ErrDecode
    (* a marshaler could not decode a payload *)
| ErrEncode
    (* a marshaler could not encode a value *)
| Errorf (format : string) (arg : string) (cause : error).
    (* errors.Errorf(format, arg, cause) *)

(** [err == io.EOF] *)
Definition isEOF (err : option error) : bool :=
  match err with
  | Some io_EOF => true
  | _ => false
  end.

(** [err != nil] *)
Definition notNil (err : option error) : bool :=
  match err with
  | Some _ => true
  | None => false
  end.

(** ** Byte streams *)

Record stream : Type := mkStream {
  avail : list byte;   (* bytes still to be delivered *)
  final : error        (* what a read reports once they are used up *)
}.

Definition nl : byte := x0a.

(** The bytes of [l] up to and including the first [delim], and the rest. *)
Fixpoint span_delim (delim : byte) (l : list byte)
  : option (list byte * list byte) :=
  match l with
  | [] => None
  | c :: l' =>
      if Byte.eqb c delim then Some ([c], l')
      else match span_delim delim l' with
           | Some (line, rest) => Some (c :: line, rest)
           | None => None
           end
  end.

(** [bufio.Reader.ReadBytes(delim)]: the bytes up to and including the
    delimiter; when the stream ends first, the bytes read so far together
    with the stream's error. *)
Definition ReadBytes (delim : byte) (s : stream)
  : (list byte * option error) * stream :=
  match span_delim delim (avail s) with
  | Some (line, rest) => ((line, None), mkStream rest (final s))
  | None => ((avail s, Some (final s)), mkStream [] (final s))
  end.

(** [io.ReadFull(r, buf)] with [len(buf) = n]: [io.EOF] only when no byte
    at all was read, [io.ErrUnexpectedEOF] when the stream ended after
    some but not all of them. *)
Definition io_ReadFull (n : nat) (s : stream)
  : (list byte * option error) * stream :=
  if (n <=? length (avail s))%nat then
    ((firstn n (avail s), None), mkStream (skipn n (avail s)) (final s))
  else
    let err :=
      match avail s with
      | [] => final s
      | _ :: _ => if isEOF (Some (final s)) then io_ErrUnexpectedEOF
                  else final s
      end in
    ((avail s, Some err), mkStream [] (final s)).

(** [binary.BigEndian.Uint32] and [binary.BigEndian.PutUint32] *)
Definition BigEndian_Uint32 (b : list byte) : N :=
  match b with
  | [b0; b1; b2; b3] =>
      (Byte.to_N b0 * 16777216 + Byte.to_N b1 * 65536
       + Byte.to_N b2 * 256 + Byte.to_N b3)%N
  | _ => 0%N
  end.

Definition byte_of_N (n : N) : byte :=
  match Byte.of_N (n mod 256)%N with
  | Some b => b
  | None => x00
  end.

(** The argument is [uint32(len(blob))]: the length modulo 2^32. *)
Definition BigEndian_PutUint32 (v : N) : list byte :=
  let v := (v mod 4294967296)%N in
  [byte_of_N (v / 16777216); byte_of_N (v / 65536);
   byte_of_N (v / 256); byte_of_N v].

(** ** Marshalers

    The object marshaler ([runtime.JSONPb]) and the message marshaler
    ([proto.Marshal], [proto.Unmarshal]) are collaborators of the package.
    Their contract is an interface here: encoding and decoding may fail.
    [Unmarshal_err] is the error [Unmarshal] returns for bytes it does
    not decode.  [Read] of the object readers returns that error as it
    is, and it need not be a decode error: [runtime.JSONPb] decodes with
    a [json.Decoder], which reports [io.EOF] for input that holds no
    value.  [proto.Unmarshal] fails with a decode error of its own,
    [ErrDecode], which is not [io.EOF]. *)

Class Marshaler (T : Type) : Type := {
  Marshal : T -> option (list byte);
  Unmarshal : list byte -> option T;
  Unmarshal_err : list byte -> error
}.

(** What the decoder reports for bytes it does not decode is not
    [io.EOF]. *)
Definition decoder_never_EOF {T} `{Marshaler T} : Prop :=
  forall data, Unmarshal data = None -> Unmarshal_err data <> io_EOF.

(** A marshaler whose values are their own encoding. *)
Definition raw_Marshaler : Marshaler (list byte) :=
  {| Marshal := Some; Unmarshal := Some;
     Unmarshal_err := fun _ => ErrDecode |}.

(** ** Line-delimited object reader

    [jsonStreamReader] and [jsonFileReader] have the same fields above the
    stream and the same bodies of [ReadRaw] and [Read]; one record and one
    pair of functions stand for both. *)

Record jsonFileReader : Type := mkJsonReader {
  jr_r : stream;
  jr_lastErr : option error
}.

Definition jsonStreamReader : Type := jsonFileReader.

Definition jsonFileReader_ReadRaw (r : jsonFileReader)
  : (list byte * option error) * jsonFileReader :=
  match jr_lastErr r with
  | Some e => (([], Some e), r)
  | None =>
      let '((jsonBin, err), s) := ReadBytes nl (jr_r r) in
      match jsonBin with
      | _ :: _ =>
          match err with
          | None => ((removelast jsonBin, None), mkJsonReader s None)
          | Some e =>
              if isEOF (Some e)
              then ((jsonBin, None), mkJsonReader s (Some e))
              else ((jsonBin, Some e), mkJsonReader s None)
          end
      | [] => ((jsonBin, err), mkJsonReader s None)
      end
  end.

(** [Read] hands the line to the marshaler with its newline still on it;
    the decoded object stands for the holder the caller passed. *)
Definition jsonFileReader_Read {T} `{Marshaler T} (r : jsonFileReader)
  : (option T * option error) * jsonFileReader :=
  match jr_lastErr r with
  | Some e => ((None, Some e), r)
  | None =>
      let '((jsonBin, err), s) := ReadBytes nl (jr_r r) in
      let decode (r' : jsonFileReader) :=
        match Unmarshal jsonBin with
        | Some v => ((Some v, None), r')
        | None => ((None, Some (Unmarshal_err jsonBin)), r')
        end in
      match err with
      | Some e =>
          if isEOF (Some e) && (0 <? length jsonBin)%nat
          then decode (mkJsonReader s (Some e))   (* last item *)
          else ((None, Some e), mkJsonReader s None)
      | None => decode (mkJsonReader s None)
      end
  end.

Definition jsonStreamReader_ReadRaw := jsonFileReader_ReadRaw.
Definition jsonStreamReader_Read {T} `{Marshaler T} :=
  jsonFileReader_Read (T := T).

(** ** Length-prefixed message reader

    [protoStreamReader] and [protoFileReader] share the body of [ReadTo].
    The second component of the result is the content of the caller's
    message after the call.  The branches on [n != len(buf)] cannot be
    taken, since [io.ReadFull] returns a nil error only with a full
    buffer.  The payload is decoded by [proto.Unmarshal], whose failure
    is a decode error, [ErrDecode]. *)

Record protoFileReader : Type := mkProtoReader {
  pr_r : stream
}.

Definition protoStreamReader : Type := protoFileReader.

Definition protoFileReader_ReadTo {T} `{Marshaler T}
    (r : protoFileReader) (message : T)
  : (T * option error) * protoFileReader :=
  let '((lenBuf, err), s) := io_ReadFull 4 (pr_r r) in
  match err with
  | Some e => ((message, Some e), mkProtoReader s)
  | None =>
      let blockLen := N.to_nat (BigEndian_Uint32 lenBuf) in
      let '((block, err), s) := io_ReadFull blockLen s in
      match err with
      | Some e => ((message, Some e), mkProtoReader s)
      | None =>
          match Unmarshal block with
          | Some m => ((m, None), mkProtoReader s)
          | None => ((message, Some ErrDecode), mkProtoReader s)
          end
      end
  end.

Definition protoStreamReader_ReadTo {T} `{Marshaler T} :=
  protoFileReader_ReadTo (T := T).

(** ** Row reader

    [encoding/csv] is outside the package.  A row file is represented by
    the rows its [csv.Reader] parses from it, in order.  The reader keeps
    [FieldsPerRecord]: it starts at 0, the first record sets it, and a
    later record with another number of fields is reported with
    [csv.ErrFieldCount]. *)

Definition CsvValueProcessor : Type := string -> string.

(** Every value goes through the processors, in their order. *)
Definition zipValues (processors : list CsvValueProcessor)
    (values : list string) : list string :=
  map (fun v => fold_left (fun v p => p v) processors v) values.

Record rows : Type := mkRows {
  r_avail : list (list string);
  r_final : error
}.

Record csv_Reader : Type := mkCsvReader {
  cr_src : rows;
  cr_FieldsPerRecord : nat
}.

Definition csv_Reader_Read (r : csv_Reader)
  : (list string * option error) * csv_Reader :=
  match r_avail (cr_src r) with
  | [] => (([], Some (r_final (cr_src r))), r)
  | record :: rest =>
      let src := mkRows rest (r_final (cr_src r)) in
      if (0 <? cr_FieldsPerRecord r)%nat then
        if (length record =? cr_FieldsPerRecord r)%nat
        then ((record, None), mkCsvReader src (cr_FieldsPerRecord r))
        else ((record, Some csv_ErrFieldCount),
              mkCsvReader src (cr_FieldsPerRecord r))
      else ((record, None), mkCsvReader src (length record))
  end.

(** [csvStreamReader] and [csvFileReader] share the body of [Read].  A
    nil slice of processors is the empty list: the variadic constructors
    make the slice nil exactly when no processor is given. *)
Record csvFileReader : Type := mkCsvFileReader {
  cfr_csvr : csv_Reader;
  cfr_valueProcessors : list CsvValueProcessor
}.

Definition csvStreamReader : Type := csvFileReader.

Definition csvFileReader_Read (r : csvFileReader)
  : (list string * option error) * csvFileReader :=
  let '((record, err), csvr) := csv_Reader_Read (cfr_csvr r) in
  let r' := mkCsvFileReader csvr (cfr_valueProcessors r) in
  match err with
  | Some e => (([], Some e), r')
  | None =>
      match cfr_valueProcessors r with
      | [] => ((record, None), r')
      | _ :: _ => ((zipValues (cfr_valueProcessors r) record, None), r')
      end
  end.

Definition csvStreamReader_Read := csvFileReader_Read.

(** ** Sequences of read calls *)

(** The errors returned by the calls [cs], made one after the other. *)
Fixpoint run_calls {R C : Type} (call : C -> R -> option error * R)
    (cs : list C) (r : R) : list (option error) :=
  match cs with
  | [] => []
  | c :: cs' => fst (call c r) :: run_calls call cs' (snd (call c r))
  end.

Inductive jsonCall : Type := CallRead | CallReadRaw.

Definition json_call {T} `{Marshaler T} (c : jsonCall) (r : jsonFileReader)
  : option error * jsonFileReader :=
  match c with
  | CallRead =>
      (snd (fst (jsonFileReader_Read (T := T) r)),
       snd (jsonFileReader_Read (T := T) r))
  | CallReadRaw =>
      (snd (fst (jsonFileReader_ReadRaw r)), snd (jsonFileReader_ReadRaw r))
  end.

(** A [ReadTo] call passes the message the previous call left behind. *)
Definition proto_call {T} `{Marshaler T} (_ : unit)
    (st : protoFileReader * T) : option error * (protoFileReader * T) :=
  let res := protoFileReader_ReadTo (fst st) (snd st) in
  (snd (fst res), (snd res, fst (fst res))).

Definition csv_call (_ : unit) (r : csvFileReader)
  : option error * csvFileReader :=
  (snd (fst (csvFileReader_Read r)), snd (csvFileReader_Read r)).

(** ** Value processors ([scan.go]) *)

Definition EmptyValues : gmap string bool :=
  list_to_map
    [("n/a", true); ("N/A", true); ("N/a", true);
     ("null", true); ("NULL", true); ("Null", true);
     ("nil", true); ("NIL", true); ("Nil", true);
     ("nan", true); ("NaN", true); ("Nan", true);
     ("#", true); (EmptyString, true)].

(** Indexing a Go map with a missing key gives the zero value [false]. *)
Definition PandasFriendly (v : string) : string :=
  if default false (EmptyValues !! v) then "#" else v.

Definition RemoveHash (v : string) : string :=
  if String.eqb v "#" then EmptyString else v.

(** [strings.TrimSpace] on text whose white space is ASCII: tab, line
    feed, vertical tab, form feed, carriage return and space. *)
Definition isSpace (c : ascii) : bool :=
  match nat_of_ascii c with
  | 9%nat | 10%nat | 11%nat | 12%nat | 13%nat | 32%nat => true
  | _ => false
  end.

Fixpoint TrimLeft (s : string) : string :=
  match s with
  | EmptyString => EmptyString
  | String c s' => if isSpace c then TrimLeft s' else s
  end.

Fixpoint TrimRight (s : string) : string :=
  match s with
  | EmptyString => EmptyString
  | String c s' =>
      match TrimRight s' with
      | EmptyString => if isSpace c then EmptyString else String c EmptyString
      | t => String c t
      end
  end.

Definition strings_TrimSpace (s : string) : string := TrimRight (TrimLeft s).

(** ** The row grammar of [encoding/csv]

    What [csv.Writer.Write] emits for a record, with the default comma and
    line feed, and what [csv.Reader] parses from lines without quoted
    fields.  A line that holds a quote character is outside this reader
    model ([None]). *)

Definition dquote : ascii := ascii_of_nat 34.
Definition comma : ascii := ascii_of_nat 44.
Definition LF : ascii := ascii_of_nat 10.
Definition CR : ascii := ascii_of_nat 13.

Fixpoint string_exists (p : ascii -> bool) (s : string) : bool :=
  match s with
  | EmptyString => false
  | String c s' => p c || string_exists p s'
  end.

Definition fieldNeedsQuotes (field : string) : bool :=
  match field with
  | EmptyString => false
  | String c _ =>
      String.eqb field "\."
      || string_exists
           (fun c => Ascii.eqb c LF || Ascii.eqb c CR
                     || Ascii.eqb c dquote || Ascii.eqb c comma) field
      || isSpace c
  end.

Fixpoint quoteField (field : string) : string :=
  match field with
  | EmptyString => EmptyString
  | String c s' =>
      if Ascii.eqb c dquote then String dquote (String dquote (quoteField s'))
      else String c (quoteField s')
  end.

Definition csv_field (field : string) : string :=
  if fieldNeedsQuotes field
  then String dquote (String.append (quoteField field)
                                    (String dquote EmptyString))
  else field.

(** The line [csv.Writer.Write(record)] emits. *)
Definition csv_line (record : list string) : string :=
  String.append (String.concat "," (map csv_field record))
                (String LF EmptyString).

Definition csv_bytes (records : list (list string)) : string :=
  String.concat EmptyString (map csv_line records).

(** The pieces of [s] between occurrences of [sep]. *)
Fixpoint split_on (sep : ascii) (s : string) : list string :=
  match s with
  | EmptyString => [EmptyString]
  | String c s' =>
      if Ascii.eqb c sep then EmptyString :: split_on sep s'
      else match split_on sep s' with
           | piece :: pieces => String c piece :: pieces
           | [] => [String c EmptyString]
           end
  end.

(** A carriage return before the line feed is dropped. *)
Definition drop_CR (line : string) : string :=
  let n := String.length line in
  if String.eqb (String.substring (n - 1) 1 line) (String CR EmptyString)
  then String.substring 0 (n - 1) line
  else line.

(** The records of a file; empty lines are skipped. *)
Fixpoint csv_parse_lines (lines : list string)
  : option (list (list string)) :=
  match lines with
  | [] => Some []
  | line :: lines' =>
      let line := drop_CR line in
      match csv_parse_lines lines' with
      | None => None
      | Some records =>
          if string_exists (Ascii.eqb dquote) line then None
          else match line with
               | EmptyString => Some records
               | _ => Some (split_on comma line :: records)
               end
      end
  end.

Definition csv_parse (content : string) : option (list (list string)) :=
  csv_parse_lines (split_on LF content).

(** ** Row writers and readers over streams *)

(** The writer's output is kept as the records handed to [csv.Writer]. *)
Record csvStreamWriter : Type := mkCsvStreamWriter {
  csw_csvw : list (list string);
  csw_valueProcessors : list CsvValueProcessor
}.

Definition NewCsvStream (valueProcessors : list CsvValueProcessor)
  : csvStreamWriter :=
  mkCsvStreamWriter [] valueProcessors.

Definition csvStreamWriter_Write (w : csvStreamWriter) (values : list string)
  : option error * csvStreamWriter :=
  match csw_valueProcessors w with
  | _ :: _ =>
      (None, mkCsvStreamWriter
               (csw_csvw w ++ [zipValues (csw_valueProcessors w) values])
               (csw_valueProcessors w))
  | [] =>
      (None, mkCsvStreamWriter (csw_csvw w ++ [values])
                               (csw_valueProcessors w))
  end.

(** [OpenCsvStream] without gzip, over the bytes [content]. *)
Definition OpenCsvStream (content : string)
    (valueProcessors : list CsvValueProcessor) : option csvStreamReader :=
  match csv_parse content with
  | Some records =>
      Some (mkCsvFileReader (mkCsvReader (mkRows records io_EOF) 0)
                            valueProcessors)
  | None => None
  end.

(** ** Layered writers and their [Close]

    A writer is a stack of layers over a sink.  Its [Close] is a sequence
    of teardown calls; each call may fail, as an environment tells, and
    the calls made are recorded in order. *)

Inductive layer : Type :=
| fd     (* the raw file descriptor, [os.File] *)
| fw     (* [bufio.Writer] over the descriptor or the caller's stream *)
| gzw    (* [gzip.Writer] *)
| bw     (* [bufio.Writer] over the compressor *)
| csvw.  (* [csv.Writer] *)

Inductive teardown : Type :=
| Flush (l : layer)
| Close (l : layer).

Definition Teardown (A : Type) : Type :=
  (teardown -> option error) -> A * list teardown.

Definition ret {A} (a : A) : Teardown A := fun _ => (a, []).

Definition bind {A B} (m : Teardown A) (k : A -> Teardown B) : Teardown B :=
  fun env =>
    let '(a, t1) := m env in
    let '(b, t2) := k a env in
    (b, t1 ++ t2).

Notation "x <- m ;; k" := (bind m (fun x => k))
  (at level 100, m at next level, right associativity).
Notation "m ;; k" := (bind m (fun _ => k))
  (at level 100, right associativity).

(** One teardown call and its result. *)
Definition call (op : teardown) : Teardown (option error) :=
  fun env => (env op, [op]).

(** Which of the optional layers of a writer are not nil. *)
Record layers : Type := mkLayers {
  has_gzw : bool;
  has_bw : bool
}.

Definition HasSuffix_gz (filePath : string) : bool :=
  let n := String.length filePath in
  (3 <=? n)%nat && String.eqb (String.substring (n - 3) 3 filePath) ".gz".

(** The layers the constructors set up, in the order of construction. *)
Definition NewJsonStream_layers (withGzip : bool) : layers * list layer :=
  (mkLayers withGzip withGzip, fw :: if withGzip then [gzw; bw] else []).

Definition NewJsonFile_layers (filePath : string) : layers * list layer :=
  let gz := HasSuffix_gz filePath in
  (mkLayers gz gz, fd :: fw :: if gz then [gzw; bw] else []).

Definition NewCsvStream_layers (withGzip : bool) : layers * list layer :=
  (mkLayers withGzip false, if withGzip then [gzw; csvw] else [csvw]).

Definition NewCsvFile_layers (filePath : string) : layers * list layer :=
  let gz := HasSuffix_gz filePath in
  (mkLayers gz false, fd :: fw :: if gz then [gzw; csvw] else [csvw]).

Definition NewProtoStream_layers := NewJsonStream_layers.
Definition NewProtoFile_layers := NewJsonFile_layers.

(** [protoBufWriter] writes into a [bytes.Buffer], which has no teardown. *)
Definition NewProtoBuf_layers (withGzip : bool) : layers * list layer :=
  (mkLayers withGzip withGzip, if withGzip then [gzw; bw] else []).

Definition jsonStreamWriter_Close (w : layers) : Teardown (option error) :=
  (if has_bw w then call (Flush bw) ;; ret tt else ret tt) ;;
  err <- (if has_gzw w
          then call (Flush gzw) ;; call (Close gzw)
          else ret None) ;;
  call (Flush fw) ;;
  ret err.

Definition jsonFileWriter_Close (w : layers) : Teardown (option error) :=
  (if has_bw w then call (Flush bw) ;; ret tt else ret tt) ;;
  (if has_gzw w
   then call (Flush gzw) ;; call (Close gzw) ;; ret tt
   else ret tt) ;;
  call (Flush fw) ;;
  call (Close fd).

Definition csvStreamWriter_Close (w : layers) : Teardown (option error) :=
  call (Flush csvw) ;;
  err <- (if has_gzw w
          then call (Flush gzw) ;; call (Close gzw)
          else ret None) ;;
  ret err.

Definition csvFileWriter_Close (w : layers) : Teardown (option error) :=
  call (Flush csvw) ;;
  (if has_gzw w
   then call (Flush gzw) ;; call (Close gzw) ;; ret tt
   else ret tt) ;;
  call (Flush fw) ;;
  call (Close fd).

Definition protoStreamWriter_Close (w : layers) : Teardown (option error) :=
  (if has_bw w then call (Flush bw) ;; ret tt else ret tt) ;;
  err <- (if has_gzw w
          then call (Flush gzw) ;; call (Close gzw)
          else ret None) ;;
  call (Flush fw) ;;
  ret err.

Definition protoBufWriter_Close (w : layers) : Teardown (option error) :=
  (if has_bw w then call (Flush bw) ;; ret tt else ret tt) ;;
  (if has_gzw w
   then call (Flush gzw) ;; call (Close gzw) ;; ret tt
   else ret tt) ;;
  ret None.

Definition protoFileWriter_Close (w : layers) : Teardown (option error) :=
  (if has_bw w then call (Flush bw) ;; ret tt else ret tt) ;;
  (if has_gzw w
   then call (Flush gzw) ;; call (Close gzw) ;; ret tt
   else ret tt) ;;
  call (Flush fw) ;;
  call (Close fd).

(** The teardown calls of one layer, and of a stack taken from the layer
    built last to the layer built first. *)
Definition teardown_of (l : layer) : list teardown :=
  match l with
  | fd => [Close fd]
  | gzw => [Flush gzw; Close gzw]
  | l => [Flush l]
  end.

Definition reverse_teardown (construction : list layer) : list teardown :=
  flat_map teardown_of (rev construction).

(** The first error among the calls made, in the order they were made. *)
Fixpoint first_error (env : teardown -> option error)
    (calls : list teardown) : option error :=
  match calls with
  | [] => None
  | op :: calls' =>
      match env op with
      | Some e => Some e
      | None => first_error env calls'
      end
  end.

(** The disk is full: what is buffered cannot be flushed, the compressor
    cannot write its trailer, and the descriptor closes without error. *)
Definition disk_full (op : teardown) : option error :=
  match op with
  | Close fd => None
  | _ => Some (ErrSys 28)
  end.

(** ** The file system

    A file holds what a reader stack delivers from it: its data and the
    error reported after the data ([io.EOF] for every file written here;
    another error for a file that was cut or damaged, as a truncated gzip
    file is).  Byte files hold bytes, row files hold rows.  A writer
    commits what it is given at once; buffering is below this model, so
    [Close] leaves the file as it is, and Split and Join, which drop the
    result of [Close], go on without it.  A reader works on the content
    the file had when it was opened; the statements on Split and Join
    are therefore made for part paths other than the path being read.
    Opening fails for a path that has no file. *)

Record file (A : Type) : Type := mkFile {
  f_data : list A;
  f_final : error
}.
Arguments mkFile {A} _ _.
Arguments f_data {A} _.
Arguments f_final {A} _.

(** Which calls of the operating system fail: creating a path, and the
    [n]-th write through a writer of a path. *)
Record Faults : Type := mkFaults {
  create_err : string -> option error;
  write_err : string -> nat -> option error
}.

Definition no_faults : Faults :=
  mkFaults (fun _ => None) (fun _ _ => None).

Definition ENOENT : error := ErrSys 2.

Definition os_Create {A} (faults : Faults) (name : string)
    (W : gmap string (file A)) : option error * gmap string (file A) :=
  match create_err faults name with
  | Some e => (Some e, W)
  | None => (None, <[name := mkFile [] io_EOF]> W)
  end.

Definition os_Remove {A} (name : string) (W : gmap string (file A))
  : gmap string (file A) :=
  delete name W.

Definition append_file {A} (name : string) (xs : list A)
    (W : gmap string (file A)) : gmap string (file A) :=
  match W !! name with
  | Some f => <[name := mkFile (f_data f ++ xs) (f_final f)]> W
  | None => W
  end.

(** The [n]-th write through a writer of [name]. *)
Definition write_file {A} (faults : Faults) (name : string) (n : nat)
    (xs : list A) (W : gmap string (file A))
  : option error * gmap string (file A) :=
  match write_err faults name n with
  | Some e => (Some e, W)
  | None => (None, append_file name xs W)
  end.

(** ** Loops

    [for init; cond; post { body }].  The body ends an iteration normally,
    or with [break], or by calling a method on a nil interface, which
    panics.  [None] is the absence of a normal result: a panic, or a run
    that the given number of iterations does not end. *)

Inductive ctl : Type := Next | Break | Panic.

Fixpoint for_loop {St : Type} (fuel : nat) (cond : St -> bool)
    (body : St -> ctl * St) (post : St -> St) (s : St) : option St :=
  match fuel with
  | O => None
  | S fuel' =>
      if cond s then
        match body s with
        | (Next, s') => for_loop fuel' cond body post (post s')
        | (Break, s') => Some s'
        | (Panic, _) => None
        end
      else Some s
  end.

(** ** Split: the variables of the three functions *)

Record split_vars (R Wr A : Type) : Type := mkSplit {
  sv_world : gmap string (file A);
  sv_reader : R;
  sv_err : option error;        (* the [err] of the function *)
  sv_parts : list string;
  sv_writer : option Wr;
  sv_partNum : Z;
  sv_cnt : Z
}.
Arguments mkSplit {R Wr A} _ _ _ _ _ _ _.
Arguments sv_world {R Wr A} _.
Arguments sv_reader {R Wr A} _.
Arguments sv_err {R Wr A} _.
Arguments sv_parts {R Wr A} _.
Arguments sv_writer {R Wr A} _.
Arguments sv_partNum {R Wr A} _.
Arguments sv_cnt {R Wr A} _.

(** [cnt++] *)
Definition sv_incr {R Wr A} (s : split_vars R Wr A) : split_vars R Wr A :=
  mkSplit (sv_world s) (sv_reader s) (sv_err s) (sv_parts s) (sv_writer s)
          (sv_partNum s) (sv_cnt s + 1).

(** [err == nil], the condition of the loop, on the function's [err]. *)
Definition sv_cond {R Wr A} (s : split_vars R Wr A) : bool :=
  negb (notNil (sv_err s)).

(** What follows the loop in all three functions: end-of-stream is not an
    error; the last writer is closed; on an error the parts are removed
    and none is returned. *)
Definition Split_epilogue {R Wr A} (s : split_vars R Wr A)
  : (list string * option error) * gmap string (file A) :=
  let err := if isEOF (sv_err s) then None else sv_err s in
  match err with
  | Some e =>
      (([], Some e),
       fold_left (fun W part => os_Remove part W) (sv_parts s) (sv_world s))
  | None => ((sv_parts s, None), sv_world s)
  end.

(** ** Object files: writer, Split, Join *)

Record jsonFileWriter : Type := mkJsonWriter {
  jw_path : string;
  jw_layers : layers;
  jw_n : nat                   (* writes made so far *)
}.

Definition NewJsonFile (faults : Faults) (filePath : string)
    (W : gmap string (file byte))
  : (option jsonFileWriter * option error) * gmap string (file byte) :=
  match os_Create faults filePath W with
  | (Some err, W') =>
      ((None, Some (Errorf "file create error '%s', %v" filePath err)), W')
  | (None, W') =>
      ((Some (mkJsonWriter filePath (fst (NewJsonFile_layers filePath)) 0),
        None), W')
  end.

Definition jsonFileWriter_WriteRaw (faults : Faults) (w : jsonFileWriter)
    (message : list byte) (W : gmap string (file byte))
  : (option error * jsonFileWriter) * gmap string (file byte) :=
  let '(err, W') := write_file faults (jw_path w) (jw_n w)
                               (message ++ [nl]) W in
  ((err, mkJsonWriter (jw_path w) (jw_layers w) (S (jw_n w))), W').

Definition OpenJsonFile (W : gmap string (file byte)) (filePath : string)
  : option jsonFileReader * option error :=
  match W !! filePath with
  | None =>
      (None, Some (Errorf "file open error '%s', %v" filePath ENOENT))
  | Some f => (Some (mkJsonReader (mkStream (f_data f) (f_final f)) None),
               None)
  end.

(** The body of the loop of [SplitJsonFile].  [raw, err := ...] declares
    an [err] of the body; every assignment to [err] in the body is to that
    one, and the function's [err] keeps its value. *)
Definition SplitJsonFile_body (faults : Faults) (limit : Z)
    (partFn : Z -> string)
    (s : split_vars jsonFileReader jsonFileWriter byte)
  : ctl * split_vars jsonFileReader jsonFileWriter byte :=
  let '((raw, err), reader) := jsonFileReader_ReadRaw (sv_reader s) in
  let s := mkSplit (sv_world s) reader (sv_err s) (sv_parts s)
                   (sv_writer s) (sv_partNum s) (sv_cnt s) in
  match err with
  | Some _ => (Break, s)
  | None =>
      let next_part :=
        if sv_cnt s =? limit then
          (* the previous writer is closed; writer = nil *)
          let partFilePath := partFn (sv_partNum s) in
          match NewJsonFile faults partFilePath (sv_world s) with
          | ((_, Some _), W) =>
              inl (mkSplit W reader (sv_err s) (sv_parts s) None
                           (sv_partNum s) (sv_cnt s))
          | ((writer, None), W) =>
              inr (mkSplit W reader (sv_err s)
                           (sv_parts s ++ [partFilePath]) writer
                           (sv_partNum s + 1) 0)
          end
        else inr s in
      match next_part with
      | inl s => (Break, s)
      | inr s =>
          match sv_writer s with
          | None => (Panic, s)
          | Some writer =>
              let '((err, writer), W) :=
                jsonFileWriter_WriteRaw faults writer raw (sv_world s) in
              (Next, mkSplit W reader (sv_err s) (sv_parts s) (Some writer)
                             (sv_partNum s) (sv_cnt s))
          end
      end
  end.

Definition SplitJsonFile (faults : Faults) (W : gmap string (file byte))
    (inputFilePath : string) (limit : Z) (partFn : Z -> string)
  : option ((list string * option error) * gmap string (file byte)) :=
  match OpenJsonFile W inputFilePath with
  | (None, err) => Some (([], err), W)
  | (Some reader, err) =>
      option_map Split_epilogue
        (for_loop (2 + length (avail (jr_r reader)))
                  sv_cond (SplitJsonFile_body faults limit partFn) sv_incr
                  (mkSplit W reader err [] None 1 limit))
  end.

(** ** Join: the variables of the loop over one part *)

Record join_vars (R Wr A : Type) : Type := mkJoin {
  jv_world : gmap string (file A);
  jv_reader : R;
  jv_writer : Wr;
  jv_err : option error;        (* the [err] of the body of the outer loop *)
  jv_return : option error      (* set when the function returns from inside *)
}.
Arguments mkJoin {R Wr A} _ _ _ _ _.
Arguments jv_world {R Wr A} _.
Arguments jv_reader {R Wr A} _.
Arguments jv_writer {R Wr A} _.
Arguments jv_err {R Wr A} _.
Arguments jv_return {R Wr A} _.

(** The body of the inner loop of [JoinJsonFiles].  [raw, err := ...]
    declares an [err] of this body; the [err] tested after the loop is the
    one [OpenJsonFile] set. *)
Definition JoinJsonFiles_body (faults : Faults) (outputFilePath : string)
    (s : join_vars jsonFileReader jsonFileWriter byte)
  : ctl * join_vars jsonFileReader jsonFileWriter byte :=
  let '((raw, err), reader) := jsonFileReader_ReadRaw (jv_reader s) in
  match err with
  | Some _ =>
      (Break, mkJoin (jv_world s) reader (jv_writer s) (jv_err s) None)
  | None =>
      let '((err, writer), W) :=
        jsonFileWriter_WriteRaw faults (jv_writer s) raw (jv_world s) in
      match err with
      | Some e =>
          (* the reader is closed *)
          (Break, mkJoin W reader writer (jv_err s)
                    (Some (Errorf "can not write row to file '%s', %v"
                                  outputFilePath e)))
      | None => (Next, mkJoin W reader writer (jv_err s) None)
      end
  end.

(** The loop over the parts, from [parts] on. *)
Fixpoint JoinJsonFiles_range (faults : Faults) (outputFilePath : string)
    (parts : list string) (writer : jsonFileWriter)
    (W : gmap string (file byte))
  : option (option error * gmap string (file byte)) :=
  match parts with
  | [] => Some (None, W)
  | part :: parts' =>
      match OpenJsonFile W part with
      | (None, Some err) =>
          Some (Some (Errorf "can not open file '%s', %v" part err), W)
      | (None, None) => None
      | (Some reader, err) =>
          match for_loop (2 + length (avail (jr_r reader)))
                         (fun _ => true)
                         (JoinJsonFiles_body faults outputFilePath)
                         (fun s => s)
                         (mkJoin W reader writer err None) with
          | None => None
          | Some s =>
              match jv_return s with
              | Some e => Some (Some e, jv_world s)
              | None =>
                  let err := if isEOF (jv_err s) then None else jv_err s in
                  (* the reader is closed *)
                  match err with
                  | Some e =>
                      Some (Some (Errorf "join read file '%s', %v" part e),
                            jv_world s)
                  | None =>
                      JoinJsonFiles_range faults outputFilePath parts'
                                          (jv_writer s) (jv_world s)
                  end
              end
          end
      end
  end.

Definition JoinJsonFiles (faults : Faults) (W : gmap string (file byte))
    (outputFilePath : string) (parts : list string)
  : option (option error * gmap string (file byte)) :=
  match NewJsonFile faults outputFilePath W with
  | ((Some writer, None), W') =>
      JoinJsonFiles_range faults outputFilePath parts writer W'
  | ((_, err), W') => Some (err, W')
  end.

(** ** Message files: writer, Split, Join *)

Record protoFileWriter : Type := mkProtoWriter {
  pw_path : string;
  pw_layers : layers;
  pw_n : nat
}.

Definition NewProtoFile (faults : Faults) (filePath : string)
    (W : gmap string (file byte))
  : (option protoFileWriter * option error) * gmap string (file byte) :=
  match os_Create faults filePath W with
  | (Some err, W') =>
      ((None, Some (Errorf "file create error '%s', %v" filePath err)), W')
  | (None, W') =>
      ((Some (mkProtoWriter filePath (fst (NewProtoFile_layers filePath)) 0),
        None), W')
  end.

(** [protobufWrite] through the writer's sink: the length prefix, then the
    blob.  The sink is a [bufio.Writer], which reports a short write as an
    error, so the tests on the number of bytes written are never taken. *)
Definition protoFileWriter_Write {T} `{Marshaler T} (faults : Faults)
    (w : protoFileWriter) (message : T) (W : gmap string (file byte))
  : ((list byte * option error) * protoFileWriter)
    * gmap string (file byte) :=
  match Marshal message with
  | None =>
      ((([], Some (Errorf "proto marshal error, %v" EmptyString ErrEncode)),
        w), W)
  | Some blob =>
      let lenBuf := BigEndian_PutUint32 (N.of_nat (length blob)) in
      let '(err, W) := write_file faults (pw_path w) (pw_n w) lenBuf W in
      match err with
      | Some e =>
          (((blob, Some e),
            mkProtoWriter (pw_path w) (pw_layers w) (S (pw_n w))), W)
      | None =>
          let '(err, W) :=
            write_file faults (pw_path w) (S (pw_n w)) blob W in
          (((blob, err),
            mkProtoWriter (pw_path w) (pw_layers w) (S (S (pw_n w)))), W)
      end
  end.

Definition OpenProtoFile (W : gmap string (file byte)) (filePath : string)
  : option protoFileReader * option error :=
  match W !! filePath with
  | None =>
      (None, Some (Errorf "file open error '%s', %v" filePath ENOENT))
  | Some f => (Some (mkProtoReader (mkStream (f_data f) (f_final f))), None)
  end.

(** The body of the loop of [SplitProtoFile].  Here every assignment is
    to the function's [err].  The reader goes with the holder. *)
Definition SplitProtoFile_body {T} `{Marshaler T} (faults : Faults)
    (limit : Z) (partFn : Z -> string)
    (s : split_vars (protoFileReader * T) protoFileWriter byte)
  : ctl * split_vars (protoFileReader * T) protoFileWriter byte :=
  let '((holder, err), reader) :=
    protoFileReader_ReadTo (fst (sv_reader s)) (snd (sv_reader s)) in
  let s := mkSplit (sv_world s) (reader, holder) err (sv_parts s)
                   (sv_writer s) (sv_partNum s) (sv_cnt s) in
  match err with
  | Some _ => (Break, s)
  | None =>
      let next_part :=
        if sv_cnt s =? limit then
          (* the previous writer is closed; writer = nil *)
          let partFilePath := partFn (sv_partNum s) in
          match NewProtoFile faults partFilePath (sv_world s) with
          | ((_, Some e), W) =>
              inl (mkSplit W (reader, holder) (Some e) (sv_parts s) None
                           (sv_partNum s) (sv_cnt s))
          | ((writer, None), W) =>
              inr (mkSplit W (reader, holder) None
                           (sv_parts s ++ [partFilePath]) writer
                           (sv_partNum s + 1) 0)
          end
        else inr s in
      match next_part with
      | inl s => (Break, s)
      | inr s =>
          match sv_writer s with
          | None => (Panic, s)
          | Some writer =>
              let '(((_, err), writer), W) :=
                protoFileWriter_Write faults writer holder (sv_world s) in
              (Next, mkSplit W (reader, holder) err (sv_parts s)
                             (Some writer) (sv_partNum s) (sv_cnt s))
          end
      end
  end.

Definition SplitProtoFile {T} `{Marshaler T} (faults : Faults)
    (W : gmap string (file byte)) (inputFilePath : string) (holder : T)
    (limit : Z) (partFn : Z -> string)
  : option ((list string * option error) * gmap string (file byte)) :=
  match OpenProtoFile W inputFilePath with
  | (None, err) => Some (([], err), W)
  | (Some reader, err) =>
      option_map Split_epilogue
        (for_loop (2 + length (avail (pr_r reader)))
                  sv_cond (SplitProtoFile_body faults limit partFn) sv_incr
                  (mkSplit W (reader, holder) err [] None 1 limit))
  end.

(** The body of the inner loop of [JoinProtoFiles]; its assignments are
    to the [err] that is tested after the loop. *)
Definition JoinProtoFiles_body {T} `{Marshaler T} (faults : Faults)
    (outputFilePath : string)
    (s : join_vars (protoFileReader * T) protoFileWriter byte)
  : ctl * join_vars (protoFileReader * T) protoFileWriter byte :=
  let '((row, err), reader) :=
    protoFileReader_ReadTo (fst (jv_reader s)) (snd (jv_reader s)) in
  match err with
  | Some _ =>
      (Break, mkJoin (jv_world s) (reader, row) (jv_writer s) err None)
  | None =>
      let '(((_, err), writer), W) :=
        protoFileWriter_Write faults (jv_writer s) row (jv_world s) in
      match err with
      | Some e =>
          (* the reader is closed *)
          (Break, mkJoin W (reader, row) writer err
                    (Some (Errorf "can not write row to file '%s', %v"
                                  outputFilePath e)))
      | None => (Next, mkJoin W (reader, row) writer err None)
      end
  end.

Fixpoint JoinProtoFiles_range {T} `{Marshaler T} (faults : Faults)
    (outputFilePath : string) (parts : list string) (row : T)
    (writer : protoFileWriter) (W : gmap string (file byte))
  : option (option error * gmap string (file byte)) :=
  match parts with
  | [] => Some (None, W)
  | part :: parts' =>
      match OpenProtoFile W part with
      | (None, Some err) =>
          Some (Some (Errorf "can not open file '%s', %v" part err), W)
      | (None, None) => None
      | (Some reader, err) =>
          match for_loop (2 + length (avail (pr_r reader)))
                         (fun _ => true)
                         (JoinProtoFiles_body faults outputFilePath)
                         (fun s => s)
                         (mkJoin W (reader, row) writer err None) with
          | None => None
          | Some s =>
              match jv_return s with
              | Some e => Some (Some e, jv_world s)
              | None =>
                  let err := if isEOF (jv_err s) then None else jv_err s in
                  (* the reader is closed *)
                  match err with
                  | Some e =>
                      Some (Some (Errorf "join read file '%s', %v" part e),
                            jv_world s)
                  | None =>
                      JoinProtoFiles_range faults outputFilePath parts'
                        (snd (jv_reader s)) (jv_writer s) (jv_world s)
                  end
              end
          end
      end
  end.

Definition JoinProtoFiles {T} `{Marshaler T} (faults : Faults)
    (W : gmap string (file byte)) (outputFilePath : string) (row : T)
    (parts : list string)
  : option (option error * gmap string (file byte)) :=
  match NewProtoFile faults outputFilePath W with
  | ((Some writer, None), W') =>
      JoinProtoFiles_range faults outputFilePath parts row writer W'
  | ((_, err), W') => Some (err, W')
  end.

(** ** Row files: writer, Split, Join *)

Record csvFileWriter : Type := mkCsvWriter {
  cw_path : string;
  cw_layers : layers;
  cw_n : nat;
  cw_valueProcessors : list CsvValueProcessor
}.

Definition NewCsvFile (faults : Faults) (filePath : string)
    (valueProcessors : list CsvValueProcessor)
    (W : gmap string (file (list string)))
  : (option csvFileWriter * option error)
    * gmap string (file (list string)) :=
  match os_Create faults filePath W with
  | (Some err, W') =>
      ((None, Some (Errorf "file create error '%s', %v" filePath err)), W')
  | (None, W') =>
      ((Some (mkCsvWriter filePath (fst (NewCsvFile_layers filePath)) 0
                          valueProcessors), None), W')
  end.

(** What a reader parses back from the line [csv.Writer] emits for a
    record.  A record without fields, or with one empty field, is emitted
    as an empty line, which readers skip; a carriage return before a line
    feed inside a field is dropped by the reader. *)
Fixpoint crlf_to_lf (s : string) : string :=
  match s with
  | EmptyString => EmptyString
  | String c s' =>
      match s' with
      | String d s'' =>
          if Ascii.eqb c CR && Ascii.eqb d LF
          then String LF (crlf_to_lf s'')
          else String c (crlf_to_lf s')
      | EmptyString => String c EmptyString
      end
  end.

Definition csv_written (record : list string) : list (list string) :=
  match record with
  | [] => []
  | [EmptyString] => []
  | _ => [map crlf_to_lf record]
  end.

(** The records that are read back as they were written. *)
Definition csv_stable (record : list string) : Prop :=
  csv_written record = [record].

(** A row of a file with the given header: it is read back as written and
    has as many fields as the header. *)
Definition row_ok (header row : list string) : Prop :=
  csv_stable row /\ length row = length header.

Definition csvFileWriter_Write (faults : Faults) (w : csvFileWriter)
    (values : list string) (W : gmap string (file (list string)))
  : (option error * csvFileWriter) * gmap string (file (list string)) :=
  let record :=
    match cw_valueProcessors w with
    | _ :: _ => zipValues (cw_valueProcessors w) values
    | [] => values
    end in
  let '(err, W') :=
    write_file faults (cw_path w) (cw_n w) (csv_written record) W in
  ((err, mkCsvWriter (cw_path w) (cw_layers w) (S (cw_n w))
                     (cw_valueProcessors w)), W').

Definition OpenCsvFile (W : gmap string (file (list string)))
    (filePath : string) (valueProcessors : list CsvValueProcessor)
  : option csvFileReader * option error :=
  match W !! filePath with
  | None =>
      (None, Some (Errorf "file open error '%s', %v" filePath ENOENT))
  | Some f =>
      (Some (mkCsvFileReader
               (mkCsvReader (mkRows (f_data f) (f_final f)) 0)
               valueProcessors), None)
  end.

(** The body of the loop of [SplitCsvFile].  [row, err := ...] declares an
    [err] of the body, as in [SplitJsonFile]. *)
Definition SplitCsvFile_body (faults : Faults) (limit : Z)
    (partFn : Z -> string) (header : list string)
    (s : split_vars csvFileReader csvFileWriter (list string))
  : ctl * split_vars csvFileReader csvFileWriter (list string) :=
  let '((row, err), reader) := csvFileReader_Read (sv_reader s) in
  let s := mkSplit (sv_world s) reader (sv_err s) (sv_parts s)
                   (sv_writer s) (sv_partNum s) (sv_cnt s) in
  match err with
  | Some _ => (Break, s)
  | None =>
      let next_part :=
        if sv_cnt s =? limit then
          (* the previous writer is closed; writer = nil *)
          let partFilePath := partFn (sv_partNum s) in
          match NewCsvFile faults partFilePath [] (sv_world s) with
          | ((_, Some _), W) =>
              inl (mkSplit W reader (sv_err s) (sv_parts s) None
                           (sv_partNum s) (sv_cnt s))
          | ((None, None), W) =>
              (* not returned by [NewCsvFile]; the write of the header
                 on a nil writer would panic, as the write below does *)
              inr (mkSplit W reader (sv_err s)
                           (sv_parts s ++ [partFilePath]) None
                           (sv_partNum s) (sv_cnt s))
          | ((Some writer, None), W) =>
              let '((err, writer), W) :=
                csvFileWriter_Write faults writer header W in
              match err with
              | Some _ =>
                  inl (mkSplit W reader (sv_err s)
                               (sv_parts s ++ [partFilePath]) (Some writer)
                               (sv_partNum s) (sv_cnt s))
              | None =>
                  inr (mkSplit W reader (sv_err s)
                               (sv_parts s ++ [partFilePath]) (Some writer)
                               (sv_partNum s + 1) 0)
              end
          end
        else inr s in
      match next_part with
      | inl s => (Break, s)
      | inr s =>
          match sv_writer s with
          | None => (Panic, s)
          | Some writer =>
              let '((err, writer), W) :=
                csvFileWriter_Write faults writer row (sv_world s) in
              (Next, mkSplit W reader (sv_err s) (sv_parts s) (Some writer)
                             (sv_partNum s) (sv_cnt s))
          end
      end
  end.

Definition SplitCsvFile (faults : Faults)
    (W : gmap string (file (list string))) (inputFilePath : string)
    (limit : Z) (partFn : Z -> string)
  : option ((list string * option error)
            * gmap string (file (list string))) :=
  match OpenCsvFile W inputFilePath [] with
  | (None, err) => Some (([], err), W)
  | (Some reader, err) =>
      let '((header, err), reader) := csvFileReader_Read reader in
      match err with
      | Some e => Some (([], Some e), W)
      | None =>
          option_map Split_epilogue
            (for_loop (2 + length (r_avail (cr_src (cfr_csvr reader))))
                      sv_cond (SplitCsvFile_body faults limit partFn header)
                      sv_incr (mkSplit W reader err [] None 1 limit))
      end
  end.

(** The body of the inner loop of [JoinCsvFiles]; [row, err := ...]
    declares an [err] of this body. *)
Definition JoinCsvFiles_body (faults : Faults) (outputFilePath : string)
    (s : join_vars csvFileReader csvFileWriter (list string))
  : ctl * join_vars csvFileReader csvFileWriter (list string) :=
  let '((row, err), reader) := csvFileReader_Read (jv_reader s) in
  match err with
  | Some _ =>
      (Break, mkJoin (jv_world s) reader (jv_writer s) (jv_err s) None)
  | None =>
      let '((err, writer), W) :=
        csvFileWriter_Write faults (jv_writer s) row (jv_world s) in
      match err with
      | Some e =>
          (* the reader is closed *)
          (Break, mkJoin W reader writer (jv_err s)
                    (Some (Errorf "can not write row to file '%s', %v"
                                  outputFilePath e)))
      | None => (Next, mkJoin W reader writer (jv_err s) None)
      end
  end.

(** The loop over the parts, from index [i] on. *)
Fixpoint JoinCsvFiles_range (faults : Faults) (outputFilePath : string)
    (i : nat) (parts : list string) (writer : csvFileWriter)
    (W : gmap string (file (list string)))
  : option (option error * gmap string (file (list string))) :=
  match parts with
  | [] => Some (None, W)
  | part :: parts' =>
      match OpenCsvFile W part [] with
      | (None, Some err) =>
          Some (Some (Errorf "can not open file '%s', %v" part err), W)
      | (None, None) => None
      | (Some reader, err) =>
          let '((header, err), reader) := csvFileReader_Read reader in
          match err with
          | Some e =>
              (* the reader is closed *)
              Some (Some (Errorf "can not read header in file '%s', %v"
                                 part e), W)
          | None =>
              let '((err, writer), W) :=
                match i with
                | O => csvFileWriter_Write faults writer header W
                | S _ => ((err, writer), W)
                end in
              match err with
              | Some e =>
                  (* the reader is closed *)
                  Some (Some (Errorf "can not write header to file '%s', %v"
                                     outputFilePath e), W)
              | None =>
                  match for_loop
                          (2 + length (r_avail (cr_src (cfr_csvr reader))))
                          (fun _ => true)
                          (JoinCsvFiles_body faults outputFilePath)
                          (fun s => s)
                          (mkJoin W reader writer err None) with
                  | None => None
                  | Some s =>
                      match jv_return s with
                      | Some e => Some (Some e, jv_world s)
                      | None =>
                          let err :=
                            if isEOF (jv_err s) then None else jv_err s in
                          (* the reader is closed *)
                          match err with
                          | Some e =>
                              Some (Some (Errorf "join read file '%s', %v"
                                                 part e), jv_world s)
                          | None =>
                              JoinCsvFiles_range faults outputFilePath
                                (S i) parts' (jv_writer s) (jv_world s)
                          end
                      end
                  end
              end
          end
      end
  end.

Definition JoinCsvFiles (faults : Faults)
    (W : gmap string (file (list string))) (outputFilePath : string)
    (parts : list string)
  : option (option error * gmap string (file (list string))) :=
  match NewCsvFile faults outputFilePath [] W with
  | ((Some writer, None), W') =>
      JoinCsvFiles_range faults outputFilePath 0 parts writer W'
  | ((_, err), W') => Some (err, W')
  end.

(** ** Encoded record sequences *)

(** The encoding of a sequence of raw objects, one per line. *)
Definition json_encode (S : list (list byte)) : list byte :=
  concat (map (fun r => r ++ [nl]) S).

(** A blob after its length prefix. *)
Definition proto_frame (blob : list byte) : list byte :=
  BigEndian_PutUint32 (N.of_nat (length blob)) ++ blob.

(** The blob of a message, and the messages that the codec frames and
    gives back: they marshal, the blob unmarshals to the message, and its
    length fits the 32-bit prefix. *)
Definition blob_of {T} `{Marshaler T} (m : T) : list byte :=
  default [] (Marshal m).

Definition framed {T} `{Marshaler T} (m : T) : Prop :=
  Marshal m = Some (blob_of m) /\
  Unmarshal (blob_of m) = Some m /\
  (N.of_nat (length (blob_of m)) < 4294967296)%N.

(** The encoding of a sequence of messages. *)
Definition message_encode {T} `{Marshaler T} (ms : list T) : list byte :=
  concat (map (fun m => proto_frame (blob_of m)) ms).

(** Readers at the start of an encoded sequence: of objects, of messages,
    and of rows past the header, with [n] fields expected per record. *)
Definition json_reader_on (S : list (list byte)) : jsonFileReader :=
  mkJsonReader (mkStream (json_encode S) io_EOF) None.

Definition proto_reader_on {T} `{Marshaler T} (ms : list T)
  : protoFileReader :=
  mkProtoReader (mkStream (message_encode ms) io_EOF).

Definition csv_reader_on (n : nat) (rs : list (list string))
  : csvFileReader :=
  mkCsvFileReader (mkCsvReader (mkRows rs io_EOF) n) [].

(** How much a reader of lines, or of rows, can still deliver: a bound on
    the number of further records. *)
Definition json_left (r : jsonFileReader) : nat :=
  length (avail (jr_r r))
  + match jr_lastErr r with None => 1 | Some _ => 0 end.

Definition csv_left (r : csvFileReader) : nat :=
  length (r_avail (cr_src (cfr_csvr r))).

(** A writer in a state the loop of [SplitCsvFile] can be in: it exists
    unless the counter is at the limit, and it has no value processor. *)
Definition split_writer_ok (limit cnt : Z) (writer : option csvFileWriter)
  : Prop :=
  match writer with
  | Some w => cw_valueProcessors w = []
  | None => cnt = limit
  end.

(** ** Chunks

    The consecutive chunks of a sequence under a limit.  [chunks_from]
    goes on from a current chunk [cur] that holds [cnt] records. *)

Fixpoint chunks_from {X} (limit cnt : Z) (cur : list X) (l : list X)
  : list (list X) :=
  match l with
  | [] => [cur]
  | x :: l' =>
      if cnt =? limit then cur :: chunks_from limit 1 [x] l'
      else chunks_from limit (cnt + 1) (cur ++ [x]) l'
  end.

Definition chunks {X} (limit : Z) (l : list X) : list (list X) :=
  match l with
  | [] => []
  | x :: l' => chunks_from limit 1 [x] l'
  end.

(** Every chunk holds between one and [limit] records, and every chunk
    but the last holds [limit] of them. *)
Definition well_chunked {X} (limit : Z) (cs : list (list X)) : Prop :=
  Forall (fun c => 1 <= Z.of_nat (length c) <= limit) cs /\
  exists full last, cs = full ++ [last] /\
                    Forall (fun c => Z.of_nat (length c) = limit) full.

(** [n], [n+1], ..., [k] numbers in all. *)
Fixpoint Zseq (n : Z) (k : nat) : list Z :=
  match k with
  | O => []
  | S k' => n :: Zseq (n + 1) k'
  end.

(** The file system after chunk [i] of [cs] was written, under the header
    [hdr], to the path generated for [n + i]. *)
Fixpoint write_parts {X A} (partFn : Z -> string) (hdr : list A)
    (enc : X -> list A) (n : Z) (cs : list (list X))
    (W : gmap string (file A)) : gmap string (file A) :=
  match cs with
  | [] => W
  | c :: cs' =>
      write_parts partFn hdr enc (n + 1) cs'
        (<[partFn n := mkFile (hdr ++ concat (map enc c)) io_EOF]> W)
  end.

(** The writes of a Split without failures, record by record: the file
    system and the parts after the records [recs], from a state with the
    open part [cur] and the counters [partNum] and [cnt]. *)
Fixpoint split_run {X A} (partFn : Z -> string) (limit : Z) (hdr : list A)
    (enc : X -> list A) (recs : list X) (W : gmap string (file A))
    (parts : list string) (cur : option string) (partNum cnt : Z)
  : gmap string (file A) * list string :=
  match recs with
  | [] => (W, parts)
  | r :: recs' =>
      if cnt =? limit then
        let p := partFn partNum in
        split_run partFn limit hdr enc recs'
          (append_file p (hdr ++ enc r) (<[p := mkFile [] io_EOF]> W))
          (parts ++ [p]) (Some p) (partNum + 1) (0 + 1)
      else
        match cur with
        | Some p =>
            split_run partFn limit hdr enc recs' (append_file p (enc r) W)
                      parts cur partNum (cnt + 1)
        | None => (W, parts)
        end
  end.

(** ** Statements about Split and Join *)

(** The result of a Split is a partition of [S]: it returns, with a nil
    error, the paths generated for 1, 2, ... as many as [S] has chunks
    under [limit]; the file at the [i]-th path holds the content of the
    [i]-th chunk; every other path is as before. *)
Definition split_partitions {X A} (partFn : Z -> string) (limit : Z)
    (content : list X -> list A) (S : list X) (W : gmap string (file A))
    (res : option ((list string * option error) * gmap string (file A)))
  : Prop :=
  let parts := map partFn (Zseq 1 (length (chunks limit S))) in
  exists W',
    res = Some ((parts, None), W') /\
    Forall2 (fun p c => W' !! p = Some (mkFile (content c) io_EOF))
            parts (chunks limit S) /\
    (forall q, q ∉ parts -> W' !! q = W !! q).

(** Joining what a Split returned puts [expected] at the output path:
    the Split returns parts and a nil error, the Join of these parts on
    the file system the Split left returns a nil error, and the output
    file then holds [expected]. *)
Definition rejoins {A}
    (split : option ((list string * option error) * gmap string (file A)))
    (join : gmap string (file A) -> list string
            -> option (option error * gmap string (file A)))
    (outputFilePath : string) (expected : list A) : Prop :=
  exists parts W1 W2,
    split = Some ((parts, None), W1) /\
    join W1 parts = Some (None, W2) /\
    W2 !! outputFilePath = Some (mkFile expected io_EOF).

(** What a Split returned, and which of [names] are on disk afterwards. *)
Definition outcome {A} (names : list string)
    (res : option ((list string * option error) * gmap string (file A)))
  : option ((list string * option error) * list string) :=
  option_map
    (fun r => (fst r, filter (fun n => bool_decide (is_Some (snd r !! n)))
                             names))
    res.

(** What a Join returned, and the data of the output file afterwards. *)
Definition joined {A} (outputFilePath : string)
    (res : option (option error * gmap string (file A)))
  : option (option error * option (list A)) :=
  option_map
    (fun r => (fst r, option_map f_data (snd r !! outputFilePath)))
    res.

(** ** Sample inputs *)

(** Part names [part1.json], [part2.json], ... *)
Definition decimal (i : Z) : string := NilZero.string_of_int (Z.to_int i).

Definition part_name (ext : string) (i : Z) : string :=
  String.append "part" (String.append (decimal i) ext).

Definition bytes_of (s : string) : list byte := list_byte_of_string s.

(** An object file of three records, to be split with limit 1 into
    [part1.json], [part2.json], [part3.json]. *)
Definition three_objects : gmap string (file byte) :=
  <["in.json" := mkFile (json_encode (map bytes_of ["a"; "b"; "c"])) io_EOF]>
    ∅.

(** The same records as messages that are their own blobs, and as rows
    under a header. *)
Definition three_messages : gmap string (file byte) :=
  <["in.pb" := mkFile (message_encode (H := raw_Marshaler)
                         (map bytes_of ["a"; "b"; "c"])) io_EOF]> ∅.

Definition three_rows : gmap string (file (list string)) :=
  <["in.csv" := mkFile [["name"]; ["a"]; ["b"]; ["c"]] io_EOF]> ∅.

(** The second part cannot be created (permission denied). *)
Definition second_part_denied (ext : string) : Faults :=
  mkFaults (fun name => if String.eqb name (part_name ext 2)
                        then Some (ErrSys 13) else None)
           (fun _ _ => None).

(** The writes to the second part are refused from the [n]-th on (no
    space left); for rows, [n = 1] lets the header through. *)
Definition second_part_full (ext : string) (n : nat) : Faults :=
  mkFaults (fun _ => None)
           (fun name k => if String.eqb name (part_name ext 2) && (n <=? k)%nat
                          then Some (ErrSys 28) else None).

(** Two parts of which the first was cut: it delivers one record and then
    an error other than [io.EOF], as a truncated gzip file does. *)
Definition cut_object_part : gmap string (file byte) :=
  <["p1.json.gz" := mkFile (json_encode [bytes_of "a"]) io_ErrUnexpectedEOF]>
    (<["p2.json" := mkFile (json_encode [bytes_of "c"]) io_EOF]> ∅).

Definition cut_message_part : gmap string (file byte) :=
  <["p1.pb.gz" := mkFile (message_encode (H := raw_Marshaler) [bytes_of "a"])
                         io_ErrUnexpectedEOF]>
    (<["p2.pb" := mkFile (message_encode (H := raw_Marshaler) [bytes_of "c"])
                         io_EOF]> ∅).

Definition cut_row_part : gmap string (file (list string)) :=
  <["p1.csv.gz" := mkFile [["name"]; ["a"]] io_ErrUnexpectedEOF]>
    (<["p2.csv" := mkFile [["name"]; ["d"]] io_EOF]> ∅).

(** A row part whose second row has one field too many: its reader
    reports [csv.ErrFieldCount] there. *)
Definition ragged_row_part : gmap string (file (list string)) :=
  <["p1.csv" := mkFile [["name"]; ["a"]; ["b"; "x"]; ["c"]] io_EOF]>
    (<["p2.csv" := mkFile [["name"]; ["d"]] io_EOF]> ∅).

(** A row file of one column whose second row after the header is one
    empty field (in the file, a line of two quotes). *)
Definition empty_field_row : gmap string (file (list string)) :=
  <["in.csv" := mkFile [["name"]; ["a"]; [EmptyString]] io_EOF]> ∅.


(** A message file cut right after a length prefix that announces five
    payload bytes. *)
Definition cut_after_prefix : stream :=
  mkStream [x00; x00; x00; x05] io_EOF.


(** A codec in the manner of [runtime.JSONPb], which decodes with a
    [json.Decoder]: input that holds only white space holds no value and
    is reported as [io.EOF]; any other input stands for its own object. *)
Definition json_space (b : byte) : bool :=
  Byte.eqb b x20 || Byte.eqb b x09 || Byte.eqb b x0a || Byte.eqb b x0d.

Definition JSONPb_like : Marshaler (list byte) :=
  {| Marshal := Some;
     Unmarshal := fun data =>
       if forallb json_space data then None else Some data;
     Unmarshal_err := fun data =>
       if forallb json_space data then io_EOF else ErrDecode |}.

(** An object stream of an empty line and then the line [{}]. *)
Definition blank_line_then_object : list byte :=
  [x0a; "{"%byte; "}"%byte; x0a].

(** The row of the test [TestCsvWriteAndRead]. *)
Definition scenario_row : list string :=
  [" 123 "; EmptyString; " "; "null"; "NaN"].

(** ** Row cursors and schemas ([csv_files.go])

    [newCsvFile] and [NewCsvSchema] build the same name-to-position map:
    the header is walked from the left and each name is assigned its
    position, so a name that occurs again overwrites the earlier entry.
    The cursor holds the reader it was made from; [Next] reads through
    it, so the cursor carries the reader's state. *)

Fixpoint index_from (i : Z) (header : list string) (index : gmap string Z)
  : gmap string Z :=
  match header with
  | [] => index
  | name :: header' => index_from (i + 1) header' (<[name := i]> index)
  end.

Record csvSchema : Type := mkCsvSchema {
  cs_header : list string;
  cs_index : gmap string Z
}.

Definition NewCsvSchema (header : list string) : csvSchema :=
  mkCsvSchema header (index_from 0 header ∅).

Record csvFile : Type := mkCsvFile {
  cf_header : list string;
  cf_index : gmap string Z;
  cf_reader : csvFileReader
}.

Definition newCsvFile (header : list string) (reader : csvFileReader)
  : csvFile :=
  mkCsvFile header (index_from 0 header ∅) reader.

Definition csvFile_Header (f : csvFile) : list string := cf_header f.
Definition csvFile_Index (f : csvFile) : gmap string Z := cf_index f.

(** [csvRecord] points to its cursor and [csvSchemaRecord] to its schema;
    [Field] and [Fields] read the header and the index only, and have the
    same body in both. *)
Record csvRecord : Type := mkCsvRecord {
  rec_record : list string;
  rec_header : list string;
  rec_index : gmap string Z
}.

Definition csvSchemaRecord : Type := csvRecord.

Definition csvRecord_Record (r : csvRecord) : list string := rec_record r.

Definition csvRecord_Field (r : csvRecord) (name def : string) : string :=
  match rec_index r !! name with
  | Some idx =>
      if (0 <=? idx) && (idx <? Z.of_nat (length (rec_record r)))
      then nth (Z.to_nat idx) (rec_record r) EmptyString
      else def
  | None => def
  end.

Fixpoint Fields_from (i : nat) (header record : list string)
    (m : gmap string string) : gmap string string :=
  match record with
  | [] => m
  | val :: record' =>
      let name :=
        if (i <? length header)%nat then nth i header EmptyString
        else EmptyString in
      Fields_from (S i) header record' (<[name := val]> m)
  end.

Definition csvRecord_Fields (r : csvRecord) : gmap string string :=
  Fields_from 0 (rec_header r) (rec_record r) ∅.

Definition csvSchemaRecord_Field := csvRecord_Field.
Definition csvSchemaRecord_Fields := csvRecord_Fields.

Definition csvSchema_Record (s : csvSchema) (record : list string)
  : csvSchemaRecord :=
  mkCsvRecord record (cs_header s) (cs_index s).

Definition csvFileReader_ReadHeader (r : csvFileReader)
  : (option csvFile * option error) * csvFileReader :=
  let '((header, err), r') := csvFileReader_Read r in
  match err with
  | Some e => ((None, Some e), r')
  | None => ((Some (newCsvFile header r'), None), r')
  end.

(** A failed [Next] has still moved the reader the cursor holds. *)
Definition csvFile_Next (f : csvFile)
  : (option csvRecord * option error) * csvFile :=
  let '((record, err), reader) := csvFileReader_Read (cf_reader f) in
  let f' := mkCsvFile (cf_header f) (cf_index f) reader in
  match err with
  | Some e => ((None, Some e), f')
  | None =>
      ((Some (mkCsvRecord record (cf_header f) (cf_index f)), None), f')
  end.

(** The position of the last occurrence of [name] in [header]. *)
Fixpoint last_position (name : string) (header : list string) : option nat :=
  match header with
  | [] => None
  | x :: header' =>
      match last_position name header' with
      | Some k => Some (S k)
      | None => if String.eqb x name then Some 0%nat else None
      end
  end.

(** The records a cursor hands out, until the reader reports [stop]. *)
Fixpoint cursor_yields (f : csvFile) (records : list (list string))
    (stop : error) : Prop :=
  match records with
  | [] => snd (fst (csvFile_Next f)) = Some stop
          /\ fst (fst (csvFile_Next f)) = None
  | record :: records' =>
      fst (csvFile_Next f)
        = (Some (mkCsvRecord record (cf_header f) (cf_index f)), None)
      /\ cursor_yields (snd (csvFile_Next f)) records' stop
  end.

(** The keys of [EmptyValues]. *)
Definition empty_names : list string :=
  ["n/a"; "N/A"; "N/a"; "null"; "NULL"; "Null"; "nil"; "NIL"; "Nil";
   "nan"; "NaN"; "Nan"; "#"; EmptyString].

(** ** Writing objects ([json_files.go])

    [jsonWrite]: the marshaler's error is returned as it is and nothing
    is written; otherwise the encoding and a line feed go to the sink in
    one write. *)
Definition jsonFileWriter_Write {T} `{Marshaler T} (faults : Faults)
    (w : jsonFileWriter) (object : T) (W : gmap string (file byte))
  : (option error * jsonFileWriter) * gmap string (file byte) :=
  match Marshal object with
  | None => ((Some ErrEncode, w), W)
  | Some jsonBin =>
      let '(err, W') := write_file faults (jw_path w) (jw_n w)
                                   (jsonBin ++ [nl]) W in
      ((err, mkJsonWriter (jw_path w) (jw_layers w) (S (jw_n w))), W')
  end.

(** ** Callers that write or read a whole file

    A caller that writes the items one after the other and stops at the
    first error, and the statement that a reader delivers the items [xs]
    one per call and then reports [stop]. *)
Fixpoint write_each {Wr X A : Type}
    (write : Wr -> X -> gmap string (file A)
             -> (option error * Wr) * gmap string (file A))
    (xs : list X) (w : Wr) (W : gmap string (file A))
  : (option error * Wr) * gmap string (file A) :=
  match xs with
  | [] => ((None, w), W)
  | x :: xs' =>
      match write w x W with
      | ((Some e, w'), W') => ((Some e, w'), W')
      | ((None, w'), W') => write_each write xs' w' W'
      end
  end.

Fixpoint reads {R X : Type} (read : R -> (X * option error) * R)
    (xs : list X) (stop : error) (r : R) : Prop :=
  match xs with
  | [] => snd (fst (read r)) = Some stop
  | x :: xs' =>
      fst (read r) = (x, None) /\ reads read xs' stop (snd (read r))
  end.

(** [Write] of a message writer, without the blob it also returns. *)
Definition protoFileWriter_Write_err {T} `{Marshaler T} (faults : Faults)
    (w : protoFileWriter) (message : T) (W : gmap string (file byte))
  : (option error * protoFileWriter) * gmap string (file byte) :=
  let '(((_, err), w'), W') := protoFileWriter_Write faults w message W in
  ((err, w'), W').

(** [ReadTo] into a holder that starts as [holder] and is passed again to
    the next call. *)
Definition protoFileReader_ReadTo_next {T} `{Marshaler T}
    (st : protoFileReader * T) : (T * option error) * (protoFileReader * T) :=
  let res := protoFileReader_ReadTo (fst st) (snd st) in
  (fst res, (snd res, fst (fst res))).

(** The objects the line-delimited codec gives back: the encoding has no
    line feed in it and, with the line feed [Read] leaves on it, decodes
    to the object. *)
Definition lined {T} `{Marshaler T} (object : T) : Prop :=
  exists jsonBin,
    Marshal object = Some jsonBin
    /\ (nl ∉ jsonBin)
    /\ Unmarshal (jsonBin ++ [nl]) = Some object.

(** A codec of objects that are their own encoding, and that decodes a
    line by dropping the white space after it, as a JSON decoder does with
    the line feed [Read] leaves on the line. *)
Definition line_Marshaler : Marshaler (list byte) :=
  {| Marshal := fun object => Some object;
     Unmarshal := fun line =>
       match last line with
       | Some b => if Byte.eqb b nl then Some (removelast line) else Some line
       | None => Some line
       end;
     Unmarshal_err := fun _ => ErrDecode |}.

(** ** Files by what their reader delivers

    The file at [p] opens, and its reader delivers the records [c], one
    per call, and then reports an error. *)
Definition json_part (W : gmap string (file byte)) (p : string)
    (c : list (list byte)) : Prop :=
  exists r stop,
    OpenJsonFile W p = (Some r, None)
    /\ reads jsonFileReader_ReadRaw c stop r.

(** An object file whose last line, [c], has no line feed after it. *)
Definition unterminated_objects : gmap string (file byte) :=
  <["in.json" := mkFile (json_encode (map bytes_of ["a"; "b"])
                         ++ bytes_of "c") io_EOF]> ∅.

(** The row file at [p] opens, the first read of its reader gives
    [header], and the reader then delivers the rows [c], one per call,
    and reports an error. *)
Definition csv_part (W : gmap string (file (list string))) (p : string)
    (hc : list string * list (list string)) : Prop :=
  exists r r' stop,
    OpenCsvFile W p [] = (Some r, None)
    /\ csvFileReader_Read r = ((fst hc, None), r')
    /\ reads csvFileReader_Read (snd hc) stop r'.

(** The rows a reader parses back after the records [rs] were written. *)
Definition csv_rows_written (rs : list (list string))
  : list (list string) :=
  concat (map csv_written rs).

(** A message the codec encodes; [blob_of] is then its blob. *)
Definition marshals {T} `{Marshaler T} (m : T) : Prop :=
  Marshal m = Some (blob_of m).

(** The message file at [p] opens, and its reader delivers the messages
    [c], one per call, and then reports [stop], whatever the holder held
    before. *)
Definition proto_part {T} `{Marshaler T} (W : gmap string (file byte))
    (stop : error) (p : string) (c : list T) : Prop :=
  exists r,
    OpenProtoFile W p = (Some r, None)
    /\ forall holder : T,
         reads protoFileReader_ReadTo_next c stop (r, holder).

(** Two row parts with different headers. *)
Definition mixed_header_parts : gmap string (file (list string)) :=
  <["p1.csv" := mkFile [["name"]; ["a"]] io_EOF]>
    (<["p2.csv" := mkFile [["id"; "count"]; ["1"; "2"]] io_EOF]> ∅).

(** What the loop of [SplitProtoFile] keeps, whatever fails: a writer
    exists unless the counter is at the limit or the function's [err] is
    set; the writer's path is among the parts; the paths that are not
    among the parts are as in [W0], the file system at the start. *)
Definition split_proto_inv {T : Type} (limit : Z)
    (W0 : gmap string (file byte))
    (s : split_vars (protoFileReader * T) protoFileWriter byte) : Prop :=
  (sv_writer s = None -> sv_cnt s = limit \/ sv_err s <> None)
  /\ (forall w, sv_writer s = Some w -> pw_path w ∈ sv_parts s)
  /\ (forall q, q ∉ sv_parts s -> sv_world s !! q = W0 !! q).

(** The [n]-th write call to [path] returns [e]; the earlier write calls
    to it, and its creation, return nil. *)
Definition fails_at_write (faults : Faults) (path : string) (n : nat)
    (e : error) : Prop :=
  create_err faults path = None
  /\ (forall k, (k < n)%nat -> write_err faults path k = None)
  /\ write_err faults path n = Some e.

(** The write call for the third record to [out.json] returns an error
    (no space left). *)
Definition output_full : Faults :=
  mkFaults (fun _ => None)
           (fun name k => if String.eqb name "out.json" && (2 <=? k)%nat
                          then Some (ErrSys 28) else None).

(** ** The buffer writer of messages ([json_files.go])

    [protoBufWriter] as [NewProtoBuf(false)] makes it: the sink is the
    [bytes.Buffer] itself, whose [Write] does not fail and takes all it
    is given.  With gzip the buffer holds compressed bytes, which are
    outside this model.  [ProtoStream(r, false)] over a [bytes.Reader]
    delivers the bytes and then [io.EOF]. *)
Record protoBufWriter : Type := mkProtoBuf {
  pbw_fw : list byte
}.

Definition NewProtoBuf_plain : protoBufWriter := mkProtoBuf [].

Definition protoBufWriter_Write {T} `{Marshaler T} (w : protoBufWriter)
    (message : T) : (list byte * option error) * protoBufWriter :=
  match Marshal message with
  | None =>
      (([], Some (Errorf "proto marshal error, %v" EmptyString ErrEncode)),
       w)
  | Some blob =>
      let lenBuf := BigEndian_PutUint32 (N.of_nat (length blob)) in
      ((blob, None), mkProtoBuf ((pbw_fw w ++ lenBuf) ++ blob))
  end.

Definition protoBufWriter_Bytes (w : protoBufWriter) : list byte :=
  pbw_fw w.

Definition ProtoStream_plain (content : list byte) : protoStreamReader :=
  mkProtoReader (mkStream content io_EOF).

(** A caller that writes the messages one after the other into a buffer
    writer and stops at the first error. *)
Fixpoint protoBuf_write_each {T} `{Marshaler T} (ms : list T)
    (w : protoBufWriter) : option error * protoBufWriter :=
  match ms with
  | [] => (None, w)
  | m :: ms' =>
      match protoBufWriter_Write w m with
      | ((_, Some e), w') => (Some e, w')
      | ((_, None), w') => protoBuf_write_each ms' w'
      end
  end.

(** Two row parts of which the second is an empty file. *)
Definition empty_row_part : gmap string (file (list string)) :=
  <["p1.csv" := mkFile [["name"]; ["a"]] io_EOF]>
    (<["p2.csv" := mkFile [] io_EOF]> ∅).
(** * Properties *)

Lemma to_N_byte_of_N n : Byte.to_N (byte_of_N n) = (n mod 256)%N.
Proof.
  unfold byte_of_N.
  destruct (Byte.of_N (n mod 256)) as [b|] eqn:E.
  - now apply Byte.to_of_N.
  - apply Byte.of_N_None_iff in E.
    pose proof (N.mod_upper_bound n 256). lia.
Qed.

Lemma Uint32_PutUint32 v :
  (v < 4294967296)%N -> BigEndian_Uint32 (BigEndian_PutUint32 v) = v.
Proof.
  intros Hv. unfold BigEndian_PutUint32, BigEndian_Uint32.
  rewrite !to_N_byte_of_N, (N.mod_small v) by assumption.
  assert (E3 : ((v / 16777216) mod 256 = v / 16777216)%N).
  { apply N.mod_small. apply N.Div0.div_lt_upper_bound. lia. }
  rewrite E3.
  pose proof (N.div_mod v 256 ltac:(lia)) as D0.
  pose proof (N.div_mod (v / 256) 256 ltac:(lia)) as D1.
  pose proof (N.div_mod (v / 65536) 256 ltac:(lia)) as D2.
  replace (v / 256 / 256)%N with (v / 65536)%N in D1
    by (rewrite N.Div0.div_div; reflexivity).
  replace (v / 65536 / 256)%N with (v / 16777216)%N in D2
    by (rewrite N.Div0.div_div; reflexivity).
  lia.
Qed.

Lemma length_PutUint32 v : length (BigEndian_PutUint32 v) = 4%nat.
Proof. reflexivity. Qed.

(** ** Readers *)

Lemma span_delim_None d l : ~ In d l -> span_delim d l = None.
Proof.
  induction l as [|c l IH]; simpl; intros Hn; [reflexivity|].
  destruct (Byte.eqb c d) eqn:E.
  - apply Byte.byte_dec_bl in E. subst. exfalso. apply Hn. now left.
  - rewrite IH; [reflexivity|]. intros Hin. apply Hn. now right.
Qed.

Lemma span_delim_line d l rest :
  ~ In d l -> span_delim d (l ++ d :: rest) = Some (l ++ [d], rest).
Proof.
  induction l as [|c l IH]; simpl; intros Hn.
  - now rewrite (Byte.byte_dec_lb (eq_refl d)).
  - destruct (Byte.eqb c d) eqn:E.
    + apply Byte.byte_dec_bl in E. subst. exfalso. apply Hn. now left.
    + rewrite IH; [reflexivity|]. intros Hin. apply Hn. now right.
Qed.

(** A reader of lines is exhausted when it has recorded [io.EOF], or when
    its stream is empty and ends cleanly. *)
Definition json_exhausted (r : jsonFileReader) : Prop :=
  jr_lastErr r = Some io_EOF \/
  (jr_lastErr r = None /\ avail (jr_r r) = [] /\ final (jr_r r) = io_EOF).

Lemma json_call_EOF {T} `{Marshaler T} c r :
  c = CallReadRaw \/ decoder_never_EOF ->
  isEOF (fst (json_call c r)) = true -> json_exhausted (snd (json_call c r)).
Proof.
  intros Hc.
  assert (Hd : forall data (r' : jsonFileReader),
             c = CallRead -> Unmarshal data = None ->
             isEOF (Some (Unmarshal_err data)) = true ->
             json_exhausted r').
  { intros data r' -> Hu E. destruct Hc as [Hc|Hc]; [discriminate|].
    exfalso. apply (Hc data Hu).
    destruct (Unmarshal_err data); try discriminate; reflexivity. }
  destruct r as [[buf fin] [e|]]; destruct c; simpl.
  - intros E. left. destruct e; try discriminate; reflexivity.
  - intros E. left. destruct e; try discriminate; reflexivity.
  - unfold jsonFileReader_Read, ReadBytes; simpl.
    destruct (span_delim nl buf) as [[line rest]|] eqn:S; simpl.
    + destruct (Unmarshal line) eqn:Hu; simpl; [discriminate|].
      now apply (Hd line).
    + destruct fin; simpl; try discriminate.
      destruct buf as [|b buf]; simpl.
      * intros _. right. auto.
      * destruct (Unmarshal (b :: buf)) eqn:Hu; simpl; [discriminate|].
        now apply (Hd (b :: buf)).
  - unfold jsonFileReader_ReadRaw, ReadBytes; simpl.
    destruct (span_delim nl buf) as [[line rest]|] eqn:S; simpl.
    + destruct line; simpl; discriminate.
    + destruct buf as [|b buf]; simpl.
      * intros E. right. destruct fin; try discriminate. auto.
      * destruct fin; simpl; discriminate.
Qed.

Lemma json_exhausted_call {T} `{Marshaler T} c r :
  json_exhausted r ->
  fst (json_call c r) = Some io_EOF /\ json_exhausted (snd (json_call c r)).
Proof.
  destruct r as [[buf fin] le]. unfold json_exhausted. simpl.
  intros [->|(-> & -> & ->)]; destruct c; simpl; auto.
Qed.

Lemma json_exhausted_calls {T} `{Marshaler T} cs : forall r,
  json_exhausted r ->
  Forall (fun e => e = Some io_EOF) (run_calls json_call cs r).
Proof.
  induction cs as [|c cs IH]; intros r Hr; cbn [run_calls]; constructor.
  - now apply json_exhausted_call.
  - apply IH. now apply json_exhausted_call.
Qed.

Definition proto_exhausted (r : protoFileReader) : Prop :=
  avail (pr_r r) = [] /\ final (pr_r r) = io_EOF.

Lemma io_ReadFull_EOF n s :
  snd (fst (io_ReadFull n s)) = Some io_EOF ->
  avail s = [] /\ final s = io_EOF /\ avail (snd (io_ReadFull n s)) = [] /\
  final (snd (io_ReadFull n s)) = io_EOF.
Proof.
  unfold io_ReadFull. destruct s as [buf fin]. simpl.
  destruct (n <=? length buf)%nat; simpl; [discriminate|].
  destruct buf; simpl.
  - intros [= ->]. auto.
  - destruct fin; simpl; discriminate.
Qed.

Lemma proto_call_EOF {T} `{Marshaler T} u st :
  isEOF (fst (proto_call u st)) = true ->
  proto_exhausted (fst (snd (proto_call u st))).
Proof.
  destruct st as [[s] m]. unfold proto_call, protoFileReader_ReadTo. simpl.
  destruct (io_ReadFull 4 s) as [[lenBuf [e|]] s1] eqn:E1; simpl.
  - intros E. assert (e = io_EOF) as -> by (destruct e; try discriminate; reflexivity).
    pose proof (io_ReadFull_EOF 4 s) as P. rewrite E1 in P.
    destruct (P eq_refl) as (_ & _ & ? & ?). split; assumption.
  - destruct (io_ReadFull _ s1) as [[block [e|]] s2] eqn:E2; simpl.
    + intros E. assert (e = io_EOF) as -> by (destruct e; try discriminate; reflexivity).
      pose proof (io_ReadFull_EOF (N.to_nat (BigEndian_Uint32 lenBuf)) s1) as P.
      rewrite E2 in P. destruct (P eq_refl) as (_ & _ & ? & ?).
      split; assumption.
    + destruct (Unmarshal block); simpl; discriminate.
Qed.

Lemma proto_exhausted_call {T} `{Marshaler T} u st :
  proto_exhausted (fst st) ->
  fst (proto_call u st) = Some io_EOF /\
  proto_exhausted (fst (snd (proto_call u st))).
Proof.
  destruct st as [[[buf fin]] m]. unfold proto_exhausted. simpl.
  intros [-> ->]. unfold proto_call, protoFileReader_ReadTo. simpl. auto.
Qed.

Lemma proto_exhausted_calls {T} `{Marshaler T} cs : forall st,
  proto_exhausted (fst st) ->
  Forall (fun e => e = Some io_EOF) (run_calls proto_call cs st).
Proof.
  induction cs as [|c cs IH]; intros st Hst; cbn [run_calls]; constructor.
  - now apply proto_exhausted_call.
  - apply IH. now apply proto_exhausted_call.
Qed.

Definition csv_exhausted (r : csvFileReader) : Prop :=
  r_avail (cr_src (cfr_csvr r)) = [] /\
  r_final (cr_src (cfr_csvr r)) = io_EOF.

Lemma csv_call_EOF u r :
  isEOF (fst (csv_call u r)) = true -> csv_exhausted (snd (csv_call u r)).
Proof.
  destruct r as [[[rs fin] fpr] ps].
  unfold csv_call, csvFileReader_Read, csv_Reader_Read, csv_exhausted. simpl.
  destruct rs as [|row rs]; simpl.
  - intros E. destruct fin; try discriminate. auto.
  - destruct (0 <? fpr)%nat; [destruct (length row =? fpr)%nat|];
      simpl; try discriminate; destruct ps; simpl; discriminate.
Qed.

Lemma csv_exhausted_call u r :
  csv_exhausted r ->
  fst (csv_call u r) = Some io_EOF /\ csv_exhausted (snd (csv_call u r)).
Proof.
  destruct r as [[[rs fin] fpr] ps]. unfold csv_exhausted. simpl.
  intros [-> ->]. unfold csv_call, csvFileReader_Read, csv_Reader_Read.
  simpl. auto.
Qed.

Lemma csv_exhausted_calls cs : forall r,
  csv_exhausted r ->
  Forall (fun e => e = Some io_EOF) (run_calls csv_call cs r).
Proof.
  induction cs as [|c cs IH]; intros r Hr; cbn [run_calls]; constructor.
  - now apply csv_exhausted_call.
  - apply IH. now apply csv_exhausted_call.
Qed.

(** End-of-stream is terminal where it comes from the stream: once a
    read call has signalled it, every later read call on the reader
    signals it again.  This holds for [ReadTo] and for the reader of
    rows, and for the reader of lines when the call that signalled it was
    [ReadRaw], or [Read] with a decoder that never reports [io.EOF]
    itself; the later calls may be [Read] or [ReadRaw] in any order.  It
    covers the last line without newline, after which [lastErr] holds
    [io.EOF]. *)
Lemma end_of_stream_terminal {T} `{Marshaler T} :
  (forall c (r : jsonFileReader) cs,
      c = CallReadRaw \/ decoder_never_EOF ->
      isEOF (fst (json_call c r)) = true ->
      Forall (fun e => e = Some io_EOF)
             (run_calls json_call cs (snd (json_call c r)))) /\
  (forall (st : protoFileReader * T) cs,
      isEOF (fst (proto_call tt st)) = true ->
      Forall (fun e => e = Some io_EOF)
             (run_calls proto_call cs (snd (proto_call tt st)))) /\
  (forall (r : csvFileReader) cs,
      isEOF (fst (csv_call tt r)) = true ->
      Forall (fun e => e = Some io_EOF)
             (run_calls csv_call cs (snd (csv_call tt r)))).
Proof.
  split; [|split].
  - intros c r cs Hc E. apply json_exhausted_calls. now apply json_call_EOF.
  - intros st cs E. apply proto_exhausted_calls. now apply proto_call_EOF.
  - intros r cs E. apply csv_exhausted_calls. now apply csv_call_EOF.
Qed.

(** C6 (the code departs from the claim): [Read] returns what the
    marshaler returns, and the marshaler of the package reports [io.EOF]
    for a line that holds no value.  On a stream of an empty line and
    then the line [{}], the first [Read] signals end-of-stream, the
    second returns the object with a nil error, and the third signals
    end-of-stream: the signal was not terminal. *)
Theorem C6_Read_EOF_at_blank_line :
  run_calls (json_call (H := JSONPb_like)) [CallRead; CallRead; CallRead]
    (mkJsonReader (mkStream blank_line_then_object io_EOF) None)
  = [Some io_EOF; None; Some io_EOF].
Proof. reflexivity. Qed.

(** [ReadTo] reports [io.EOF] in two situations: the stream is empty at
    the start of the prefix, or it ends right after a prefix that
    announces a payload. *)
Lemma ReadTo_EOF_iff {T} `{Marshaler T} (r : protoFileReader) (m : T) :
  snd (fst (protoFileReader_ReadTo r m)) = Some io_EOF <->
  final (pr_r r) = io_EOF /\
  (avail (pr_r r) = [] \/
   (length (avail (pr_r r)) = 4%nat /\
    (0 < BigEndian_Uint32 (avail (pr_r r)))%N)).
Proof.
  destruct r as [[buf fin]].
  destruct buf as [|b0 [|b1 [|b2 [|b3 rest]]]];
    unfold protoFileReader_ReadTo, io_ReadFull;
    cbn -[BigEndian_Uint32 N.to_nat Nat.leb].
  - split; [intros [= ->]; auto | intros (-> & _); reflexivity].
  - split; [destruct fin; discriminate|].
    intros (_ & [E|[E _]]); discriminate.
  - split; [destruct fin; discriminate|].
    intros (_ & [E|[E _]]); discriminate.
  - split; [destruct fin; discriminate|].
    intros (_ & [E|[E _]]); discriminate.
  - change (4 <=? S (S (S (S (length rest)))))%nat with true.
    cbn -[BigEndian_Uint32 N.to_nat Nat.leb].
    change (firstn 0 rest) with (@nil byte).
    change (skipn 0 rest) with rest.
    set (n := N.to_nat (BigEndian_Uint32 [b0; b1; b2; b3])).
    destruct (n <=? length rest)%nat eqn:Ln;
      cbn -[BigEndian_Uint32 N.to_nat Nat.leb].
    + apply Nat.leb_le in Ln. split.
      * destruct (Unmarshal (firstn n rest)); discriminate.
      * intros (_ & [E|[E P]]); [discriminate|].
        exfalso. destruct rest; simpl in E; [|lia]. simpl in Ln. lia.
    + apply Nat.leb_gt in Ln. destruct rest as [|c rest].
      * cbn -[BigEndian_Uint32 N.to_nat Nat.leb]. split.
        -- intros [= ->]. split; [reflexivity|]. right.
           split; [reflexivity|]. simpl in Ln. lia.
        -- intros (-> & _). reflexivity.
      * cbn -[BigEndian_Uint32 N.to_nat Nat.leb]. split.
        -- destruct fin; discriminate.
        -- intros (_ & [E|[E _]]); [discriminate|]. simpl in E. lia.
Qed.

Lemma io_ReadFull_full n buf fin :
  (n <= length buf)%nat ->
  io_ReadFull n (mkStream buf fin)
  = ((firstn n buf, None), mkStream (skipn n buf) fin).
Proof.
  intros Hn. unfold io_ReadFull. cbn [avail final].
  apply Nat.leb_le in Hn. rewrite Hn. reflexivity.
Qed.

Lemma io_ReadFull_short n buf :
  (length buf < n)%nat -> buf <> [] ->
  io_ReadFull n (mkStream buf io_EOF)
  = ((buf, Some io_ErrUnexpectedEOF), mkStream [] io_EOF).
Proof.
  intros Hn Hne. unfold io_ReadFull. cbn [avail final].
  apply Nat.leb_gt in Hn. rewrite Hn.
  destruct buf; [congruence|reflexivity].
Qed.

(** A stream that ends inside the length prefix, or inside a payload of
    which at least one byte is there, is reported as
    [io.ErrUnexpectedEOF]. *)
Lemma ReadTo_cut_inside {T} `{Marshaler T} (buf : list byte) (m : T) :
  buf <> [] ->
  ((length buf < 4)%nat \/
   (4 < length buf < 4 + N.to_nat (BigEndian_Uint32 (firstn 4 buf)))%nat) ->
  snd (fst (protoFileReader_ReadTo (mkProtoReader (mkStream buf io_EOF)) m))
  = Some io_ErrUnexpectedEOF.
Proof.
  intros Hne Hcut. unfold protoFileReader_ReadTo. cbn [pr_r].
  destruct Hcut as [Hlt|[H4 Hlt]].
  - rewrite io_ReadFull_short by assumption. reflexivity.
  - rewrite io_ReadFull_full by lia.
    rewrite io_ReadFull_short.
    + reflexivity.
    + rewrite length_skipn. lia.
    + intros Es. apply (f_equal (@length byte)) in Es.
      rewrite length_skipn in Es. simpl in Es. lia.
Qed.

(** C7 (the code departs from the claim): on a stream that ends right
    after a complete length prefix announcing five payload bytes,
    [ReadTo] returns [io.EOF], the end-of-stream signal, although the
    record is cut in the middle. *)
Theorem C7_ReadTo_EOF_after_prefix :
  snd (fst (protoFileReader_ReadTo (H := raw_Marshaler)
              (mkProtoReader cut_after_prefix) []))
  = Some io_EOF.
Proof. reflexivity. Qed.



(** ** Value processors *)

Lemma zipValues_two (A B : CsvValueProcessor) values :
  zipValues [A; B] values = map (fun v => B (A v)) values.
Proof. reflexivity. Qed.

(** C9: with processors [A; B], the record handed to the row encoder on
    write and the record returned on read hold [B (A v)] for every raw
    field [v], in order.  The row of the test, written through
    [strings.TrimSpace] and [PandasFriendly], is encoded as the line
    [123,#,#,#,#]; read back through [strings.TrimSpace] and [RemoveHash]
    it gives the fields 123 and four empty strings. *)
Theorem C9_processors_in_registered_order (A B : CsvValueProcessor) :
  (forall values,
      zipValues [A; B] values = map (fun v => B (A v)) values) /\
  (forall out values,
      csvStreamWriter_Write (mkCsvStreamWriter out [A; B]) values
      = (None, mkCsvStreamWriter
                 (out ++ [map (fun v => B (A v)) values]) [A; B])) /\
  (forall csvr record csvr',
      csv_Reader_Read csvr = ((record, None), csvr') ->
      csvFileReader_Read (mkCsvFileReader csvr [A; B])
      = ((map (fun v => B (A v)) record, None),
         mkCsvFileReader csvr' [A; B])) /\
  csv_bytes
    (csw_csvw
       (snd (csvStreamWriter_Write
               (NewCsvStream [strings_TrimSpace; PandasFriendly])
               scenario_row)))
  = String.append "123,#,#,#,#" (String LF EmptyString) /\
  option_map (fun r => fst (csvStreamReader_Read r))
    (OpenCsvStream (String.append "123,#,#,#,#" (String LF EmptyString))
                   [strings_TrimSpace; RemoveHash])
  = Some (["123"; EmptyString; EmptyString; EmptyString; EmptyString], None).
Proof.
  split; [|split; [|split; [|split]]].
  - intros values. apply zipValues_two.
  - intros out values. reflexivity.
  - intros csvr record csvr' E. unfold csvFileReader_Read.
    cbn [cfr_csvr cfr_valueProcessors]. rewrite E. reflexivity.
  - vm_compute. reflexivity.
  - vm_compute. reflexivity.
Qed.

Lemma C9_witness :
  csvFileReader_Read
    (mkCsvFileReader (mkCsvReader (mkRows [scenario_row] io_EOF) 0)
                     [strings_TrimSpace; RemoveHash])
  = ((map (fun v => RemoveHash (strings_TrimSpace v)) scenario_row, None),
     mkCsvFileReader (mkCsvReader (mkRows [] io_EOF) 5)
                     [strings_TrimSpace; RemoveHash]).
Proof.
  apply (proj1 (proj2 (proj2
           (C9_processors_in_registered_order strings_TrimSpace RemoveHash)))).
  reflexivity.
Defined.

(** ** Close *)

(** C4 as stated does not hold: with a full disk the [Close] of a gzip
    file writer returns nil, while its first teardown call, the flush of
    the innermost buffer, failed. *)
Lemma C4_first_error_not_returned :
  let w := fst (NewJsonFile_layers "out.json.gz") in
  fst (jsonFileWriter_Close w disk_full)
  <> first_error disk_full (snd (jsonFileWriter_Close w disk_full)).
Proof. vm_compute. discriminate. Qed.

(** C4, amended: whatever the teardown calls return, [Close] makes the
    teardown calls of every layer, from the layer built last to the layer
    built first.  What it returns is the result of one call only: of the
    descriptor's [Close] for the file writers, of the compressor's [Close]
    for the stream writers with gzip, and nil for the stream writers
    without gzip and for the buffer writer. *)
Theorem C4_close_reverse_order_last_result
    (env : teardown -> option error) (filePath : string) (withGzip : bool) :
  (let '(w, built) := NewJsonFile_layers filePath in
   jsonFileWriter_Close w env = (env (Close fd), reverse_teardown built)) /\
  (let '(w, built) := NewCsvFile_layers filePath in
   csvFileWriter_Close w env = (env (Close fd), reverse_teardown built)) /\
  (let '(w, built) := NewProtoFile_layers filePath in
   protoFileWriter_Close w env = (env (Close fd), reverse_teardown built)) /\
  (let '(w, built) := NewJsonStream_layers withGzip in
   jsonStreamWriter_Close w env
   = (if withGzip then env (Close gzw) else None, reverse_teardown built)) /\
  (let '(w, built) := NewCsvStream_layers withGzip in
   csvStreamWriter_Close w env
   = (if withGzip then env (Close gzw) else None, reverse_teardown built)) /\
  (let '(w, built) := NewProtoStream_layers withGzip in
   protoStreamWriter_Close w env
   = (if withGzip then env (Close gzw) else None, reverse_teardown built)) /\
  (let '(w, built) := NewProtoBuf_layers withGzip in
   protoBufWriter_Close w env = (None, reverse_teardown built)).
Proof.
  unfold NewProtoFile_layers, NewProtoStream_layers, NewJsonFile_layers,
    NewCsvFile_layers, NewJsonStream_layers, NewCsvStream_layers,
    NewProtoBuf_layers.
  destruct (HasSuffix_gz filePath), withGzip; repeat split; reflexivity.
Qed.

(** ** Split and Join at particular inputs *)

(** C10: on an input file without any row, [SplitCsvFile] returns no part
    and [io.EOF] itself as the error; on an empty input [SplitJsonFile]
    and [SplitProtoFile] return no part and a nil error.  The file system
    is left as it was. *)
Theorem C10_split_of_empty_input {T} `{Marshaler T} (faults : Faults)
    (Wr : gmap string (file (list string))) (Wb : gmap string (file byte))
    (inputFilePath : string) (holder : T) (limit : Z)
    (partFn : Z -> string) :
  Wr !! inputFilePath = Some (mkFile [] io_EOF) ->
  Wb !! inputFilePath = Some (mkFile [] io_EOF) ->
  SplitCsvFile faults Wr inputFilePath limit partFn
  = Some (([], Some io_EOF), Wr) /\
  SplitJsonFile faults Wb inputFilePath limit partFn
  = Some (([], None), Wb) /\
  SplitProtoFile faults Wb inputFilePath holder limit partFn
  = Some (([], None), Wb).
Proof.
  intros Hr Hb. repeat split.
  - unfold SplitCsvFile, OpenCsvFile. rewrite Hr. reflexivity.
  - unfold SplitJsonFile, OpenJsonFile. rewrite Hb. reflexivity.
  - unfold SplitProtoFile, OpenProtoFile. rewrite Hb. reflexivity.
Qed.

Lemma C10_witness :
  SplitCsvFile no_faults (<["in" := mkFile [] io_EOF]> ∅) "in" 10
               (part_name ".part")
  = Some (([], Some io_EOF), <["in" := mkFile [] io_EOF]> ∅) /\
  SplitJsonFile no_faults (<["in" := mkFile [] io_EOF]> ∅) "in" 10
                (part_name ".part")
  = Some (([], None), <["in" := mkFile [] io_EOF]> ∅) /\
  SplitProtoFile (H := raw_Marshaler) no_faults
                 (<["in" := mkFile [] io_EOF]> ∅) "in" [] 10
                 (part_name ".part")
  = Some (([], None), <["in" := mkFile [] io_EOF]> ∅).
Proof.
  apply (C10_split_of_empty_input (H := raw_Marshaler)); reflexivity.
Defined.

(** C1 (the code departs from the claim): three records are split with
    limit 1 and the second part cannot be created.  [SplitJsonFile] and
    [SplitCsvFile] return the first part with a nil error and leave it on
    disk; [SplitProtoFile] returns no part with the error and leaves no
    part.  When instead the records of the second part cannot be written,
    the first two return all three parts with a nil error and leave them
    on disk, and [SplitProtoFile] again returns no part with the error
    and leaves none. *)
Theorem C1_split_after_create_or_write_error :
  let names ext := map (part_name ext) [1; 2; 3] in
  outcome (names ".json")
    (SplitJsonFile (second_part_denied ".json") three_objects "in.json" 1
                   (part_name ".json"))
  = Some ((["part1.json"], None), ["part1.json"]) /\
  outcome (names ".csv")
    (SplitCsvFile (second_part_denied ".csv") three_rows "in.csv" 1
                  (part_name ".csv"))
  = Some ((["part1.csv"], None), ["part1.csv"]) /\
  outcome (names ".pb")
    (SplitProtoFile (H := raw_Marshaler) (second_part_denied ".pb")
                    three_messages "in.pb" [] 1 (part_name ".pb"))
  = Some (([], Some (Errorf "file create error '%s', %v" "part2.pb"
                            (ErrSys 13))), []) /\
  outcome (names ".json")
    (SplitJsonFile (second_part_full ".json" 0) three_objects "in.json" 1
                   (part_name ".json"))
  = Some ((["part1.json"; "part2.json"; "part3.json"], None),
          ["part1.json"; "part2.json"; "part3.json"]) /\
  outcome (names ".csv")
    (SplitCsvFile (second_part_full ".csv" 1) three_rows "in.csv" 1
                  (part_name ".csv"))
  = Some ((["part1.csv"; "part2.csv"; "part3.csv"], None),
          ["part1.csv"; "part2.csv"; "part3.csv"]) /\
  outcome (names ".pb")
    (SplitProtoFile (H := raw_Marshaler) (second_part_full ".pb" 0)
                    three_messages "in.pb" [] 1 (part_name ".pb"))
  = Some (([], Some (ErrSys 28)), []).
Proof. vm_compute. repeat split. Qed.

(** C2 (the code departs from the claim): the first of two parts ends
    with a read error that is not [io.EOF].  [JoinJsonFiles] and
    [JoinCsvFiles] go on to the next part and return nil, with the output
    short of the records lost; so they do for a row part whose reader
    reports [csv.ErrFieldCount].  [JoinProtoFiles] returns the error with
    the path of the part. *)
Theorem C2_join_after_read_error :
  joined "out.json"
    (JoinJsonFiles no_faults cut_object_part "out.json"
                   ["p1.json.gz"; "p2.json"])
  = Some (None, Some (json_encode [bytes_of "a"; bytes_of "c"])) /\
  joined "out.csv"
    (JoinCsvFiles no_faults cut_row_part "out.csv" ["p1.csv.gz"; "p2.csv"])
  = Some (None, Some [["name"]; ["a"]; ["d"]]) /\
  joined "out.csv"
    (JoinCsvFiles no_faults ragged_row_part "out.csv" ["p1.csv"; "p2.csv"])
  = Some (None, Some [["name"]; ["a"]; ["d"]]) /\
  joined "out.pb"
    (JoinProtoFiles (H := raw_Marshaler) no_faults cut_message_part "out.pb"
                    [] ["p1.pb.gz"; "p2.pb"])
  = Some (Some (Errorf "join read file '%s', %v" "p1.pb.gz"
                       io_ErrUnexpectedEOF),
          Some (message_encode (H := raw_Marshaler) [bytes_of "a"])).
Proof. vm_compute. repeat split. Qed.

(** ** The file system *)

Section FileSystem.
Context {A : Type}.
Implicit Types (W : gmap string (file A)) (p : string) (xs : list A).

Lemma append_file_insert p xs d e W :
  append_file p xs (<[p := mkFile d e]> W) = <[p := mkFile (d ++ xs) e]> W.
Proof.
  unfold append_file. rewrite lookup_insert_eq. cbn [f_data f_final].
  apply insert_insert_eq.
Qed.

Lemma append_file_lookup p xs d e W :
  W !! p = Some (mkFile d e) ->
  append_file p xs W = <[p := mkFile (d ++ xs) e]> W.
Proof. intros E. unfold append_file. rewrite E. reflexivity. Qed.

Lemma append_file_append p xs ys W :
  append_file p ys (append_file p xs W) = append_file p (xs ++ ys) W.
Proof.
  unfold append_file at 2 3. destruct (W !! p) as [[d e]|] eqn:E.
  - cbn [f_data f_final]. rewrite append_file_insert, app_assoc.
    reflexivity.
  - unfold append_file. rewrite E. reflexivity.
Qed.

Lemma append_file_nil p W : append_file p [] W = W.
Proof.
  unfold append_file. destruct (W !! p) as [[d e]|] eqn:E; [|reflexivity].
  cbn [f_data f_final]. rewrite app_nil_r. now apply insert_id.
Qed.


Lemma remove_all_lookup (names : list string) : forall W p,
  p ∈ names -> fold_left (fun W name => os_Remove name W) names W !! p = None.
Proof.
  assert (G : forall names W p, W !! p = None ->
    fold_left (fun W name => os_Remove name W) names W !! p = None).
  { clear. induction names as [|n names IH]; intros W p E; simpl; [exact E|].
    apply IH. unfold os_Remove.
    destruct (decide (n = p)) as [->|Hne].
    - apply lookup_delete_eq.
    - now rewrite lookup_delete_ne. }
  induction names as [|n names IH]; intros W p Hin.
  - now apply elem_of_nil in Hin.
  - apply elem_of_cons in Hin as [E|Hin]; simpl.
    + subst. apply G. apply lookup_delete_eq.
    + now apply IH.
Qed.
End FileSystem.

(** When the function's [err] is not nil and not [io.EOF] after the loop,
    no part is returned and no part that was created is left. *)
Lemma Split_epilogue_error {R Wr A} (s : split_vars R Wr A) e :
  sv_err s = Some e -> isEOF (Some e) = false ->
  fst (Split_epilogue s) = ([], Some e) /\
  forall p, p ∈ sv_parts s -> snd (Split_epilogue s) !! p = None.
Proof.
  intros E Hne. unfold Split_epilogue. rewrite E, Hne. cbn [fst snd].
  split; [reflexivity|]. intros p Hp. now apply remove_all_lookup.
Qed.

(** ** Chunks *)

Section Chunks.
Context {X : Type}.
Implicit Types (l cur : list X) (limit cnt : Z).

Lemma chunks_from_not_nil limit l : forall cnt cur,
  chunks_from limit cnt cur l <> [].
Proof.
  induction l as [|x l IH]; intros cnt cur; simpl; [discriminate|].
  destruct (cnt =? limit); [discriminate|apply IH].
Qed.

Lemma concat_chunks_from limit l : forall cnt cur,
  concat (chunks_from limit cnt cur l) = cur ++ l.
Proof.
  induction l as [|x l IH]; intros cnt cur; simpl.
  - reflexivity.
  - destruct (cnt =? limit); simpl.
    + now rewrite IH.
    + rewrite IH, <- app_assoc. reflexivity.
Qed.

Lemma concat_chunks limit l : concat (chunks limit l) = l.
Proof.
  destruct l as [|x l]; [reflexivity|]. simpl. now rewrite concat_chunks_from.
Qed.

Lemma chunks_from_well limit l : forall cnt cur,
  1 <= cnt <= limit -> Z.of_nat (length cur) = cnt ->
  well_chunked limit (chunks_from limit cnt cur l).
Proof.
  induction l as [|x l IH]; intros cnt cur Hc Hl; simpl.
  - split.
    + constructor; [lia|constructor].
    + exists [], cur. split; [reflexivity|constructor].
  - destruct (cnt =? limit) eqn:E.
    + apply Z.eqb_eq in E.
      destruct (IH 1 [x] ltac:(lia) eq_refl) as [F (full & last & Eq & Hf)].
      rewrite Eq in *. split.
      * constructor; [lia|exact F].
      * exists (cur :: full), last. split; [reflexivity|].
        constructor; [lia|exact Hf].
    + apply Z.eqb_neq in E. apply IH; [lia|].
      rewrite length_app. simpl. lia.
Qed.

Lemma chunks_well limit l :
  1 <= limit -> l <> [] -> well_chunked limit (chunks limit l).
Proof.
  intros HL Hne. destruct l as [|x l]; [congruence|].
  apply chunks_from_well; [lia|reflexivity].
Qed.

(** The sizes of the chunks depend on the number of records only. *)
Lemma chunks_from_sizes {Y} limit (l : list X) (l' : list Y) :
  length l = length l' -> forall cnt (c1 : list X) (c2 : list Y),
  length c1 = length c2 ->
  map (@length X) (chunks_from limit cnt c1 l)
  = map (@length Y) (chunks_from limit cnt c2 l').
Proof.
  revert l'. induction l as [|x l IH]; intros [|y l'] Hl cnt c1 c2 Hc;
    try discriminate; simpl.
  - now rewrite Hc.
  - injection Hl as Hl. destruct (cnt =? limit); simpl.
    + rewrite Hc. f_equal. now apply IH.
    + apply IH; [exact Hl|]. rewrite !length_app. simpl. lia.
Qed.

Lemma chunks_sizes limit l :
  map (@length X) (chunks limit l)
  = map (@length unit) (chunks limit (repeat tt (length l))).
Proof.
  destruct l as [|x l]; [reflexivity|]. simpl.
  apply chunks_from_sizes; [|reflexivity]. now rewrite repeat_length.
Qed.
End Chunks.

(** ** Split without failures, record by record *)

Section SplitRun.
Context {X A : Type}.
Variables (partFn : Z -> string) (limit : Z) (hdr : list A)
          (enc : X -> list A).

Lemma split_run_from recs : forall W0 parts m cnt cur,
  split_run partFn limit hdr enc recs
    (<[partFn m := mkFile (hdr ++ concat (map enc cur)) io_EOF]> W0)
    parts (Some (partFn m)) (m + 1) cnt
  = (write_parts partFn hdr enc m (chunks_from limit cnt cur recs) W0,
     parts ++ map partFn
                (Zseq (m + 1)
                      (length (chunks_from limit cnt cur recs) - 1))).
Proof.
  induction recs as [|x recs IH]; intros W0 parts m cnt cur.
  - simpl. now rewrite app_nil_r.
  - cbn [split_run chunks_from]. destruct (cnt =? limit).
    + rewrite append_file_insert. cbn [app]. change (0 + 1) with 1.
      replace (hdr ++ enc x) with (hdr ++ concat (map enc [x]))
        by (simpl; now rewrite app_nil_r).
      rewrite IH. cbn [write_parts]. f_equal.
      rewrite <- app_assoc. f_equal.
      pose proof (chunks_from_not_nil limit recs 1 [x]) as Hne.
      destruct (chunks_from limit 1 [x] recs) as [|c cs]; [congruence|].
      cbn [length]. rewrite !Nat.sub_succ, !Nat.sub_0_r. reflexivity.
    + rewrite append_file_insert.
      replace ((hdr ++ concat (map enc cur)) ++ enc x)
        with (hdr ++ concat (map enc (cur ++ [x]))).
      * apply IH.
      * rewrite map_app, concat_app. simpl.
        now rewrite app_nil_r, app_assoc.
Qed.

Lemma split_run_chunks recs W :
  split_run partFn limit hdr enc recs W [] None 1 limit
  = (write_parts partFn hdr enc 1 (chunks limit recs) W,
     map partFn (Zseq 1 (length (chunks limit recs)))).
Proof.
  destruct recs as [|x recs]; [reflexivity|].
  cbn [split_run chunks]. rewrite Z.eqb_refl, append_file_insert.
  cbn [app]. change (0 + 1) with 1.
  replace (hdr ++ enc x) with (hdr ++ concat (map enc [x]))
    by (simpl; now rewrite app_nil_r).
  rewrite split_run_from. f_equal.
  pose proof (chunks_from_not_nil limit recs 1 [x]) as Hne.
  destruct (chunks_from limit 1 [x] recs) as [|c cs]; [congruence|].
  cbn [length]. rewrite Nat.sub_succ, Nat.sub_0_r. reflexivity.
Qed.

Lemma write_parts_lookup_other cs : forall n W q,
  q ∉ map partFn (Zseq n (length cs)) ->
  write_parts partFn hdr enc n cs W !! q = W !! q.
Proof.
  induction cs as [|c cs IH]; intros n W q Hq; [reflexivity|].
  cbn [length Zseq map] in Hq. apply not_elem_of_cons in Hq as [Hne Hq].
  cbn [write_parts]. rewrite IH by exact Hq.
  apply lookup_insert_ne. congruence.
Qed.

Lemma write_parts_Forall2 cs : forall n W,
  NoDup (map partFn (Zseq n (length cs))) ->
  Forall2 (fun p c => write_parts partFn hdr enc n cs W !! p
                      = Some (mkFile (hdr ++ concat (map enc c)) io_EOF))
          (map partFn (Zseq n (length cs))) cs.
Proof.
  induction cs as [|c cs IH]; intros n W Hnd; [constructor|].
  cbn [length Zseq map] in *. apply NoDup_cons in Hnd as [Hn Hnd].
  cbn [write_parts]. constructor.
  - rewrite write_parts_lookup_other by exact Hn. apply lookup_insert_eq.
  - now apply IH.
Qed.

End SplitRun.

(** ** Object files *)

Lemma removelast_snoc {X} (l : list X) x : removelast (l ++ [x]) = l.
Proof. apply removelast_last. Qed.

Lemma ReadRaw_record r S fin :
  ~ In nl r ->
  jsonFileReader_ReadRaw
    (mkJsonReader (mkStream (json_encode (r :: S)) fin) None)
  = ((r, None), mkJsonReader (mkStream (json_encode S) fin) None).
Proof.
  intros Hr. unfold jsonFileReader_ReadRaw, ReadBytes, json_encode.
  cbn [jr_lastErr jr_r avail final map concat].
  rewrite <- app_assoc. cbn [app]. rewrite span_delim_line by exact Hr.
  destruct (r ++ [nl]) as [|b l] eqn:E.
  - destruct r; discriminate.
  - rewrite <- E, removelast_snoc. reflexivity.
Qed.

Section SplitJson.
Variables (limit : Z) (partFn : Z -> string).

(** One iteration on a record, without failures. *)
Lemma SplitJsonFile_body_record r S W err parts writer partNum cnt :
  ~ In nl r ->
  (cnt <> limit -> writer <> None) ->
  exists w,
    SplitJsonFile_body no_faults limit partFn
      (mkSplit W (json_reader_on (r :: S)) err parts writer partNum cnt)
    = (Next,
       if cnt =? limit then
         mkSplit (append_file (partFn partNum) (r ++ [nl])
                    (<[partFn partNum := mkFile [] io_EOF]> W))
                 (json_reader_on S) err (parts ++ [partFn partNum])
                 (Some w) (partNum + 1) 0
       else
         mkSplit (append_file (default EmptyString
                                       (option_map jw_path writer))
                              (r ++ [nl]) W)
                 (json_reader_on S) err parts (Some w) partNum cnt) /\
    jw_path w = (if cnt =? limit then partFn partNum
                 else default EmptyString (option_map jw_path writer)).
Proof.
  intros Hr Hw. unfold SplitJsonFile_body, json_reader_on.
  cbn [sv_reader sv_world sv_err sv_parts sv_writer sv_partNum sv_cnt].
  rewrite ReadRaw_record by exact Hr.
  destruct (cnt =? limit) eqn:E.
  - eexists. split; reflexivity.
  - apply Z.eqb_neq in E. destruct writer as [w|]; [|now destruct Hw].
    eexists. split; reflexivity.
Qed.

Lemma SplitJsonFile_loop S : forall fuel W parts writer partNum cnt,
  Forall (fun r => ~ In nl r) S ->
  (length S < fuel)%nat ->
  (cnt <> limit -> writer <> None) ->
  exists s',
    for_loop fuel sv_cond (SplitJsonFile_body no_faults limit partFn)
             sv_incr
             (mkSplit W (json_reader_on S) None parts writer partNum cnt)
    = Some s' /\
    sv_err s' = None /\
    (sv_world s', sv_parts s')
    = split_run partFn limit [] (fun r => r ++ [nl]) S W parts
                (option_map jw_path writer) partNum cnt.
Proof.
  induction S as [|r S IH];
    intros fuel W parts writer partNum cnt HS Hfuel Hw;
    (destruct fuel as [|fuel]; [simpl in Hfuel; lia|]).
  - eexists. split; [reflexivity|]. split; reflexivity.
  - apply Forall_cons in HS as [Hr HS]. simpl in Hfuel.
    cbn [for_loop sv_cond sv_err notNil negb].
    destruct (SplitJsonFile_body_record r S W None parts writer partNum
                cnt Hr Hw) as (w & -> & Hp).
    cbn [split_run].
    destruct (cnt =? limit) eqn:E.
    + destruct (IH fuel
                  (append_file (partFn partNum) (r ++ [nl])
                     (<[partFn partNum := mkFile [] io_EOF]> W))
                  (parts ++ [partFn partNum]) (Some w) (partNum + 1)
                  (0 + 1) HS ltac:(lia) ltac:(discriminate))
        as (s' & E1 & E2 & E3).
      exists s'. split; [exact E1|]. split; [exact E2|].
      rewrite E3. cbn [option_map]. rewrite Hp. reflexivity.
    + apply Z.eqb_neq in E. destruct writer as [w0|]; [|now destruct Hw].
      cbn [option_map default] in *.
      destruct (IH fuel (append_file (jw_path w0) (r ++ [nl]) W) parts
                  (Some w) partNum (cnt + 1) HS ltac:(lia)
                  ltac:(discriminate))
        as (s' & E1 & E2 & E3).
      exists s'. split; [exact E1|]. split; [exact E2|].
      rewrite E3. cbn [option_map]. rewrite Hp. reflexivity.
Qed.

(** [SplitJsonFile] on the encoding of [S], without failures. *)
Lemma SplitJsonFile_chunks S W inputFilePath :
  Forall (fun r => ~ In nl r) S ->
  W !! inputFilePath = Some (mkFile (json_encode S) io_EOF) ->
  SplitJsonFile no_faults W inputFilePath limit partFn
  = Some ((map partFn (Zseq 1 (length (chunks limit S))), None),
          write_parts partFn [] (fun r => r ++ [nl]) 1 (chunks limit S) W).
Proof.
  intros HS Hin. unfold SplitJsonFile, OpenJsonFile. rewrite Hin.
  cbn [f_data f_final jr_r avail].
  change (mkJsonReader (mkStream (json_encode S) io_EOF) None)
    with (json_reader_on S).
  destruct (SplitJsonFile_loop S (2 + length (json_encode S)) W [] None 1
              limit HS) as (s' & -> & E2 & E3).
  - clear. induction S as [|r S IH]; simpl; [lia|].
    unfold json_encode in *. simpl. rewrite !length_app. simpl. lia.
  - congruence.
  - cbn [option_map]. unfold Split_epilogue. rewrite E2. cbn [isEOF].
    rewrite split_run_chunks in E3. injection E3 as -> ->. reflexivity.
Qed.
End SplitJson.

Lemma json_encode_app S1 S2 :
  json_encode (S1 ++ S2) = json_encode S1 ++ json_encode S2.
Proof. unfold json_encode. now rewrite map_app, concat_app. Qed.

Section JoinJson.
Variable outputFilePath : string.




End JoinJson.

(** ** Message files *)

Section Proto.
Context {T : Type} `{Marshaler T}.

Lemma ReadTo_record m ms fin holder :
  framed m ->
  protoFileReader_ReadTo
    (mkProtoReader (mkStream (message_encode (m :: ms)) fin)) holder
  = ((m, None), mkProtoReader (mkStream (message_encode ms) fin)).
Proof.
  intros (Hm & Hu & Hl). unfold protoFileReader_ReadTo, message_encode.
  cbn [pr_r map concat]. unfold proto_frame at 1.
  rewrite <- !app_assoc.
  rewrite io_ReadFull_full
    by (rewrite length_app, length_PutUint32; lia).
  rewrite (take_app_length' (BigEndian_PutUint32 _)) by reflexivity.
  rewrite (drop_app_length' (BigEndian_PutUint32 _)) by reflexivity.
  rewrite Uint32_PutUint32 by exact Hl. rewrite Nat2N.id.
  rewrite io_ReadFull_full by (rewrite length_app; lia).
  rewrite take_app_length, drop_app_length, Hu. reflexivity.
Qed.

Lemma protoFileWriter_Write_framed w m W :
  framed m ->
  protoFileWriter_Write no_faults w m W
  = (((blob_of m, None),
      mkProtoWriter (pw_path w) (pw_layers w)
                    (Datatypes.S (Datatypes.S (pw_n w)))),
     append_file (pw_path w) (proto_frame (blob_of m)) W).
Proof.
  intros (Hm & _). unfold protoFileWriter_Write, write_file. rewrite Hm.
  cbn [write_err no_faults]. now rewrite append_file_append.
Qed.

Lemma message_encode_length ms : (length ms <= length (message_encode ms))%nat.
Proof.
  induction ms as [|m ms IH]; [simpl; lia|].
  unfold message_encode in *. cbn [map concat length].
  unfold proto_frame at 1. rewrite !length_app.
  pose proof (length_PutUint32 (N.of_nat (length (blob_of m)))). lia.
Qed.

Lemma message_encode_app ms1 ms2 :
  message_encode (ms1 ++ ms2) = message_encode ms1 ++ message_encode ms2.
Proof. unfold message_encode. now rewrite map_app, concat_app. Qed.

Section SplitProto.
Variables (limit : Z) (partFn : Z -> string).

Lemma SplitProtoFile_body_record m ms W holder err parts writer
    partNum cnt :
  framed m ->
  (cnt <> limit -> writer <> None) ->
  exists w,
    SplitProtoFile_body no_faults limit partFn
      (mkSplit W (proto_reader_on (m :: ms), holder) err parts writer
               partNum cnt)
    = (Next,
       if cnt =? limit then
         mkSplit (append_file (partFn partNum) (proto_frame (blob_of m))
                    (<[partFn partNum := mkFile [] io_EOF]> W))
                 (proto_reader_on ms, m) None (parts ++ [partFn partNum])
                 (Some w) (partNum + 1) 0
       else
         mkSplit (append_file (default EmptyString
                                       (option_map pw_path writer))
                              (proto_frame (blob_of m)) W)
                 (proto_reader_on ms, m) None parts (Some w) partNum cnt)
    /\ pw_path w = (if cnt =? limit then partFn partNum
                    else default EmptyString (option_map pw_path writer)).
Proof.
  intros Hm Hw. unfold SplitProtoFile_body, proto_reader_on.
  cbn [sv_reader sv_world sv_err sv_parts sv_writer sv_partNum sv_cnt
       fst snd].
  rewrite ReadTo_record by exact Hm.
  cbn [sv_reader sv_world sv_err sv_parts sv_writer sv_partNum sv_cnt].
  destruct (cnt =? limit) eqn:E.
  - unfold NewProtoFile, os_Create. cbn [create_err no_faults].
    cbn [sv_reader sv_world sv_err sv_parts sv_writer sv_partNum sv_cnt].
    rewrite protoFileWriter_Write_framed by exact Hm.
    eexists. split; reflexivity.
  - apply Z.eqb_neq in E. destruct writer as [w|]; [|now destruct Hw].
    cbn [sv_reader sv_world sv_err sv_parts sv_writer sv_partNum sv_cnt].
    rewrite protoFileWriter_Write_framed by exact Hm.
    eexists. split; reflexivity.
Qed.

Lemma SplitProtoFile_loop ms :
  forall fuel W holder parts writer partNum cnt,
  Forall framed ms ->
  (length ms < fuel)%nat ->
  (cnt <> limit -> writer <> None) ->
  exists s',
    for_loop fuel sv_cond (SplitProtoFile_body no_faults limit partFn)
             sv_incr
             (mkSplit W (proto_reader_on ms, holder) None parts writer
                      partNum cnt)
    = Some s' /\
    sv_err s' = Some io_EOF /\
    (sv_world s', sv_parts s')
    = split_run partFn limit [] (fun m => proto_frame (blob_of m)) ms W
                parts (option_map pw_path writer) partNum cnt.
Proof.
  induction ms as [|m ms IH];
    intros fuel W holder parts writer partNum cnt HS Hfuel Hw;
    (destruct fuel as [|fuel]; [simpl in Hfuel; lia|]).
  - eexists. split; [reflexivity|]. split; reflexivity.
  - apply Forall_cons in HS as [Hm HS]. simpl in Hfuel.
    cbn [for_loop sv_cond sv_err notNil negb].
    destruct (SplitProtoFile_body_record m ms W holder None parts writer
                partNum cnt Hm Hw) as (w & -> & Hp).
    cbn [split_run].
    destruct (cnt =? limit) eqn:E.
    + destruct (IH fuel
                  (append_file (partFn partNum) (proto_frame (blob_of m))
                     (<[partFn partNum := mkFile [] io_EOF]> W))
                  m (parts ++ [partFn partNum]) (Some w)
                  (partNum + 1) (0 + 1) HS ltac:(lia)
                  ltac:(discriminate))
        as (s' & E1 & E2 & E3).
      exists s'. split; [exact E1|]. split; [exact E2|].
      rewrite E3. cbn [option_map]. rewrite Hp. reflexivity.
    + apply Z.eqb_neq in E. destruct writer as [w0|]; [|now destruct Hw].
      cbn [option_map default] in *.
      destruct (IH fuel
                  (append_file (pw_path w0) (proto_frame (blob_of m)) W)
                  m parts (Some w) partNum (cnt + 1) HS ltac:(lia)
                  ltac:(discriminate))
        as (s' & E1 & E2 & E3).
      exists s'. split; [exact E1|]. split; [exact E2|].
      rewrite E3. cbn [option_map]. rewrite Hp. reflexivity.
Qed.

(** [SplitProtoFile] on the encoding of [ms], without failures. *)
Lemma SplitProtoFile_chunks ms W inputFilePath holder :
  Forall framed ms ->
  W !! inputFilePath = Some (mkFile (message_encode ms) io_EOF) ->
  SplitProtoFile no_faults W inputFilePath holder limit partFn
  = Some ((map partFn (Zseq 1 (length (chunks limit ms))), None),
          write_parts partFn [] (fun m => proto_frame (blob_of m)) 1
                      (chunks limit ms) W).
Proof.
  intros HS Hin. unfold SplitProtoFile, OpenProtoFile. rewrite Hin.
  cbn [f_data f_final pr_r avail].
  change (mkProtoReader (mkStream (message_encode ms) io_EOF))
    with (proto_reader_on ms).
  destruct (SplitProtoFile_loop ms (2 + length (message_encode ms)) W
              holder [] None 1 limit HS) as (s' & -> & E2 & E3).
  - pose proof (message_encode_length ms). lia.
  - congruence.
  - cbn [option_map]. unfold Split_epilogue. rewrite E2. cbn [isEOF].
    rewrite split_run_chunks in E3. injection E3 as -> ->. reflexivity.
Qed.
End SplitProto.
End Proto.

Section JoinProto.
Context {T : Type} `{Marshaler T}.
Variable outputFilePath : string.




End JoinProto.

(** ** Row files *)

Lemma csv_Read_row n row rs :
  length row = n ->
  csvFileReader_Read (csv_reader_on n (row :: rs))
  = ((row, None), csv_reader_on n rs).
Proof.
  intros <-. unfold csvFileReader_Read, csv_Reader_Read, csv_reader_on.
  cbn [cfr_csvr cfr_valueProcessors cr_src cr_FieldsPerRecord r_avail r_final].
  destruct (0 <? length row)%nat eqn:E.
  - now rewrite Nat.eqb_refl.
  - reflexivity.
Qed.

Lemma csv_Read_header header rs :
  csvFileReader_Read
    (mkCsvFileReader (mkCsvReader (mkRows (header :: rs) io_EOF) 0) [])
  = ((header, None), csv_reader_on (length header) rs).
Proof. reflexivity. Qed.

Lemma csvFileWriter_Write_plain w values W :
  cw_valueProcessors w = [] ->
  csv_stable values ->
  csvFileWriter_Write no_faults w values W
  = ((None, mkCsvWriter (cw_path w) (cw_layers w) (Datatypes.S (cw_n w)) []),
     append_file (cw_path w) [values] W).
Proof.
  intros E Hs. unfold csvFileWriter_Write, write_file. rewrite E, Hs.
  reflexivity.
Qed.

Lemma concat_singletons {X} (l : list X) :
  concat (map (fun x => [x]) l) = l.
Proof. induction l as [|x l IH]; simpl; [|rewrite IH]; reflexivity. Qed.

Section SplitCsv.
Variables (limit : Z) (partFn : Z -> string) (header : list string).
Hypothesis header_stable : csv_stable header.

Lemma SplitCsvFile_body_record row rs W err parts writer partNum cnt :
  row_ok header row ->
  split_writer_ok limit cnt writer ->
  exists w,
    SplitCsvFile_body no_faults limit partFn header
      (mkSplit W (csv_reader_on (length header) (row :: rs)) err parts
               writer partNum cnt)
    = (Next,
       if cnt =? limit then
         mkSplit (append_file (partFn partNum) ([header] ++ [row])
                    (<[partFn partNum := mkFile [] io_EOF]> W))
                 (csv_reader_on (length header) rs) err
                 (parts ++ [partFn partNum]) (Some w) (partNum + 1) 0
       else
         mkSplit (append_file (default EmptyString
                                       (option_map cw_path writer))
                              [row] W)
                 (csv_reader_on (length header) rs) err parts (Some w)
                 partNum cnt) /\
    cw_path w = (if cnt =? limit then partFn partNum
                 else default EmptyString (option_map cw_path writer)) /\
    cw_valueProcessors w = [].
Proof.
  intros [Hs Hr] Hw. unfold SplitCsvFile_body.
  cbn [sv_reader sv_world sv_err sv_parts sv_writer sv_partNum sv_cnt].
  rewrite csv_Read_row by exact Hr.
  cbn [sv_reader sv_world sv_err sv_parts sv_writer sv_partNum sv_cnt].
  destruct (cnt =? limit) eqn:E.
  - unfold NewCsvFile, os_Create. cbn [create_err no_faults].
    rewrite csvFileWriter_Write_plain by (reflexivity || assumption).
    cbn [sv_reader sv_world sv_err sv_parts sv_writer sv_partNum sv_cnt
         cw_path cw_layers cw_n cw_valueProcessors].
    rewrite csvFileWriter_Write_plain by (reflexivity || assumption).
    cbn [cw_path cw_layers cw_n cw_valueProcessors].
    rewrite append_file_append.
    eexists. repeat split.
  - apply Z.eqb_neq in E. destruct writer as [w|]; [|now destruct E].
    cbn [sv_reader sv_world sv_err sv_parts sv_writer sv_partNum sv_cnt].
    simpl in Hw.
    rewrite csvFileWriter_Write_plain by assumption.
    eexists. repeat split.
Qed.

Lemma SplitCsvFile_loop rs : forall fuel W parts writer partNum cnt,
  Forall (row_ok header) rs ->
  (length rs < fuel)%nat ->
  split_writer_ok limit cnt writer ->
  exists s',
    for_loop fuel sv_cond (SplitCsvFile_body no_faults limit partFn header)
             sv_incr
             (mkSplit W (csv_reader_on (length header) rs) None parts
                      writer partNum cnt)
    = Some s' /\
    sv_err s' = None /\
    (sv_world s', sv_parts s')
    = split_run partFn limit [header] (fun row => [row]) rs W parts
                (option_map cw_path writer) partNum cnt.
Proof.
  induction rs as [|row rs IH];
    intros fuel W parts writer partNum cnt HS Hfuel Hw;
    (destruct fuel as [|fuel]; [simpl in Hfuel; lia|]).
  - eexists. split; [reflexivity|]. split; reflexivity.
  - apply Forall_cons in HS as [Hr HS]. simpl in Hfuel.
    cbn [for_loop sv_cond sv_err notNil negb].
    destruct (SplitCsvFile_body_record row rs W None parts writer partNum
                cnt Hr Hw) as (w & -> & Hp & Hv).
    cbn [split_run].
    destruct (cnt =? limit) eqn:E.
    + destruct (IH fuel
                  (append_file (partFn partNum) ([header] ++ [row])
                     (<[partFn partNum := mkFile [] io_EOF]> W))
                  (parts ++ [partFn partNum]) (Some w) (partNum + 1)
                  (0 + 1) HS ltac:(lia) Hv)
        as (s' & E1 & E2 & E3).
      exists s'. split; [exact E1|]. split; [exact E2|].
      rewrite E3. cbn [option_map]. rewrite Hp. reflexivity.
    + apply Z.eqb_neq in E. destruct writer as [w0|]; [|now destruct E].
      cbn [option_map default] in *.
      destruct (IH fuel (append_file (cw_path w0) [row] W) parts
                  (Some w) partNum (cnt + 1) HS ltac:(lia) Hv)
        as (s' & E1 & E2 & E3).
      exists s'. split; [exact E1|]. split; [exact E2|].
      rewrite E3. cbn [option_map]. rewrite Hp. reflexivity.
Qed.

(** [SplitCsvFile] on a file of a header and the rows [rs], without
    failures. *)
Lemma SplitCsvFile_chunks rs W inputFilePath :
  Forall (row_ok header) rs ->
  W !! inputFilePath = Some (mkFile (header :: rs) io_EOF) ->
  SplitCsvFile no_faults W inputFilePath limit partFn
  = Some ((map partFn (Zseq 1 (length (chunks limit rs))), None),
          write_parts partFn [header] (fun row => [row]) 1
                      (chunks limit rs) W).
Proof.
  intros HS Hin. unfold SplitCsvFile, OpenCsvFile. rewrite Hin.
  cbn [f_data f_final]. rewrite csv_Read_header.
  cbn [csv_reader_on cfr_csvr cr_src r_avail].
  change (mkCsvFileReader (mkCsvReader (mkRows rs io_EOF) (length header)) [])
    with (csv_reader_on (length header) rs).
  destruct (SplitCsvFile_loop rs (2 + length rs) W [] None 1 limit HS)
    as (s' & -> & E2 & E3).
  - lia.
  - reflexivity.
  - cbn [option_map]. unfold Split_epilogue. rewrite E2. cbn [isEOF].
    rewrite split_run_chunks in E3. injection E3 as -> ->. reflexivity.
Qed.
End SplitCsv.

Section JoinCsv.
Variables (outputFilePath : string) (header : list string).
Hypothesis header_stable : csv_stable header.




End JoinCsv.

(** ** Split partitions its input *)

Lemma split_partitions_intro {X A} (partFn : Z -> string) (limit : Z)
    (hdr : list A) (enc : X -> list A) (content : list X -> list A)
    (S : list X) (W : gmap string (file A)) res :
  (forall c, hdr ++ concat (map enc c) = content c) ->
  NoDup (map partFn (Zseq 1 (length (chunks limit S)))) ->
  res = Some ((map partFn (Zseq 1 (length (chunks limit S))), None),
              write_parts partFn hdr enc 1 (chunks limit S) W) ->
  split_partitions partFn limit content S W res.
Proof.
  intros Hc Hnd ->. eexists. split; [reflexivity|]. split.
  - eapply Forall2_impl;
      [exact (write_parts_Forall2 partFn hdr enc _ 1 W Hnd)|].
    intros p c E. cbn beta in E. now rewrite <- Hc.
  - intros q Hq. now apply write_parts_lookup_other.
Qed.

(** C5 as stated does not hold for every row input: a row of one empty
    field is written to its part as an empty line, which readers skip.
    With limit 1, the part generated for such a row holds the header and
    nothing else. *)
Lemma C5_empty_field_row_not_in_part :
  ~ split_partitions (part_name ".csv") 1 (fun c => ["name"] :: c)
      [["a"]; [EmptyString]] empty_field_row
      (SplitCsvFile no_faults empty_field_row "in.csv" 1
                    (part_name ".csv")).
Proof.
  intros (W' & E1 & E2 & _).
  vm_compute in E1. injection E1 as <-.
  vm_compute in E2.
  inversion E2 as [|? ? ? ? _ E3]; subst.
  inversion E3 as [|? ? ? ? E4 _]; subst.
  discriminate.
Qed.

(** C5, amended: for records that the codec reads back as they were
    written (for rows: rows with as many fields as the header; a row of
    one empty field is not read back), without failures and with a limit
    of at least 1, Split returns the paths generated for 1, 2, ... in
    order, as many as the records have chunks, and the part at the [i]-th
    path holds the [i]-th chunk; for rows, the header and then the chunk.  The chunks, laid end to end, are
    the records; each holds at most [limit] records and all but the last
    hold [limit].  100 records under limit 10 give ten chunks of 10; 95
    give nine of 10 and one of 5; 5 give one of 5.  The generated paths
    are taken to differ from one another and from the input path. *)
Theorem C5_split_partitions {T} `{Marshaler T} (limit : Z)
    (partFn : Z -> string) (inputFilePath : string) :
  1 <= limit ->
  (forall (S : list (list byte)) (W : gmap string (file byte)),
      Forall (fun r => ~ In nl r) S ->
      W !! inputFilePath = Some (mkFile (json_encode S) io_EOF) ->
      NoDup (inputFilePath
             :: map partFn (Zseq 1 (length (chunks limit S)))) ->
      split_partitions partFn limit json_encode S W
        (SplitJsonFile no_faults W inputFilePath limit partFn)) /\
  (forall (S : list T) (holder : T) (W : gmap string (file byte)),
      Forall framed S ->
      W !! inputFilePath = Some (mkFile (message_encode S) io_EOF) ->
      NoDup (inputFilePath
             :: map partFn (Zseq 1 (length (chunks limit S)))) ->
      split_partitions partFn limit message_encode S W
        (SplitProtoFile no_faults W inputFilePath holder limit partFn)) /\
  (forall (header : list string) (S : list (list string))
          (W : gmap string (file (list string))),
      csv_stable header -> Forall (row_ok header) S ->
      W !! inputFilePath = Some (mkFile (header :: S) io_EOF) ->
      NoDup (inputFilePath
             :: map partFn (Zseq 1 (length (chunks limit S)))) ->
      split_partitions partFn limit (fun c => header :: c) S W
        (SplitCsvFile no_faults W inputFilePath limit partFn)) /\
  (forall X (S : list X),
      concat (chunks limit S) = S /\
      (S <> [] -> well_chunked limit (chunks limit S))) /\
  (forall X (S : list X),
      (length S = 100%nat ->
       map (@length X) (chunks 10 S) = repeat 10%nat 10) /\
      (length S = 95%nat ->
       map (@length X) (chunks 10 S) = repeat 10%nat 9 ++ [5%nat]) /\
      (length S = 5%nat -> map (@length X) (chunks 10 S) = [5%nat])).
Proof.
  intros HL. repeat apply conj.
  - intros S W HS Hin Hnd. apply NoDup_cons in Hnd as [_ Hnd].
    apply split_partitions_intro
      with (hdr := []) (enc := fun r => r ++ [nl]);
      [reflexivity|exact Hnd|].
    now apply SplitJsonFile_chunks.
  - intros S holder W HS Hin Hnd. apply NoDup_cons in Hnd as [_ Hnd].
    apply split_partitions_intro
      with (hdr := []) (enc := fun m => proto_frame (blob_of m));
      [reflexivity|exact Hnd|].
    now apply SplitProtoFile_chunks.
  - intros header S W Hh HS Hin Hnd. apply NoDup_cons in Hnd as [_ Hnd].
    apply split_partitions_intro
      with (hdr := [header]) (enc := fun row => [row]);
      [|exact Hnd|].
    + intros c. cbn [app]. now rewrite concat_singletons.
    + now apply SplitCsvFile_chunks.
  - intros X S. split; [apply concat_chunks|].
    intros Hne. now apply chunks_well.
  - intros X S. repeat split; intros E; rewrite chunks_sizes, E; reflexivity.
Qed.

Lemma C5_witness :
  split_partitions (part_name ".json") 1 json_encode
    (map bytes_of ["a"; "b"; "c"]) three_objects
    (SplitJsonFile no_faults three_objects "in.json" 1 (part_name ".json")).
Proof.
  refine (proj1 (C5_split_partitions (H := raw_Marshaler) 1
                   (part_name ".json") "in.json" _) _ _ _ _ _).
  - lia.
  - repeat constructor; vm_compute; intros [E|[]]; discriminate.
  - reflexivity.
  - apply (bool_decide_unpack _). vm_compute. exact I.
Defined.

(** ** Join after Split *)

Lemma Forall_chunks {X} (P : X -> Prop) limit (S : list X) :
  Forall P S -> Forall (Forall P) (chunks limit S).
Proof.
  intros HS. apply Forall_concat. now rewrite concat_chunks.
Qed.





(** ** The loops end, and what the function's [err] is after them *)

Lemma for_loop_terminates {St} (left : St -> nat) (Inv : St -> Prop)
    (cond : St -> bool) (body : St -> ctl * St) (post : St -> St) :
  (forall s, Inv s -> cond s = true ->
             match body s with
             | (Next, s') => Inv (post s') /\ (left (post s') < left s)%nat
             | (Break, _) => True
             | (Panic, _) => False
             end) ->
  forall fuel s, Inv s -> (left s < fuel)%nat ->
                 exists s', for_loop fuel cond body post s = Some s'.
Proof.
  intros Hbody. induction fuel as [|fuel IH]; intros s Hinv Hfuel; [lia|].
  cbn [for_loop]. destruct (cond s) eqn:Ec; [|eauto].
  specialize (Hbody s Hinv Ec). destruct (body s) as [[| |] s1].
  - destruct Hbody as [Hi Hl]. apply IH; [exact Hi|lia].
  - eauto.
  - destruct Hbody.
Qed.

Lemma for_loop_invariant {St} (P : St -> Prop) (cond : St -> bool)
    (body : St -> ctl * St) (post : St -> St) :
  (forall s, P s -> P (snd (body s))) ->
  (forall s, P s -> P (post s)) ->
  forall fuel s s', P s -> for_loop fuel cond body post s = Some s' -> P s'.
Proof.
  intros Hbody Hpost. induction fuel as [|fuel IH]; intros s s' Hs E;
    [discriminate|].
  cbn [for_loop] in E. destruct (cond s); [|congruence].
  pose proof (Hbody s Hs) as Hb. destruct (body s) as [[| |] s1].
  - eapply IH; [|exact E]. apply Hpost. exact Hb.
  - injection E as <-. exact Hb.
  - discriminate.
Qed.

Lemma span_delim_length d l line rest :
  span_delim d l = Some (line, rest) ->
  (length rest < length l)%nat.
Proof.
  revert line rest. induction l as [|c l IH]; intros line rest; simpl;
    [discriminate|].
  destruct (Byte.eqb c d).
  - intros [= <- <-]. lia.
  - destruct (span_delim d l) as [[line' rest']|]; [|discriminate].
    intros [= <- <-]. specialize (IH _ _ eq_refl). lia.
Qed.

Lemma ReadRaw_progress r :
  snd (fst (jsonFileReader_ReadRaw r)) = None ->
  (json_left (snd (jsonFileReader_ReadRaw r)) < json_left r)%nat.
Proof.
  destruct r as [[buf fin] [e|]];
    unfold jsonFileReader_ReadRaw, ReadBytes, json_left;
    cbn [jr_lastErr jr_r avail final]; [discriminate|].
  destruct (span_delim nl buf) as [[line rest]|] eqn:E.
  - apply span_delim_length in E. destruct line; cbn; intros _; lia.
  - destruct buf as [|b buf]; cbn; [discriminate|].
    destruct fin; cbn; try discriminate. intros _. lia.
Qed.

Lemma csv_Read_progress r :
  snd (fst (csvFileReader_Read r)) = None ->
  (csv_left (snd (csvFileReader_Read r)) < csv_left r)%nat.
Proof.
  destruct r as [[[rs fin] n] ps].
  unfold csvFileReader_Read, csv_Reader_Read, csv_left.
  cbn [cfr_csvr cfr_valueProcessors cr_src cr_FieldsPerRecord r_avail
       r_final].
  destruct rs as [|row rs]; [discriminate|].
  destruct (0 <? n)%nat; [destruct (length row =? n)%nat|];
    cbn; try discriminate; destruct ps; cbn; intros _; lia.
Qed.

Section SplitNeverFails.
Variables (faults : Faults) (limit : Z) (partFn : Z -> string).

Lemma SplitJsonFile_body_err s :
  sv_err (snd (SplitJsonFile_body faults limit partFn s)) = sv_err s.
Proof.
  unfold SplitJsonFile_body.
  destruct (jsonFileReader_ReadRaw (sv_reader s)) as [[raw [e|]] reader];
    cbn [sv_reader sv_world sv_err sv_parts sv_writer sv_partNum sv_cnt snd];
    [reflexivity|].
  destruct (sv_cnt s =? limit).
  - destruct (NewJsonFile faults (partFn (sv_partNum s)) (sv_world s))
      as [[[w|] [e|]] W1]; cbn; try reflexivity.
    destruct (jsonFileWriter_WriteRaw faults w raw W1) as [[e w1] W2].
    reflexivity.
  - cbn. destruct (sv_writer s) as [w|]; [|reflexivity].
    destruct (jsonFileWriter_WriteRaw faults w raw (sv_world s))
      as [[e w1] W2].
    reflexivity.
Qed.

Lemma SplitJsonFile_body_step s :
  (sv_writer s = None -> sv_cnt s = limit) ->
  match SplitJsonFile_body faults limit partFn s with
  | (Next, s') =>
      sv_writer s' <> None /\
      (json_left (sv_reader s') < json_left (sv_reader s))%nat
  | (Break, _) => True
  | (Panic, _) => False
  end.
Proof.
  intros Hinv. unfold SplitJsonFile_body.
  pose proof (ReadRaw_progress (sv_reader s)) as Hp.
  destruct (jsonFileReader_ReadRaw (sv_reader s)) as [[raw [e|]] reader];
    cbn [fst snd] in Hp;
    cbn [sv_reader sv_world sv_err sv_parts sv_writer sv_partNum sv_cnt];
    [exact I|].
  specialize (Hp eq_refl).
  destruct (sv_cnt s =? limit) eqn:E.
  - unfold NewJsonFile.
    destruct (os_Create faults (partFn (sv_partNum s)) (sv_world s))
      as [[e|] W1]; cbn; [exact I|].
    match goal with
    | |- context [jsonFileWriter_WriteRaw ?a ?b ?c ?d] =>
        destruct (jsonFileWriter_WriteRaw a b c d) as [[e w1] W2]
    end.
    split; [discriminate|exact Hp].
  - apply Z.eqb_neq in E.
    cbn [sv_reader sv_world sv_err sv_parts sv_writer sv_partNum sv_cnt].
    destruct (sv_writer s) as [w|]; [|now destruct E; apply Hinv].
    destruct (jsonFileWriter_WriteRaw faults w raw (sv_world s))
      as [[e w1] W2].
    split; [discriminate|exact Hp].
Qed.

(** Once the input is open, [SplitJsonFile] returns, and the error it
    returns is nil, whatever failed in the loop. *)
Lemma SplitJsonFile_returns_nil W inputFilePath f :
  W !! inputFilePath = Some f ->
  exists parts W',
    SplitJsonFile faults W inputFilePath limit partFn
    = Some ((parts, None), W').
Proof.
  intros Hin. unfold SplitJsonFile, OpenJsonFile. rewrite Hin.
  cbn [jr_r avail].
  set (s0 := mkSplit W _ None [] None 1 limit).
  destruct (for_loop_terminates
              (fun s => json_left (sv_reader s))
              (fun s => sv_writer s = None -> sv_cnt s = limit)
              sv_cond (SplitJsonFile_body faults limit partFn) sv_incr)
    with (fuel := (2 + length (f_data f))%nat) (s := s0) as [s' E].
  - intros s Hinv _. pose proof (SplitJsonFile_body_step s Hinv) as Hs.
    destruct (SplitJsonFile_body faults limit partFn s) as [[| |] s1];
      [|exact I|exact Hs].
    destruct Hs as [Hw Hl]. split; [|exact Hl].
    cbn [sv_incr sv_writer]. intros Hn. now destruct Hw.
  - reflexivity.
  - subst s0. unfold json_left. cbn. lia.
  - rewrite E. cbn [option_map]. unfold Split_epilogue.
    assert (Herr : sv_err s' = None).
    { revert E. apply (for_loop_invariant (fun s => sv_err s = None)).
      - intros s Hs. now rewrite SplitJsonFile_body_err.
      - intros s Hs. exact Hs.
      - reflexivity. }
    rewrite Herr. cbn [isEOF]. eauto.
Qed.
End SplitNeverFails.

Section SplitCsvNeverFails.
Variables (faults : Faults) (limit : Z) (partFn : Z -> string)
          (header : list string).

Lemma SplitCsvFile_body_err s :
  sv_err (snd (SplitCsvFile_body faults limit partFn header s)) = sv_err s.
Proof.
  unfold SplitCsvFile_body.
  destruct (csvFileReader_Read (sv_reader s)) as [[row [e|]] reader];
    cbn [sv_reader sv_world sv_err sv_parts sv_writer sv_partNum sv_cnt snd];
    [reflexivity|].
  destruct (sv_cnt s =? limit).
  - destruct (NewCsvFile faults (partFn (sv_partNum s)) [] (sv_world s))
      as [[[w|] [e|]] W1]; cbn; try reflexivity.
    destruct (csvFileWriter_Write faults w header W1) as [[[e|] w1] W2];
      cbn; [reflexivity|].
    destruct (csvFileWriter_Write faults w1 row W2) as [[e w2] W3].
    reflexivity.
  - cbn. destruct (sv_writer s) as [w|]; [|reflexivity].
    destruct (csvFileWriter_Write faults w row (sv_world s)) as [[e w1] W2].
    reflexivity.
Qed.

Lemma SplitCsvFile_body_step s :
  (sv_writer s = None -> sv_cnt s = limit) ->
  match SplitCsvFile_body faults limit partFn header s with
  | (Next, s') =>
      sv_writer s' <> None /\
      (csv_left (sv_reader s') < csv_left (sv_reader s))%nat
  | (Break, _) => True
  | (Panic, _) => False
  end.
Proof.
  intros Hinv. unfold SplitCsvFile_body.
  pose proof (csv_Read_progress (sv_reader s)) as Hp.
  destruct (csvFileReader_Read (sv_reader s)) as [[row [e|]] reader];
    cbn [fst snd] in Hp;
    cbn [sv_reader sv_world sv_err sv_parts sv_writer sv_partNum sv_cnt];
    [exact I|].
  specialize (Hp eq_refl).
  destruct (sv_cnt s =? limit) eqn:E.
  - unfold NewCsvFile.
    destruct (os_Create faults (partFn (sv_partNum s)) (sv_world s))
      as [[e|] W1]; cbn; [exact I|].
    match goal with
    | |- context [csvFileWriter_Write ?a ?b ?c ?d] =>
        destruct (csvFileWriter_Write a b c d) as [[[e|] w1] W2]
    end; cbn; [exact I|].
    destruct (csvFileWriter_Write faults w1 row W2) as [[e w2] W3].
    split; [discriminate|exact Hp].
  - apply Z.eqb_neq in E.
    cbn [sv_reader sv_world sv_err sv_parts sv_writer sv_partNum sv_cnt].
    destruct (sv_writer s) as [w|]; [|now destruct E; apply Hinv].
    destruct (csvFileWriter_Write faults w row (sv_world s)) as [[e w1] W2].
    split; [discriminate|exact Hp].
Qed.
End SplitCsvNeverFails.

(** Once the header is read, [SplitCsvFile] returns, and the error it
    returns is nil, whatever failed in the loop. *)
Lemma SplitCsvFile_returns_nil faults limit partFn W inputFilePath header
    rs fin :
  W !! inputFilePath = Some (mkFile (header :: rs) fin) ->
  exists parts W',
    SplitCsvFile faults W inputFilePath limit partFn
    = Some ((parts, None), W').
Proof.
  intros Hin. unfold SplitCsvFile, OpenCsvFile. rewrite Hin.
  cbn [f_data f_final].
  change (csvFileReader_Read
            (mkCsvFileReader (mkCsvReader (mkRows (header :: rs) fin) 0) []))
    with ((header, @None error),
          mkCsvFileReader (mkCsvReader (mkRows rs fin) (length header)) []).
  cbn [cfr_csvr cr_src r_avail].
  set (s0 := mkSplit W _ None [] None 1 limit).
  destruct (for_loop_terminates
              (fun s => csv_left (sv_reader s))
              (fun s => sv_writer s = None -> sv_cnt s = limit)
              sv_cond (SplitCsvFile_body faults limit partFn header) sv_incr)
    with (fuel := (2 + length rs)%nat) (s := s0) as [s' E].
  - intros s Hinv _.
    pose proof (SplitCsvFile_body_step faults limit partFn header s Hinv)
      as Hs.
    destruct (SplitCsvFile_body faults limit partFn header s)
      as [[| |] s1]; [|exact I|exact Hs].
    destruct Hs as [Hw Hl]. split; [|exact Hl].
    cbn [sv_incr sv_writer]. intros Hn. now destruct Hw.
  - reflexivity.
  - subst s0. unfold csv_left. cbn. lia.
  - rewrite E. cbn [option_map]. unfold Split_epilogue.
    assert (Herr : sv_err s' = None).
    { revert E. apply (for_loop_invariant (fun s => sv_err s = None)).
      - intros s Hs. now rewrite SplitCsvFile_body_err.
      - intros s Hs. exact Hs.
      - reflexivity. }
    rewrite Herr. cbn [isEOF]. eauto.
Qed.

(** * Row cursors and schemas *)

Lemma index_from_lookup (name : string) (header : list string) :
  forall (i : Z) (index : gmap string Z),
    index_from i header index !! name
    = match last_position name header with
      | Some k => Some (i + Z.of_nat k)
      | None => index !! name
      end.
Proof.
  induction header as [|x header IH]; intros i index; cbn [index_from last_position].
  - reflexivity.
  - rewrite IH. destruct (last_position name header) as [k|].
    + f_equal. lia.
    + destruct (String.eqb_spec x name) as [->|Hne].
      * rewrite lookup_insert_eq. f_equal. lia.
      * rewrite lookup_insert_ne by exact Hne. reflexivity.
Qed.

Lemma last_position_None (name : string) (header : list string) :
  name ∉ header -> last_position name header = None.
Proof.
  induction header as [|x header IH]; intros Hn; cbn [last_position].
  - reflexivity.
  - apply not_elem_of_cons in Hn as [Hx Hh]. rewrite (IH Hh).
    destruct (String.eqb_spec x name) as [->|_]; [congruence | reflexivity].
Qed.

Lemma last_position_app (name : string) (h1 h2 : list string) :
  name ∉ h2 -> last_position name (h1 ++ name :: h2) = Some (length h1).
Proof.
  intros Hn. induction h1 as [|x h1 IH]; cbn [app last_position length].
  - rewrite (last_position_None _ _ Hn), String.eqb_refl. reflexivity.
  - rewrite IH. reflexivity.
Qed.

(** X1.  [Field] looks a name up at its last position in the header: for a
    header [h1 ++ name :: h2] in which [name] does not occur again in
    [h2], the record's value at position [length h1] is returned, and the
    default when the record is too short to have that position. *)
Theorem Field_at_last_position (h1 h2 : list string) (name def : string)
    (record : list string) :
  name ∉ h2 ->
  csvRecord_Field
    (csvSchema_Record (NewCsvSchema (h1 ++ name :: h2)) record) name def
  = default def (record !! length h1).
Proof.
  intros Hn. unfold csvRecord_Field, csvSchema_Record, NewCsvSchema.
  cbn [rec_index rec_record cs_index cs_header].
  rewrite index_from_lookup, (last_position_app _ _ _ Hn).
  replace (0 + Z.of_nat (length h1)) with (Z.of_nat (length h1)) by lia.
  rewrite Nat2Z.id.
  destruct (Z.ltb_spec (Z.of_nat (length h1)) (Z.of_nat (length record)))
    as [Hlt|Hge].
  - replace (0 <=? Z.of_nat (length h1)) with true
      by (symmetry; apply Z.leb_le; lia).
    cbn [andb].
    destruct (lookup_lt_is_Some_2 record (length h1)) as [v Hv]; [lia|].
    rewrite Hv. cbn [default].
    apply nth_lookup_Some with (d := EmptyString) in Hv. exact Hv.
  - rewrite andb_false_r.
    rewrite (proj2 (lookup_ge_None record (length h1))) by lia.
    reflexivity.
Qed.

Lemma Field_at_last_position_witness :
  csvRecord_Field
    (csvSchema_Record (NewCsvSchema (["id"] ++ "name" :: ["id"]))
                      ["1"; "a"; "2"]) "id" "none" = "2"
  /\ csvRecord_Field
       (csvSchema_Record (NewCsvSchema (["name"] ++ "id" :: []))
                         ["a"]) "id" "none" = "none".
Proof.
  split.
  - apply (Field_at_last_position ["id"; "name"] [] "id" "none"
             ["1"; "a"; "2"]).
    intros H; inversion H.
  - apply (Field_at_last_position ["name"] [] "id" "none" ["a"]).
    intros H; inversion H.
Defined.

(** X2.  [Field] returns the default for a name the header does not have,
    whatever the record holds. *)
Theorem Field_of_unknown_name (header record : list string)
    (name def : string) :
  name ∉ header ->
  csvRecord_Field (csvSchema_Record (NewCsvSchema header) record) name def
  = def.
Proof.
  intros Hn. unfold csvRecord_Field, csvSchema_Record, NewCsvSchema.
  cbn [rec_index rec_record cs_index cs_header].
  rewrite index_from_lookup, (last_position_None _ _ Hn), lookup_empty.
  reflexivity.
Qed.

Lemma Field_of_unknown_name_witness :
  csvRecord_Field
    (csvSchema_Record (NewCsvSchema ["name"; "value"]) ["a"; "b"])
    "count" "0" = "0".
Proof.
  apply (Field_of_unknown_name ["name"; "value"] ["a"; "b"] "count" "0").
  intros H. apply elem_of_cons in H as [H|H]; [discriminate|].
  apply elem_of_cons in H as [H|H]; [discriminate|]. inversion H.
Defined.

(** The key [Fields] files the value at position [i] under. *)
Lemma Fields_from_untouched (header : list string) (k : string) :
  forall (record : list string) (i : nat) (m : gmap string string),
    (forall j, (j < length record)%nat ->
       (if (i + j <? length header)%nat
        then nth (i + j) header EmptyString else EmptyString) <> k) ->
    Fields_from i header record m !! k = m !! k.
Proof.
  induction record as [|v record IH]; intros i m Hk; cbn [Fields_from].
  - reflexivity.
  - rewrite IH.
    + apply lookup_insert_ne. specialize (Hk 0%nat).
      rewrite Nat.add_0_r in Hk. apply Hk. cbn [length]. lia.
    + intros j Hj. specialize (Hk (S j)).
      replace (i + S j)%nat with (S i + j)%nat in Hk by lia.
      apply Hk. cbn [length]. lia.
Qed.

Lemma Fields_from_last (header : list string) (k : string) :
  forall (record : list string) (j i : nat) (m : gmap string string),
    (j < length record)%nat ->
    (if (i + j <? length header)%nat
     then nth (i + j) header EmptyString else EmptyString) = k ->
    (forall j', (j < j')%nat -> (j' < length record)%nat ->
       (if (i + j' <? length header)%nat
        then nth (i + j') header EmptyString else EmptyString) <> k) ->
    Fields_from i header record m !! k = record !! j.
Proof.
  induction record as [|v record IH]; intros j i m Hj Hk Hlater;
    cbn [Fields_from].
  - cbn [length] in Hj. lia.
  - destruct j as [|j].
    + rewrite Nat.add_0_r in Hk. rewrite Hk.
      rewrite Fields_from_untouched.
      * apply lookup_insert_eq.
      * intros j Hj'. specialize (Hlater (S j)).
        replace (i + S j)%nat with (S i + j)%nat in Hlater by lia.
        apply Hlater; cbn [length]; lia.
    + cbn [length] in Hj. rewrite (IH j (S i)).
      * reflexivity.
      * lia.
      * replace (S i + j)%nat with (i + S j)%nat by lia. exact Hk.
      * intros j' H1 H2. specialize (Hlater (S j')).
        replace (i + S j')%nat with (S i + j')%nat in Hlater by lia.
        apply Hlater; cbn [length]; lia.
Qed.

(** X3.  For a header without repeated names and a record that is not
    longer than the header, [Fields] maps the name of every column to the
    record's value in that column; a column the record is too short for,
    and a name that is not in the header, have no entry. *)
Theorem Fields_by_column (header record : list string) :
  NoDup header ->
  (length record <= length header)%nat ->
  (forall i name, header !! i = Some name ->
     csvRecord_Fields (csvSchema_Record (NewCsvSchema header) record)
       !! name = record !! i)
  /\ (forall name, name ∉ header ->
        csvRecord_Fields (csvSchema_Record (NewCsvSchema header) record)
          !! name = None).
Proof.
  intros Hnd Hlen. unfold csvRecord_Fields, csvSchema_Record, NewCsvSchema.
  cbn [rec_header rec_record cs_header cs_index].
  assert (Hkey : forall j name, (j < length record)%nat ->
            (if (0 + j <? length header)%nat
             then nth (0 + j) header EmptyString else EmptyString) = name ->
            header !! j = Some name).
  { intros j name Hj. cbn [Nat.add].
    destruct (Nat.ltb_spec j (length header)) as [Hlt|Hge]; [|lia].
    intros <-. destruct (lookup_lt_is_Some_2 header j Hlt) as [x Hx].
    rewrite (nth_lookup_Some _ _ EmptyString _ Hx). exact Hx. }
  split.
  - intros i name Hi.
    destruct (Nat.lt_ge_cases i (length record)) as [Hlt|Hge].
    + apply Fields_from_last.
      * exact Hlt.
      * cbn [Nat.add].
        destruct (Nat.ltb_spec i (length header)) as [_|Hge]; [|lia].
        apply (nth_lookup_Some _ _ EmptyString _ Hi).
      * intros j' H1 H2 Heq. apply Hkey in Heq; [|exact H2].
        pose proof (NoDup_lookup _ _ _ _ Hnd Hi Heq). lia.
    + rewrite (proj2 (lookup_ge_None record i)) by lia.
      rewrite Fields_from_untouched; [apply lookup_empty|].
      intros j Hj Heq. apply Hkey in Heq; [|exact Hj].
      pose proof (NoDup_lookup _ _ _ _ Hnd Hi Heq). lia.
  - intros name Hn.
    rewrite Fields_from_untouched; [apply lookup_empty|].
    intros j Hj Heq. apply Hkey in Heq; [|exact Hj].
    apply Hn. apply list_elem_of_lookup. eauto.
Qed.

Lemma Fields_by_column_witness :
  (forall i name, ["name"; "value"; "unit"] !! i = Some name ->
     csvRecord_Fields
       (csvSchema_Record (NewCsvSchema ["name"; "value"; "unit"])
                         ["a"; "1"])
       !! name = ["a"; "1"] !! i)
  /\ (forall name, name ∉ ["name"; "value"; "unit"] ->
        csvRecord_Fields
          (csvSchema_Record (NewCsvSchema ["name"; "value"; "unit"])
                            ["a"; "1"])
          !! name = None).
Proof.
  apply (Fields_by_column ["name"; "value"; "unit"] ["a"; "1"]).
  - apply (bool_decide_unpack _). vm_compute. exact I.
  - cbn [length]. lia.
Defined.

(** X4.  A record that is longer than the header has its columns beyond
    the header filed under the empty name, each overwriting the one
    before: the entry of the empty name is the record's last value. *)
Theorem Fields_beyond_header (header record : list string) :
  (length header < length record)%nat ->
  csvRecord_Fields (csvSchema_Record (NewCsvSchema header) record)
    !! EmptyString = last record.
Proof.
  intros Hlen. unfold csvRecord_Fields, csvSchema_Record, NewCsvSchema.
  cbn [rec_header rec_record cs_header cs_index].
  rewrite last_lookup.
  apply Fields_from_last.
  - lia.
  - cbn [Nat.add].
    destruct (Nat.ltb_spec (Init.Nat.pred (length record)) (length header));
      [lia | reflexivity].
  - intros j' H1 H2. lia.
Qed.

Lemma Fields_beyond_header_witness :
  csvRecord_Fields
    (csvSchema_Record (NewCsvSchema ["name"]) ["a"; "b"; "c"])
    !! EmptyString = last ["a"; "b"; "c"].
Proof.
  apply (Fields_beyond_header ["name"] ["a"; "b"; "c"]).
  cbn [length]. lia.
Defined.

Lemma zipValues_nil (values : list string) : zipValues [] values = values.
Proof.
  unfold zipValues. cbn [fold_left]. induction values as [|v values IH].
  - reflexivity.
  - cbn [map]. now rewrite IH.
Qed.

(** A read of a reader with value processors [ps], of a record the field
    count lets through. *)
Lemma csvFileReader_Read_processed (ps : list CsvValueProcessor)
    (n : nat) (record : list string) (rest : list (list string))
    (fin : error) :
  n = 0%nat \/ length record = n ->
  csvFileReader_Read
    (mkCsvFileReader (mkCsvReader (mkRows (record :: rest) fin) n) ps)
  = ((zipValues ps record, None),
     mkCsvFileReader
       (mkCsvReader (mkRows rest fin) (length record)) ps).
Proof.
  intros Hn. unfold csvFileReader_Read, csv_Reader_Read.
  cbn [cfr_csvr cfr_valueProcessors cr_src cr_FieldsPerRecord r_avail r_final].
  destruct (0 <? n)%nat eqn:E.
  - destruct Hn as [->|Hn]; [discriminate|]. subst n.
    rewrite Nat.eqb_refl. destruct ps; [now rewrite zipValues_nil|reflexivity].
  - apply Nat.ltb_ge in E. assert (n = 0%nat) as -> by lia.
    destruct ps; [now rewrite zipValues_nil|reflexivity].
Qed.

Lemma cursor_yields_rows (ps : list CsvValueProcessor) (header : list string)
    (index : gmap string Z) (n : nat) (fin : error) :
  forall rs : list (list string),
    Forall (fun r => length r = n) rs ->
    cursor_yields
      (mkCsvFile header index
         (mkCsvFileReader (mkCsvReader (mkRows rs fin) n) ps))
      (map (zipValues ps) rs) fin.
Proof.
  induction rs as [|r rs IH]; intros Hrs; cbn [map cursor_yields].
  - split; reflexivity.
  - inversion Hrs as [|? ? Hr Hrs']; subst.
    unfold csvFile_Next. cbn [cf_reader cf_header cf_index].
    rewrite csvFileReader_Read_processed by (right; reflexivity).
    cbn [fst snd]. split; [reflexivity|]. apply IH. exact Hrs'.
Qed.

(** X5.  Opening a row file whose rows all have as many fields as its
    first row and calling [ReadHeader] gives a cursor whose header is the
    first row after the value processors, whose index is the one
    [NewCsvSchema] builds for that header, and whose [Next] hands out the
    remaining rows, each after the value processors, and then the error
    the file ends with. *)
Theorem ReadHeader_then_Next (W : gmap string (file (list string)))
    (filePath : string) (ps : list CsvValueProcessor)
    (header : list string) (rs : list (list string)) (fin : error) :
  W !! filePath = Some (mkFile (header :: rs) fin) ->
  Forall (fun r => length r = length header) rs ->
  exists (r r' : csvFileReader) (f : csvFile),
    OpenCsvFile W filePath ps = (Some r, None)
    /\ csvFileReader_ReadHeader r = ((Some f, None), r')
    /\ csvFile_Header f = zipValues ps header
    /\ csvFile_Index f = cs_index (NewCsvSchema (zipValues ps header))
    /\ cursor_yields f (map (zipValues ps) rs) fin.
Proof.
  intros Hfile Hrs. unfold OpenCsvFile. rewrite Hfile. cbn [f_data f_final].
  do 3 eexists. split; [reflexivity|].
  unfold csvFileReader_ReadHeader.
  rewrite csvFileReader_Read_processed by (left; reflexivity).
  split; [reflexivity|]. split; [reflexivity|]. split; [reflexivity|].
  apply cursor_yields_rows. exact Hrs.
Qed.

Lemma ReadHeader_then_Next_witness :
  exists (r r' : csvFileReader) (f : csvFile),
    OpenCsvFile three_rows "in.csv" [strings_TrimSpace]
      = (Some r, None)
    /\ csvFileReader_ReadHeader r = ((Some f, None), r')
    /\ csvFile_Header f = zipValues [strings_TrimSpace] ["name"]
    /\ csvFile_Index f
       = cs_index (NewCsvSchema (zipValues [strings_TrimSpace] ["name"]))
    /\ cursor_yields f
         (map (zipValues [strings_TrimSpace]) [["a"]; ["b"]; ["c"]]) io_EOF.
Proof.
  apply (ReadHeader_then_Next three_rows "in.csv" [strings_TrimSpace]
           ["name"] [["a"]; ["b"]; ["c"]] io_EOF).
  - reflexivity.
  - repeat constructor.
Defined.

(** * Value processors *)

Lemma EmptyValues_lookup (v : string) :
  default false (EmptyValues !! v) = bool_decide (v ∈ empty_names).
Proof.
  unfold EmptyValues, empty_names. cbn [list_to_map foldr fst snd].
  repeat (rewrite lookup_insert; case_decide;
          [subst v; reflexivity|]).
  rewrite lookup_empty. cbn [default]. symmetry.
  apply bool_decide_eq_false.
  repeat (rewrite elem_of_cons). rewrite elem_of_nil. intuition congruence.
Qed.

(** X6.  A value written through [PandasFriendly] and read back through
    [RemoveHash] comes back unchanged unless it is one of the spellings of
    an empty value; each of those, the hash sign included, comes back as
    the empty string. *)
Theorem RemoveHash_after_PandasFriendly (v : string) :
  RemoveHash (PandasFriendly v)
  = if bool_decide (v ∈ empty_names) then EmptyString else v.
Proof.
  unfold PandasFriendly. rewrite EmptyValues_lookup.
  case_bool_decide as Hv.
  - reflexivity.
  - unfold RemoveHash. destruct (String.eqb_spec v "#") as [->|_].
    + exfalso. apply Hv. apply (bool_decide_unpack _). vm_compute. exact I.
    + reflexivity.
Qed.

(** X7.  [PandasFriendly] never returns the empty string, returns the hash
    sign exactly for the spellings of an empty value, and applying it
    twice is the same as applying it once. *)
Theorem PandasFriendly_no_empty_cell (v : string) :
  PandasFriendly v <> EmptyString
  /\ (PandasFriendly v = "#" <-> v ∈ empty_names)
  /\ PandasFriendly (PandasFriendly v) = PandasFriendly v.
Proof.
  assert (Hhash : "#" ∈ empty_names)
    by (apply (bool_decide_unpack _); vm_compute; exact I).
  assert (Hnil : EmptyString ∈ empty_names)
    by (apply (bool_decide_unpack _); vm_compute; exact I).
  unfold PandasFriendly. rewrite !EmptyValues_lookup.
  case_bool_decide as Hv.
  - rewrite (bool_decide_eq_true_2 _ Hhash).
    split; [discriminate|]. split; [tauto | reflexivity].
  - rewrite (bool_decide_eq_false_2 _ Hv).
    split; [congruence|]. split; [|reflexivity].
    split; [intros ->; contradiction | contradiction].
Qed.

(** X8.  Processors registered as [ps ++ qs] act as a pass with [ps]
    followed by a pass with [qs], and a pass keeps the number of values. *)
Theorem zipValues_app (ps qs : list CsvValueProcessor)
    (values : list string) :
  zipValues (ps ++ qs) values = zipValues qs (zipValues ps values)
  /\ length (zipValues ps values) = length values.
Proof.
  unfold zipValues. split.
  - rewrite map_map. apply map_ext. intros v. apply fold_left_app.
  - apply length_map.
Qed.

(** * Writing a file and reading it back *)

Section WriteEach.
Context {Wr X A : Type}.
Variables (write : Wr -> X -> gmap string (file A)
                   -> (option error * Wr) * gmap string (file A))
          (path : Wr -> string) (enc : X -> list A) (good : X -> Prop)
          (inv : Wr -> Prop).
Hypothesis write_good : forall w x W,
  inv w -> good x ->
  exists w', write w x W = ((None, w'), append_file (path w) (enc x) W)
             /\ path w' = path w /\ inv w'.

Lemma write_each_appends (xs : list X) :
  Forall good xs ->
  forall (w : Wr) (d : list A) (e : error) (W : gmap string (file A)),
  inv w ->
  exists w',
    write_each write xs w (<[path w := mkFile d e]> W)
    = ((None, w'),
       <[path w := mkFile (d ++ concat (map enc xs)) e]> W).
Proof.
  induction 1 as [|x xs Hx _ IH]; intros w d e W Hw;
    cbn [write_each map concat].
  - exists w. now rewrite app_nil_r.
  - destruct (write_good w x (<[path w := mkFile d e]> W) Hw Hx)
      as (w' & -> & Hp & Hw').
    rewrite append_file_insert, <- Hp.
    destruct (IH w' (d ++ enc x) e W Hw') as (w'' & ->).
    exists w''. now rewrite <- app_assoc.
Qed.
End WriteEach.

Lemma Read_object {T} `{Marshaler T} (object : T) (jsonBin rest : list byte)
    (fin : error) :
  nl ∉ jsonBin ->
  Unmarshal (jsonBin ++ [nl]) = Some object ->
  jsonFileReader_Read
    (mkJsonReader (mkStream ((jsonBin ++ [nl]) ++ rest) fin) None)
  = ((Some object, None), mkJsonReader (mkStream rest fin) None).
Proof.
  intros Hn Hu. unfold jsonFileReader_Read, ReadBytes.
  cbn [jr_lastErr jr_r avail final].
  rewrite <- app_assoc. cbn [app].
  rewrite span_delim_line by (rewrite <- list_elem_of_In; exact Hn).
  rewrite Hu. reflexivity.
Qed.

Lemma reads_objects {T} `{Marshaler T} (fin : error) :
  forall objects : list T,
    Forall lined objects ->
    reads jsonFileReader_Read (map Some objects) fin
      (mkJsonReader
         (mkStream (concat (map (fun o => default [] (Marshal o) ++ [nl])
                                objects)) fin) None).
Proof.
  induction objects as [|o objects IH]; intros Hall; cbn [map concat reads].
  - unfold jsonFileReader_Read, ReadBytes.
    cbn [jr_lastErr jr_r avail final span_delim length].
    rewrite andb_false_r. reflexivity.
  - inversion Hall as [|? ? (jsonBin & Hm & Hn & Hu) Hrest]; subst.
    rewrite Hm. cbn [default].
    rewrite (Read_object o jsonBin _ fin Hn Hu). cbn [fst snd].
    split; [reflexivity|]. apply IH. exact Hrest.
Qed.

(** X9.  Objects written with [Write] to a new file and read with [Read]
    from that file come back in the order they were written, and the
    next [Read] reports [io.EOF]; this holds for objects whose encoding
    has no line feed and decodes, with a trailing line feed, to the
    object. *)
Theorem Write_then_Read_objects {T} `{Marshaler T}
    (W : gmap string (file byte)) (filePath : string) (objects : list T) :
  Forall lined objects ->
  exists (w w' : jsonFileWriter) (W1 W2 : gmap string (file byte))
         (r : jsonFileReader),
    NewJsonFile no_faults filePath W = ((Some w, None), W1)
    /\ write_each (jsonFileWriter_Write no_faults) objects w W1
       = ((None, w'), W2)
    /\ OpenJsonFile W2 filePath = (Some r, None)
    /\ reads jsonFileReader_Read (map Some objects) io_EOF r.
Proof.
  intros Hall. unfold NewJsonFile, os_Create. cbn [create_err no_faults].
  destruct (write_each_appends (jsonFileWriter_Write no_faults) jw_path
              (fun o => default [] (Marshal o) ++ [nl]) lined
              (fun _ => True)) with
    (xs := objects)
    (w := mkJsonWriter filePath (fst (NewJsonFile_layers filePath)) 0)
    (d := @nil byte) (e := io_EOF) (W := W) as (w' & Hw).
  - intros w o W0 _ (jsonBin & Hm & _).
    unfold jsonFileWriter_Write, write_file.
    rewrite Hm. cbn [write_err no_faults default]. eexists.
    repeat split; reflexivity.
  - exact Hall.
  - exact I.
  - cbn [jw_path] in Hw. cbn [app] in Hw.
    do 5 eexists. split; [reflexivity|]. split; [exact Hw|].
    unfold OpenJsonFile. rewrite lookup_insert_eq. cbn [f_data f_final].
    split; [reflexivity|]. apply reads_objects. exact Hall.
Qed.

Lemma Write_then_Read_objects_witness :
  exists (w w' : jsonFileWriter) (W1 W2 : gmap string (file byte))
         (r : jsonFileReader),
    NewJsonFile no_faults "out.json" ∅ = ((Some w, None), W1)
    /\ write_each (jsonFileWriter_Write (H := line_Marshaler) no_faults)
         (map bytes_of ["a"; "b"]) w W1
       = ((None, w'), W2)
    /\ OpenJsonFile W2 "out.json" = (Some r, None)
    /\ reads (jsonFileReader_Read (H := line_Marshaler))
         (map Some (map bytes_of ["a"; "b"])) io_EOF r.
Proof.
  apply (Write_then_Read_objects (H := line_Marshaler) ∅ "out.json"
           (map bytes_of ["a"; "b"])).
  repeat constructor.
  - exists (bytes_of "a"). split; [reflexivity|]. split; [|reflexivity].
    intros Hin. apply elem_of_cons in Hin as [Hin|Hin];
      [discriminate | inversion Hin].
  - exists (bytes_of "b"). split; [reflexivity|]. split; [|reflexivity].
    intros Hin. apply elem_of_cons in Hin as [Hin|Hin];
      [discriminate | inversion Hin].
Defined.

Lemma reads_raw (fin : error) :
  forall messages : list (list byte),
    Forall (fun m => nl ∉ m) messages ->
    reads jsonFileReader_ReadRaw messages fin
      (mkJsonReader (mkStream (json_encode messages) fin) None).
Proof.
  induction messages as [|m messages IH]; intros Hall; cbn [reads].
  - reflexivity.
  - inversion Hall as [|? ? Hm Hrest]; subst.
    rewrite ReadRaw_record by (rewrite <- list_elem_of_In; exact Hm).
    cbn [fst snd]. split; [reflexivity|]. apply IH. exact Hrest.
Qed.

(** X10.  Raw messages without a line feed, written with [WriteRaw] to a
    new file and read with [ReadRaw] from that file, come back unchanged
    and in order, and the next [ReadRaw] reports [io.EOF]. *)
Theorem WriteRaw_then_ReadRaw (W : gmap string (file byte))
    (filePath : string) (messages : list (list byte)) :
  Forall (fun m => nl ∉ m) messages ->
  exists (w w' : jsonFileWriter) (W1 W2 : gmap string (file byte))
         (r : jsonFileReader),
    NewJsonFile no_faults filePath W = ((Some w, None), W1)
    /\ write_each (jsonFileWriter_WriteRaw no_faults) messages w W1
       = ((None, w'), W2)
    /\ OpenJsonFile W2 filePath = (Some r, None)
    /\ reads jsonFileReader_ReadRaw messages io_EOF r.
Proof.
  intros Hall. unfold NewJsonFile, os_Create. cbn [create_err no_faults].
  destruct (write_each_appends (jsonFileWriter_WriteRaw no_faults) jw_path
              (fun m => m ++ [nl]) (fun m => nl ∉ m)
              (fun _ => True)) with
    (xs := messages)
    (w := mkJsonWriter filePath (fst (NewJsonFile_layers filePath)) 0)
    (d := @nil byte) (e := io_EOF) (W := W) as (w' & Hw).
  - intros w m W0 _ _. unfold jsonFileWriter_WriteRaw, write_file.
    cbn [write_err no_faults]. eexists. repeat split; reflexivity.
  - exact Hall.
  - exact I.
  - cbn [jw_path] in Hw. cbn [app] in Hw.
    do 5 eexists. split; [reflexivity|]. split; [exact Hw|].
    unfold OpenJsonFile. rewrite lookup_insert_eq. cbn [f_data f_final].
    split; [reflexivity|]. apply reads_raw. exact Hall.
Qed.

Lemma WriteRaw_then_ReadRaw_witness :
  exists (w w' : jsonFileWriter) (W1 W2 : gmap string (file byte))
         (r : jsonFileReader),
    NewJsonFile no_faults "out.json.gz" ∅ = ((Some w, None), W1)
    /\ write_each (jsonFileWriter_WriteRaw no_faults)
         (map bytes_of ["a"; "b"]) w W1
       = ((None, w'), W2)
    /\ OpenJsonFile W2 "out.json.gz" = (Some r, None)
    /\ reads jsonFileReader_ReadRaw (map bytes_of ["a"; "b"]) io_EOF r.
Proof.
  apply (WriteRaw_then_ReadRaw ∅ "out.json.gz" (map bytes_of ["a"; "b"])).
  repeat constructor.
  - intros Hin. apply elem_of_cons in Hin as [Hin|Hin];
      [discriminate | inversion Hin].
  - intros Hin. apply elem_of_cons in Hin as [Hin|Hin];
      [discriminate | inversion Hin].
Defined.

Lemma reads_messages {T} `{Marshaler T} (fin : error) :
  forall (ms : list T) (holder : T),
    Forall framed ms ->
    reads protoFileReader_ReadTo_next ms fin
      (mkProtoReader (mkStream (message_encode ms) fin), holder).
Proof.
  induction ms as [|m ms IH]; intros holder' Hall; cbn [reads].
  - unfold protoFileReader_ReadTo_next, protoFileReader_ReadTo, io_ReadFull.
    cbn [fst snd pr_r avail final message_encode map concat length Nat.leb].
    reflexivity.
  - inversion Hall as [|? ? Hm Hrest]; subst.
    unfold protoFileReader_ReadTo_next. cbn [fst snd].
    rewrite ReadTo_record by exact Hm.
    cbn [fst snd]. split; [reflexivity|]. apply IH. exact Hrest.
Qed.

(** X11.  Messages written with [Write] to a new message file and read
    with [ReadTo] from that file come back in order, and the next
    [ReadTo] reports [io.EOF]; this holds for messages that marshal to a
    blob shorter than 2^32 bytes which unmarshals to the message. *)
Theorem Write_then_ReadTo {T} `{Marshaler T}
    (W : gmap string (file byte)) (filePath : string) (ms : list T)
    (holder : T) :
  Forall framed ms ->
  exists (w w' : protoFileWriter) (W1 W2 : gmap string (file byte))
         (r : protoFileReader),
    NewProtoFile no_faults filePath W = ((Some w, None), W1)
    /\ write_each (protoFileWriter_Write_err no_faults) ms w W1
       = ((None, w'), W2)
    /\ OpenProtoFile W2 filePath = (Some r, None)
    /\ reads protoFileReader_ReadTo_next ms io_EOF (r, holder).
Proof.
  intros Hall. unfold NewProtoFile, os_Create. cbn [create_err no_faults].
  destruct (write_each_appends (protoFileWriter_Write_err no_faults) pw_path
              (fun m => proto_frame (blob_of m)) framed
              (fun _ => True)) with
    (xs := ms)
    (w := mkProtoWriter filePath (fst (NewProtoFile_layers filePath)) 0)
    (d := @nil byte) (e := io_EOF) (W := W) as (w' & Hw).
  - intros w m W0 _ Hm. unfold protoFileWriter_Write_err.
    rewrite protoFileWriter_Write_framed by exact Hm.
    eexists. repeat split; reflexivity.
  - exact Hall.
  - exact I.
  - cbn [pw_path] in Hw. cbn [app] in Hw.
    do 5 eexists. split; [reflexivity|]. split; [exact Hw|].
    unfold OpenProtoFile. rewrite lookup_insert_eq. cbn [f_data f_final].
    split; [reflexivity|]. apply (reads_messages io_EOF). exact Hall.
Qed.

Lemma Write_then_ReadTo_witness :
  exists (w w' : protoFileWriter) (W1 W2 : gmap string (file byte))
         (r : protoFileReader),
    NewProtoFile no_faults "out.pb" ∅ = ((Some w, None), W1)
    /\ write_each (protoFileWriter_Write_err (H := raw_Marshaler) no_faults)
         (map bytes_of ["a"; "b"]) w W1
       = ((None, w'), W2)
    /\ OpenProtoFile W2 "out.pb" = (Some r, None)
    /\ reads (protoFileReader_ReadTo_next (H := raw_Marshaler))
         (map bytes_of ["a"; "b"]) io_EOF (r, []).
Proof.
  apply (Write_then_ReadTo (H := raw_Marshaler) ∅ "out.pb"
           (map bytes_of ["a"; "b"]) []).
  repeat constructor.
Defined.

Lemma concat_map_singleton {X Y} (f : X -> Y) (l : list X) :
  concat (map (fun x => [f x]) l) = map f l.
Proof. induction l as [|x l IH]; cbn; [|rewrite IH]; reflexivity. Qed.

Lemma reads_rows (ps : list CsvValueProcessor) (n : nat) (fin : error) :
  forall rs : list (list string),
    Forall (fun r => length r = n) rs ->
    forall k : nat, k = 0%nat \/ k = n ->
    reads csvFileReader_Read (map (zipValues ps) rs) fin
      (mkCsvFileReader (mkCsvReader (mkRows rs fin) k) ps).
Proof.
  induction rs as [|r rs IH]; intros Hall k Hk; cbn [map reads].
  - reflexivity.
  - inversion Hall as [|? ? Hr Hrest]; subst.
    rewrite csvFileReader_Read_processed by (destruct Hk; auto).
    cbn [fst snd]. split; [reflexivity|]. apply IH; auto.
Qed.

(** X12.  Rows written with [Write] to a new row file through the value
    processors [wp] and read with [Read] through the value processors
    [rp] come back in order as the rows after [wp] and then [rp], and the
    next [Read] reports [io.EOF]; this holds for rows of one length that,
    after [wp], are read back from their line as they were written. *)
Theorem Write_then_Read_rows (W : gmap string (file (list string)))
    (filePath : string) (wp rp : list CsvValueProcessor)
    (rs : list (list string)) (n : nat) :
  Forall (fun r => csv_stable (zipValues wp r) /\ length r = n) rs ->
  exists (w w' : csvFileWriter) (W1 W2 : gmap string (file (list string)))
         (r : csvFileReader),
    NewCsvFile no_faults filePath wp W = ((Some w, None), W1)
    /\ write_each (csvFileWriter_Write no_faults) rs w W1 = ((None, w'), W2)
    /\ OpenCsvFile W2 filePath rp = (Some r, None)
    /\ reads csvFileReader_Read
         (map (zipValues rp) (map (zipValues wp) rs)) io_EOF r.
Proof.
  intros Hall. unfold NewCsvFile, os_Create. cbn [create_err no_faults].
  destruct (write_each_appends (csvFileWriter_Write no_faults) cw_path
              (fun r => [zipValues wp r])
              (fun r => csv_stable (zipValues wp r) /\ length r = n)
              (fun w => cw_valueProcessors w = wp)) with
    (xs := rs)
    (w := mkCsvWriter filePath (fst (NewCsvFile_layers filePath)) 0 wp)
    (d := @nil (list string)) (e := io_EOF) (W := W) as (w' & Hw).
  - intros w r W0 Hwp [Hs _]. unfold csvFileWriter_Write, write_file.
    cbn [write_err no_faults]. rewrite Hwp.
    replace (match wp with
             | [] => r
             | _ :: _ => zipValues wp r
             end) with (zipValues wp r)
      by (destruct wp; [apply zipValues_nil | reflexivity]).
    rewrite Hs. eexists. repeat split; reflexivity.
  - exact Hall.
  - reflexivity.
  - cbn [cw_path] in Hw. cbn [app] in Hw.
    do 5 eexists. split; [reflexivity|]. split; [exact Hw|].
    unfold OpenCsvFile. rewrite lookup_insert_eq. cbn [f_data f_final].
    split; [reflexivity|].
    rewrite concat_map_singleton.
    apply reads_rows with (n := n); [|now left].
    apply Forall_map. eapply Forall_impl; [exact Hall|].
    intros r [_ Hr]. cbn beta. unfold zipValues. now rewrite length_map.
Qed.

Lemma Write_then_Read_rows_witness :
  exists (w w' : csvFileWriter) (W1 W2 : gmap string (file (list string)))
         (r : csvFileReader),
    NewCsvFile no_faults "out.csv" [strings_TrimSpace; PandasFriendly] ∅
      = ((Some w, None), W1)
    /\ write_each (csvFileWriter_Write no_faults)
         [["id"; "a"; "b"; "c"; "d"]; scenario_row] w W1 = ((None, w'), W2)
    /\ OpenCsvFile W2 "out.csv" [strings_TrimSpace; RemoveHash]
       = (Some r, None)
    /\ reads csvFileReader_Read
         (map (zipValues [strings_TrimSpace; RemoveHash])
            (map (zipValues [strings_TrimSpace; PandasFriendly])
               [["id"; "a"; "b"; "c"; "d"]; scenario_row])) io_EOF r.
Proof.
  apply (Write_then_Read_rows ∅ "out.csv"
           [strings_TrimSpace; PandasFriendly]
           [strings_TrimSpace; RemoveHash]
           [["id"; "a"; "b"; "c"; "d"]; scenario_row] 5).
  repeat constructor.
Defined.

(** * Split and Join of object files on any input *)

Lemma reads_raw_bound (stop : error) :
  forall (S : list (list byte)) (r : jsonFileReader),
    reads jsonFileReader_ReadRaw S stop r -> (length S <= json_left r)%nat.
Proof.
  induction S as [|x S IH]; intros r Hr; cbn [length]; [lia|].
  destruct Hr as [Hx Hrest]. apply IH in Hrest.
  pose proof (ReadRaw_progress r) as Hp. rewrite Hx in Hp.
  specialize (Hp eq_refl). lia.
Qed.

Section SplitJsonAny.
Variables (limit : Z) (partFn : Z -> string).

Lemma SplitJsonFile_body_read raw r r' W err parts writer partNum cnt :
  jsonFileReader_ReadRaw r = ((raw, None), r') ->
  (cnt <> limit -> writer <> None) ->
  exists w,
    SplitJsonFile_body no_faults limit partFn
      (mkSplit W r err parts writer partNum cnt)
    = (Next,
       if cnt =? limit then
         mkSplit (append_file (partFn partNum) (raw ++ [nl])
                    (<[partFn partNum := mkFile [] io_EOF]> W))
                 r' err (parts ++ [partFn partNum])
                 (Some w) (partNum + 1) 0
       else
         mkSplit (append_file (default EmptyString
                                       (option_map jw_path writer))
                              (raw ++ [nl]) W)
                 r' err parts (Some w) partNum cnt) /\
    jw_path w = (if cnt =? limit then partFn partNum
                 else default EmptyString (option_map jw_path writer)).
Proof.
  intros Hr Hw. unfold SplitJsonFile_body.
  cbn [sv_reader sv_world sv_err sv_parts sv_writer sv_partNum sv_cnt].
  rewrite Hr.
  destruct (cnt =? limit) eqn:E.
  - eexists. split; reflexivity.
  - apply Z.eqb_neq in E. destruct writer as [w|]; [|now destruct Hw].
    eexists. split; reflexivity.
Qed.

Lemma SplitJsonFile_loop_reads (stop : error) (S : list (list byte)) :
  forall fuel W r parts writer partNum cnt,
  reads jsonFileReader_ReadRaw S stop r ->
  (length S < fuel)%nat ->
  (cnt <> limit -> writer <> None) ->
  exists s',
    for_loop fuel sv_cond (SplitJsonFile_body no_faults limit partFn)
             sv_incr (mkSplit W r None parts writer partNum cnt)
    = Some s' /\
    sv_err s' = None /\
    (sv_world s', sv_parts s')
    = split_run partFn limit [] (fun r => r ++ [nl]) S W parts
                (option_map jw_path writer) partNum cnt.
Proof.
  induction S as [|x S IH];
    intros fuel W r parts writer partNum cnt HS Hfuel Hw;
    (destruct fuel as [|fuel]; [simpl in Hfuel; lia|]).
  - cbn [reads] in HS. cbn [for_loop sv_cond sv_err notNil negb].
    unfold SplitJsonFile_body.
    cbn [sv_reader sv_world sv_err sv_parts sv_writer sv_partNum sv_cnt].
    destruct (jsonFileReader_ReadRaw r) as [[raw err] r'].
    cbn [fst snd] in HS. subst err.
    eexists. split; [reflexivity|]. split; reflexivity.
  - destruct HS as [Hx HS]. simpl in Hfuel.
    destruct (jsonFileReader_ReadRaw r) as [[raw err] r'] eqn:Hread.
    cbn [fst snd] in Hx, HS. injection Hx as -> ->.
    cbn [for_loop sv_cond sv_err notNil negb].
    destruct (SplitJsonFile_body_read x r r' W None parts writer partNum
                cnt Hread Hw) as (w & -> & Hp).
    cbn [split_run].
    destruct (cnt =? limit) eqn:E.
    + destruct (IH fuel
                  (append_file (partFn partNum) (x ++ [nl])
                     (<[partFn partNum := mkFile [] io_EOF]> W))
                  r' (parts ++ [partFn partNum]) (Some w) (partNum + 1)
                  (0 + 1) HS ltac:(lia) ltac:(discriminate))
        as (s' & E1 & E2 & E3).
      exists s'. split; [exact E1|]. split; [exact E2|].
      rewrite E3. cbn [option_map]. rewrite Hp. reflexivity.
    + apply Z.eqb_neq in E. destruct writer as [w0|]; [|now destruct Hw].
      cbn [option_map default] in *.
      destruct (IH fuel (append_file (jw_path w0) (x ++ [nl]) W) r' parts
                  (Some w) partNum (cnt + 1) HS ltac:(lia)
                  ltac:(discriminate))
        as (s' & E1 & E2 & E3).
      exists s'. split; [exact E1|]. split; [exact E2|].
      rewrite E3. cbn [option_map]. rewrite Hp. reflexivity.
Qed.

Lemma SplitJsonFile_reads (stop : error) (S : list (list byte))
    (W : gmap string (file byte)) (inputFilePath : string) (f : file byte) :
  W !! inputFilePath = Some f ->
  reads jsonFileReader_ReadRaw S stop
    (mkJsonReader (mkStream (f_data f) (f_final f)) None) ->
  SplitJsonFile no_faults W inputFilePath limit partFn
  = Some ((map partFn (Zseq 1 (length (chunks limit S))), None),
          write_parts partFn [] (fun r => r ++ [nl]) 1 (chunks limit S) W).
Proof.
  intros Hin HS. unfold SplitJsonFile, OpenJsonFile. rewrite Hin.
  cbn [jr_r avail].
  destruct (SplitJsonFile_loop_reads stop S (2 + length (f_data f)) W
              (mkJsonReader (mkStream (f_data f) (f_final f)) None)
              [] None 1 limit HS) as (s' & -> & E2 & E3).
  - apply reads_raw_bound in HS. unfold json_left in HS.
    cbn [jr_r jr_lastErr avail] in HS. lia.
  - congruence.
  - cbn [option_map]. unfold Split_epilogue. rewrite E2. cbn [isEOF].
    rewrite split_run_chunks in E3. injection E3 as -> ->. reflexivity.
Qed.
End SplitJsonAny.

Section JoinJsonAny.
Variable outputFilePath : string.

Lemma JoinJsonFiles_loop_reads (stop : error) (S : list (list byte)) :
  forall fuel W r writer err,
  reads jsonFileReader_ReadRaw S stop r ->
  (length S < fuel)%nat ->
  exists s',
    for_loop fuel (fun _ => true)
             (JoinJsonFiles_body no_faults outputFilePath) (fun s => s)
             (mkJoin W r writer err None)
    = Some s' /\
    jv_world s' = append_file (jw_path writer) (json_encode S) W /\
    jv_return s' = None /\ jv_err s' = err /\
    jw_path (jv_writer s') = jw_path writer.
Proof.
  induction S as [|x S IH]; intros fuel W r writer err HS Hfuel;
    (destruct fuel as [|fuel]; [simpl in Hfuel; lia|]).
  - cbn [reads] in HS. cbn [for_loop]. unfold JoinJsonFiles_body.
    cbn [jv_reader jv_world jv_writer jv_err jv_return].
    destruct (jsonFileReader_ReadRaw r) as [[raw e] r'].
    cbn [fst snd] in HS. subst e.
    eexists. split; [reflexivity|]. cbn [jv_world jv_return jv_err jv_writer].
    change (json_encode []) with (@nil byte).
    rewrite append_file_nil. auto.
  - destruct HS as [Hx HS]. simpl in Hfuel.
    cbn [for_loop]. unfold JoinJsonFiles_body at 1.
    cbn [jv_reader jv_world jv_writer jv_err jv_return].
    destruct (jsonFileReader_ReadRaw r) as [[raw e] r'].
    cbn [fst snd] in Hx, HS. injection Hx as -> ->.
    unfold jsonFileWriter_WriteRaw, write_file. cbn [write_err no_faults].
    destruct (IH fuel (append_file (jw_path writer) (x ++ [nl]) W) r'
                (mkJsonWriter (jw_path writer) (jw_layers writer)
                              (Datatypes.S (jw_n writer)))
                err HS ltac:(lia)) as (s' & E1 & E2 & E3 & E4 & E5).
    exists s'. split; [exact E1|]. cbn [jw_path] in *.
    rewrite E2, append_file_append. auto.
Qed.

Lemma json_part_frame (W : gmap string (file byte)) (out : string)
    (x : file byte) (parts : list string) (cs : list (list (list byte))) :
  Forall2 (json_part W) parts cs ->
  out ∉ parts ->
  Forall2 (json_part (<[out := x]> W)) parts cs.
Proof.
  induction 1 as [|p c parts cs Hp _ IH]; intros Hout; constructor.
  - apply not_elem_of_cons in Hout as [Hne _].
    destruct Hp as (r & stop & Ho & Hr). exists r, stop.
    split; [|exact Hr]. unfold OpenJsonFile in *.
    rewrite lookup_insert_ne by congruence. exact Ho.
  - apply IH. apply not_elem_of_cons in Hout as [_ Hout]. exact Hout.
Qed.

Lemma JoinJsonFiles_range_reads parts cs : forall W writer d,
  Forall2 (json_part W) parts cs ->
  jw_path writer ∉ parts ->
  W !! jw_path writer = Some (mkFile d io_EOF) ->
  JoinJsonFiles_range no_faults outputFilePath parts writer W
  = Some (None,
          <[jw_path writer := mkFile (d ++ json_encode (concat cs)) io_EOF]>
            W).
Proof.
  revert cs.
  induction parts as [|p parts IH]; intros cs W writer d H Hout Hw;
    inversion H as [|? c ? cs' Hp Hrest]; subst.
  - cbn [JoinJsonFiles_range concat]. unfold json_encode. simpl.
    rewrite app_nil_r. f_equal. f_equal. symmetry. now apply insert_id.
  - apply not_elem_of_cons in Hout as [Hne Hout].
    destruct Hp as (r & stop & Ho & Hr).
    cbn [JoinJsonFiles_range]. rewrite Ho.
    destruct (JoinJsonFiles_loop_reads stop c
                (2 + length (avail (jr_r r))) W r writer
                None Hr) as (s' & -> & E2 & E3 & E4 & E5).
    { apply reads_raw_bound in Hr. unfold json_left in Hr.
      destruct (jr_lastErr r); lia. }
    rewrite E3, E4. cbn [isEOF]. rewrite E2.
    rewrite (append_file_lookup _ _ _ _ _ Hw).
    rewrite (IH cs' _ (jv_writer s') (d ++ json_encode c)).
    + rewrite E5, insert_insert_eq. cbn [concat].
      now rewrite json_encode_app, app_assoc.
    + apply json_part_frame; assumption.
    + now rewrite E5.
    + rewrite E5. apply lookup_insert_eq.
Qed.

Lemma JoinJsonFiles_reads parts cs W :
  Forall2 (json_part W) parts cs ->
  outputFilePath ∉ parts ->
  JoinJsonFiles no_faults W outputFilePath parts
  = Some (None,
          <[outputFilePath := mkFile (json_encode (concat cs)) io_EOF]> W).
Proof.
  intros H Hout. unfold JoinJsonFiles, NewJsonFile, os_Create.
  cbn [create_err no_faults].
  erewrite JoinJsonFiles_range_reads with (d := []) (cs := cs).
  - cbn [jw_path app]. now rewrite insert_insert_eq.
  - cbn [jw_path]. apply json_part_frame; assumption.
  - exact Hout.
  - apply lookup_insert_eq.
Qed.
End JoinJsonAny.

Lemma reads_raw_unterminated (S : list (list byte)) (tail : list byte) :
  Forall (fun m => nl ∉ m) S ->
  tail <> [] -> nl ∉ tail ->
  reads jsonFileReader_ReadRaw (S ++ [tail]) io_EOF
    (mkJsonReader (mkStream (json_encode S ++ tail) io_EOF) None).
Proof.
  intros HS Ht Hn. induction HS as [|m S Hm _ IH]; cbn [app reads].
  - change (json_encode [] ++ tail) with tail.
    unfold jsonFileReader_ReadRaw, ReadBytes.
    cbn [jr_lastErr jr_r avail final].
    rewrite span_delim_None by (rewrite <- list_elem_of_In; exact Hn).
    destruct tail as [|b tail]; [congruence|]. cbn [isEOF fst snd].
    split; reflexivity.
  - unfold jsonFileReader_ReadRaw, ReadBytes, json_encode.
    cbn [jr_lastErr jr_r avail final map concat].
    rewrite <- !app_assoc. cbn [app].
    rewrite span_delim_line by (rewrite <- list_elem_of_In; exact Hm).
    destruct (m ++ [nl]) as [|b l] eqn:E; [destruct m; discriminate|].
    rewrite <- E, removelast_snoc. cbn [fst snd].
    split; [reflexivity|]. exact IH.
Qed.

Lemma json_part_encoded (W : gmap string (file byte)) (p : string)
    (c : list (list byte)) (fin : error) :
  W !! p = Some (mkFile (json_encode c) fin) ->
  Forall (fun m => nl ∉ m) c ->
  json_part W p c.
Proof.
  intros Hp Hc. unfold json_part, OpenJsonFile. rewrite Hp.
  do 2 eexists. split; [reflexivity|]. cbn [f_data f_final].
  apply reads_raw. exact Hc.
Qed.

(** X13.  [SplitJsonFile] does not report an error of reading: when the
    input opens and its reader delivers the records [S] and then fails,
    with whatever error, the function returns a nil error and the parts
    that partition [S], as if the input had ended there. *)
Theorem SplitJsonFile_hides_read_error (limit : Z) (partFn : Z -> string)
    (inputFilePath : string) (W : gmap string (file byte))
    (r : jsonFileReader) (S : list (list byte)) (stop : error) :
  OpenJsonFile W inputFilePath = (Some r, None) ->
  reads jsonFileReader_ReadRaw S stop r ->
  NoDup (map partFn (Zseq 1 (length (chunks limit S)))) ->
  split_partitions partFn limit json_encode S W
    (SplitJsonFile no_faults W inputFilePath limit partFn).
Proof.
  intros Ho Hr Hnd. unfold OpenJsonFile in Ho.
  destruct (W !! inputFilePath) as [f|] eqn:Hin; [|discriminate].
  injection Ho as <-.
  apply split_partitions_intro with (hdr := []) (enc := fun r => r ++ [nl]);
    [reflexivity | exact Hnd |].
  exact (SplitJsonFile_reads limit partFn stop S W inputFilePath f Hin Hr).
Qed.

Lemma SplitJsonFile_hides_read_error_witness :
  split_partitions (part_name ".json") 10 json_encode [bytes_of "a"]
    cut_object_part
    (SplitJsonFile no_faults cut_object_part "p1.json.gz" 10
       (part_name ".json")).
Proof.
  apply (SplitJsonFile_hides_read_error 10 (part_name ".json") "p1.json.gz"
           cut_object_part
           (mkJsonReader
              (mkStream (json_encode [bytes_of "a"]) io_ErrUnexpectedEOF)
              None)
           [bytes_of "a"] io_ErrUnexpectedEOF).
  - reflexivity.
  - cbn [reads]. split; reflexivity.
  - apply (bool_decide_unpack _). vm_compute. exact I.
Defined.

(** X14.  [JoinJsonFiles] on parts that all open returns a nil error and
    leaves in the output file, in the order of the parts, every record
    the readers of the parts deliver, each followed by a line feed; the
    error a part's reading ends with, end of file or not, does not show. *)
Theorem JoinJsonFiles_concatenates (outputFilePath : string)
    (parts : list string) (cs : list (list (list byte)))
    (W : gmap string (file byte)) :
  Forall2 (json_part W) parts cs ->
  outputFilePath ∉ parts ->
  JoinJsonFiles no_faults W outputFilePath parts
  = Some (None,
          <[outputFilePath := mkFile (json_encode (concat cs)) io_EOF]> W).
Proof. apply JoinJsonFiles_reads. Qed.

Lemma JoinJsonFiles_concatenates_witness :
  JoinJsonFiles no_faults cut_object_part "out.json"
    ["p2.json"; "p1.json.gz"; "p2.json"]
  = Some (None,
          <["out.json"
            := mkFile (json_encode
                         (concat [[bytes_of "c"]; [bytes_of "a"];
                                  [bytes_of "c"]])) io_EOF]>
            cut_object_part).
Proof.
  apply (JoinJsonFiles_concatenates "out.json"
           ["p2.json"; "p1.json.gz"; "p2.json"]
           [[bytes_of "c"]; [bytes_of "a"]; [bytes_of "c"]]
           cut_object_part).
  - repeat constructor.
    + exists (mkJsonReader (mkStream (json_encode [bytes_of "c"]) io_EOF)
                           None), io_EOF.
      split; [reflexivity|]. cbn [reads]. split; reflexivity.
    + exists (mkJsonReader
                (mkStream (json_encode [bytes_of "a"]) io_ErrUnexpectedEOF)
                None), io_ErrUnexpectedEOF.
      split; [reflexivity|]. cbn [reads]. split; reflexivity.
    + exists (mkJsonReader (mkStream (json_encode [bytes_of "c"]) io_EOF)
                           None), io_EOF.
      split; [reflexivity|]. cbn [reads]. split; reflexivity.
  - apply (bool_decide_unpack _). vm_compute. exact I.
Defined.

(** X15.  For an object file whose last line has no line feed after it,
    the Join of the parts a Split returned writes the bytes of the input
    and one line feed more: the last line is a record like the others,
    and every record is written with a line feed. *)
Theorem Join_of_Split_ends_last_line (limit : Z) (partFn : Z -> string)
    (inputFilePath outputFilePath : string) (S : list (list byte))
    (tail : list byte) (W : gmap string (file byte)) :
  Forall (fun m => nl ∉ m) S ->
  tail <> [] -> nl ∉ tail ->
  W !! inputFilePath = Some (mkFile (json_encode S ++ tail) io_EOF) ->
  NoDup (map partFn (Zseq 1 (length (chunks limit (S ++ [tail]))))) ->
  outputFilePath ∉ map partFn (Zseq 1 (length (chunks limit (S ++ [tail]))))
  ->
  rejoins (SplitJsonFile no_faults W inputFilePath limit partFn)
          (fun W1 parts => JoinJsonFiles no_faults W1 outputFilePath parts)
          outputFilePath (json_encode S ++ tail ++ [nl]).
Proof.
  intros HS Ht Hn Hin Hnd Hout. unfold rejoins.
  assert (Hall : Forall (fun m => nl ∉ m) (S ++ [tail])).
  { apply Forall_app. split; [exact HS|]. repeat constructor. exact Hn. }
  rewrite (SplitJsonFile_reads limit partFn io_EOF (S ++ [tail]) W
             inputFilePath _ Hin
             (reads_raw_unterminated S tail HS Ht Hn)).
  do 3 eexists. split; [reflexivity|]. split.
  - apply JoinJsonFiles_reads with (cs := chunks limit (S ++ [tail]));
      [|exact Hout].
    pose proof (write_parts_Forall2 partFn [] (fun r => r ++ [nl]) _ 1 W Hnd)
      as Hparts.
    pose proof (Forall_chunks (fun m => nl ∉ m) limit _ Hall) as Hcs.
    revert Hparts Hcs.
    generalize (write_parts partFn [] (fun r : list byte => r ++ [nl]) 1
                  (chunks limit (S ++ [tail])) W).
    generalize (map partFn (Zseq 1 (length (chunks limit (S ++ [tail]))))).
    generalize (chunks limit (S ++ [tail])).
    intros cs ps W1 Hparts. induction Hparts as [|p c ps cs Hp _ IH];
      intros Hcs; constructor.
    + apply Forall_cons in Hcs as [Hc _].
      exact (json_part_encoded W1 p c io_EOF Hp Hc).
    + apply IH. apply Forall_cons in Hcs as [_ Hcs]. exact Hcs.
  - rewrite lookup_insert_eq, concat_chunks, json_encode_app.
    unfold json_encode at 2. cbn [map concat]. rewrite app_nil_r.
    reflexivity.
Qed.

Lemma Join_of_Split_ends_last_line_witness :
  rejoins (SplitJsonFile no_faults unterminated_objects "in.json" 2
             (part_name ".json"))
          (fun W1 parts => JoinJsonFiles no_faults W1 "out.json" parts)
          "out.json"
          (json_encode (map bytes_of ["a"; "b"]) ++ bytes_of "c" ++ [nl]).
Proof.
  apply (Join_of_Split_ends_last_line 2 (part_name ".json") "in.json"
           "out.json" (map bytes_of ["a"; "b"]) (bytes_of "c")
           unterminated_objects).
  - repeat constructor; intros Hin;
      apply elem_of_cons in Hin as [Hin|Hin];
      try discriminate; inversion Hin.
  - discriminate.
  - intros Hin. apply elem_of_cons in Hin as [Hin|Hin];
      [discriminate | inversion Hin].
  - reflexivity.
  - apply (bool_decide_unpack _). vm_compute. exact I.
  - apply (bool_decide_unpack _). vm_compute. exact I.
Defined.

(** * Split and Join of row files on any input *)

Lemma reads_rows_bound (stop : error) :
  forall (rs : list (list string)) (r : csvFileReader),
    reads csvFileReader_Read rs stop r -> (length rs <= csv_left r)%nat.
Proof.
  induction rs as [|x rs IH]; intros r Hr; cbn [length]; [lia|].
  destruct Hr as [Hx Hrest]. apply IH in Hrest.
  pose proof (csv_Read_progress r) as Hp. rewrite Hx in Hp.
  specialize (Hp eq_refl). lia.
Qed.

Lemma csvFileWriter_Write_written w values W :
  cw_valueProcessors w = [] ->
  csvFileWriter_Write no_faults w values W
  = ((None, mkCsvWriter (cw_path w) (cw_layers w) (Datatypes.S (cw_n w)) []),
     append_file (cw_path w) (csv_written values) W).
Proof.
  intros E. unfold csvFileWriter_Write, write_file. rewrite E. reflexivity.
Qed.

Section SplitCsvAny.
Variables (limit : Z) (partFn : Z -> string) (header : list string).

Lemma SplitCsvFile_body_read row r r' W err parts writer partNum cnt :
  csvFileReader_Read r = ((row, None), r') ->
  split_writer_ok limit cnt writer ->
  exists w,
    SplitCsvFile_body no_faults limit partFn header
      (mkSplit W r err parts writer partNum cnt)
    = (Next,
       if cnt =? limit then
         mkSplit (append_file (partFn partNum)
                    (csv_written header ++ csv_written row)
                    (<[partFn partNum := mkFile [] io_EOF]> W))
                 r' err (parts ++ [partFn partNum]) (Some w)
                 (partNum + 1) 0
       else
         mkSplit (append_file (default EmptyString
                                       (option_map cw_path writer))
                              (csv_written row) W)
                 r' err parts (Some w) partNum cnt) /\
    cw_path w = (if cnt =? limit then partFn partNum
                 else default EmptyString (option_map cw_path writer)) /\
    cw_valueProcessors w = [].
Proof.
  intros Hr Hw. unfold SplitCsvFile_body.
  cbn [sv_reader sv_world sv_err sv_parts sv_writer sv_partNum sv_cnt].
  rewrite Hr.
  cbn [sv_reader sv_world sv_err sv_parts sv_writer sv_partNum sv_cnt].
  destruct (cnt =? limit) eqn:E.
  - unfold NewCsvFile, os_Create. cbn [create_err no_faults].
    rewrite csvFileWriter_Write_written by reflexivity.
    cbn [sv_reader sv_world sv_err sv_parts sv_writer sv_partNum sv_cnt
         cw_path cw_layers cw_n cw_valueProcessors].
    rewrite csvFileWriter_Write_written by reflexivity.
    cbn [cw_path cw_layers cw_n cw_valueProcessors].
    rewrite append_file_append.
    eexists. repeat split.
  - apply Z.eqb_neq in E. destruct writer as [w|]; [|now destruct E].
    cbn [sv_reader sv_world sv_err sv_parts sv_writer sv_partNum sv_cnt].
    simpl in Hw.
    rewrite csvFileWriter_Write_written by assumption.
    eexists. repeat split.
Qed.

Lemma SplitCsvFile_loop_reads (stop : error) (rs : list (list string)) :
  forall fuel W r parts writer partNum cnt,
  reads csvFileReader_Read rs stop r ->
  (length rs < fuel)%nat ->
  split_writer_ok limit cnt writer ->
  exists s',
    for_loop fuel sv_cond (SplitCsvFile_body no_faults limit partFn header)
             sv_incr (mkSplit W r None parts writer partNum cnt)
    = Some s' /\
    sv_err s' = None /\
    (sv_world s', sv_parts s')
    = split_run partFn limit (csv_written header) csv_written rs W parts
                (option_map cw_path writer) partNum cnt.
Proof.
  induction rs as [|row rs IH];
    intros fuel W r parts writer partNum cnt HS Hfuel Hw;
    (destruct fuel as [|fuel]; [simpl in Hfuel; lia|]).
  - cbn [reads] in HS. cbn [for_loop sv_cond sv_err notNil negb].
    unfold SplitCsvFile_body.
    cbn [sv_reader sv_world sv_err sv_parts sv_writer sv_partNum sv_cnt].
    destruct (csvFileReader_Read r) as [[row e] r'].
    cbn [fst snd] in HS. subst e.
    eexists. split; [reflexivity|]. split; reflexivity.
  - destruct HS as [Hx HS]. simpl in Hfuel.
    destruct (csvFileReader_Read r) as [[row' e] r'] eqn:Hread.
    cbn [fst snd] in Hx, HS. injection Hx as -> ->.
    cbn [for_loop sv_cond sv_err notNil negb].
    destruct (SplitCsvFile_body_read row r r' W None parts writer partNum
                cnt Hread Hw) as (w & -> & Hp & Hv).
    cbn [split_run].
    destruct (cnt =? limit) eqn:E.
    + destruct (IH fuel
                  (append_file (partFn partNum)
                     (csv_written header ++ csv_written row)
                     (<[partFn partNum := mkFile [] io_EOF]> W))
                  r' (parts ++ [partFn partNum]) (Some w) (partNum + 1)
                  (0 + 1) HS ltac:(lia) Hv)
        as (s' & E1 & E2 & E3).
      exists s'. split; [exact E1|]. split; [exact E2|].
      rewrite E3. cbn [option_map]. rewrite Hp. reflexivity.
    + apply Z.eqb_neq in E. destruct writer as [w0|]; [|now destruct E].
      cbn [option_map default] in *.
      destruct (IH fuel (append_file (cw_path w0) (csv_written row) W) r'
                  parts (Some w) partNum (cnt + 1) HS ltac:(lia) Hv)
        as (s' & E1 & E2 & E3).
      exists s'. split; [exact E1|]. split; [exact E2|].
      rewrite E3. cbn [option_map]. rewrite Hp. reflexivity.
Qed.
End SplitCsvAny.

Lemma SplitCsvFile_reads (limit : Z) (partFn : Z -> string)
    (W : gmap string (file (list string))) (inputFilePath : string)
    (hc : list string * list (list string)) :
  csv_part W inputFilePath hc ->
  SplitCsvFile no_faults W inputFilePath limit partFn
  = Some ((map partFn (Zseq 1 (length (chunks limit (snd hc)))), None),
          write_parts partFn (csv_written (fst hc)) csv_written 1
                      (chunks limit (snd hc)) W).
Proof.
  intros (r & r' & stop & Ho & Hh & Hr). unfold SplitCsvFile.
  rewrite Ho, Hh.
  destruct (SplitCsvFile_loop_reads limit partFn (fst hc) stop (snd hc)
              (2 + length (r_avail (cr_src (cfr_csvr r')))) W r' [] None
              1 limit Hr) as (s' & -> & E2 & E3).
  - apply reads_rows_bound in Hr. unfold csv_left in Hr. lia.
  - reflexivity.
  - cbn [option_map]. unfold Split_epilogue. rewrite E2. cbn [isEOF].
    rewrite split_run_chunks in E3. injection E3 as -> ->. reflexivity.
Qed.

Lemma csv_rows_written_app (rs1 rs2 : list (list string)) :
  csv_rows_written (rs1 ++ rs2)
  = csv_rows_written rs1 ++ csv_rows_written rs2.
Proof. unfold csv_rows_written. now rewrite map_app, concat_app. Qed.

Section JoinCsvAny.
Variable outputFilePath : string.

Lemma JoinCsvFiles_loop_reads (stop : error) (rs : list (list string)) :
  forall fuel W r writer err,
  reads csvFileReader_Read rs stop r ->
  cw_valueProcessors writer = [] ->
  (length rs < fuel)%nat ->
  exists s',
    for_loop fuel (fun _ => true)
             (JoinCsvFiles_body no_faults outputFilePath) (fun s => s)
             (mkJoin W r writer err None)
    = Some s' /\
    jv_world s' = append_file (cw_path writer) (csv_rows_written rs) W /\
    jv_return s' = None /\ jv_err s' = err /\
    cw_path (jv_writer s') = cw_path writer /\
    cw_valueProcessors (jv_writer s') = [].
Proof.
  induction rs as [|row rs IH]; intros fuel W r writer err HS Hv Hfuel;
    (destruct fuel as [|fuel]; [simpl in Hfuel; lia|]).
  - cbn [reads] in HS. cbn [for_loop]. unfold JoinCsvFiles_body.
    cbn [jv_reader jv_world jv_writer jv_err jv_return].
    destruct (csvFileReader_Read r) as [[row e] r'].
    cbn [fst snd] in HS. subst e.
    eexists. split; [reflexivity|].
    cbn [jv_world jv_return jv_err jv_writer].
    change (csv_rows_written []) with (@nil (list string)).
    rewrite append_file_nil. auto.
  - destruct HS as [Hx HS]. simpl in Hfuel.
    cbn [for_loop]. unfold JoinCsvFiles_body at 1.
    cbn [jv_reader jv_world jv_writer jv_err jv_return].
    destruct (csvFileReader_Read r) as [[row' e] r'].
    cbn [fst snd] in Hx, HS. injection Hx as -> ->.
    rewrite csvFileWriter_Write_written by exact Hv.
    destruct (IH fuel (append_file (cw_path writer) (csv_written row) W) r'
                (mkCsvWriter (cw_path writer) (cw_layers writer)
                             (Datatypes.S (cw_n writer)) [])
                err HS eq_refl ltac:(lia))
      as (s' & E1 & E2 & E3 & E4 & E5 & E6).
    exists s'. split; [exact E1|]. cbn [cw_path] in *.
    rewrite E2, append_file_append. auto.
Qed.

Lemma csv_part_frame (W : gmap string (file (list string))) (out : string)
    (x : file (list string)) (parts : list string)
    (hcs : list (list string * list (list string))) :
  Forall2 (csv_part W) parts hcs ->
  out ∉ parts ->
  Forall2 (csv_part (<[out := x]> W)) parts hcs.
Proof.
  induction 1 as [|p c parts cs Hp _ IH]; intros Hout; constructor.
  - apply not_elem_of_cons in Hout as [Hne _].
    destruct Hp as (r & r' & stop & Ho & Hh & Hr). exists r, r', stop.
    split; [|split; assumption]. unfold OpenCsvFile in *.
    rewrite lookup_insert_ne by congruence. exact Ho.
  - apply IH. apply not_elem_of_cons in Hout as [_ Hout]. exact Hout.
Qed.

Lemma JoinCsvFiles_range_reads parts hcs : forall i W writer d,
  Forall2 (csv_part W) parts hcs ->
  cw_path writer ∉ parts ->
  cw_valueProcessors writer = [] ->
  W !! cw_path writer = Some (mkFile d io_EOF) ->
  JoinCsvFiles_range no_faults outputFilePath i parts writer W
  = Some (None,
          <[cw_path writer
            := mkFile (d ++ match i, hcs with
                            | O, hc :: _ => csv_written (fst hc)
                            | _, _ => []
                            end
                         ++ csv_rows_written (concat (map snd hcs)))
                      io_EOF]> W).
Proof.
  revert hcs.
  induction parts as [|p parts IH];
    intros hcs i W writer d Hall Hout Hv Hw;
    inversion Hall as [|? hc ? hcs' Hp Hrest]; subst.
  - cbn [JoinCsvFiles_range concat map].
    replace (d ++ match i with O => [] | _ => [] end
               ++ csv_rows_written []) with d
      by (destruct i; now rewrite app_nil_r).
    f_equal. f_equal. symmetry. now apply insert_id.
  - apply not_elem_of_cons in Hout as [Hne Hout].
    destruct Hp as (r & r' & stop & Ho & Hh & Hr).
    cbn [JoinCsvFiles_range]. rewrite Ho, Hh.
    set (hw := match i with O => csv_written (fst hc) | _ => [] end).
    assert (Ew : (match i with
                  | O => csvFileWriter_Write no_faults writer (fst hc) W
                  | Datatypes.S _ => ((@None error, writer), W)
                  end)
                 = ((None, match i with
                           | O => mkCsvWriter (cw_path writer)
                                    (cw_layers writer)
                                    (Datatypes.S (cw_n writer)) []
                           | _ => writer
                           end),
                    append_file (cw_path writer) hw W)).
    { subst hw. destruct i.
      - now apply csvFileWriter_Write_written.
      - now rewrite append_file_nil. }
    rewrite Ew. clear Ew.
    set (writer1 := match i with O => _ | _ => writer end).
    assert (Hp1 : cw_path writer1 = cw_path writer)
      by (subst writer1; now destruct i).
    assert (Hv1 : cw_valueProcessors writer1 = [])
      by (subst writer1; now destruct i).
    destruct (JoinCsvFiles_loop_reads stop (snd hc)
                (2 + length (r_avail (cr_src (cfr_csvr r'))))
                (append_file (cw_path writer) hw W) r' writer1 None Hr Hv1)
      as (s' & -> & E2 & E3 & E4 & E5 & E6).
    { apply reads_rows_bound in Hr. unfold csv_left in Hr. lia. }
    rewrite E3, E4. cbn [isEOF]. rewrite E2, Hp1, append_file_append.
    rewrite (append_file_lookup _ _ _ _ _ Hw).
    rewrite (IH hcs' (Datatypes.S i) _ (jv_writer s')
               (d ++ hw ++ csv_rows_written (snd hc))).
    + rewrite E5, Hp1, insert_insert_eq. cbn [concat map].
      f_equal. f_equal. f_equal.
      rewrite csv_rows_written_app.
      destruct hcs'; now rewrite !app_nil_l, <- !app_assoc.
    + apply csv_part_frame; [exact Hrest|exact Hout].
    + now rewrite E5, Hp1.
    + exact E6.
    + rewrite E5, Hp1. apply lookup_insert_eq.
Qed.

Lemma JoinCsvFiles_reads parts hcs W :
  Forall2 (csv_part W) parts hcs ->
  outputFilePath ∉ parts ->
  JoinCsvFiles no_faults W outputFilePath parts
  = Some (None,
          <[outputFilePath
            := mkFile (match hcs with
                       | hc :: _ => csv_written (fst hc)
                       | [] => []
                       end ++ csv_rows_written (concat (map snd hcs)))
                      io_EOF]> W).
Proof.
  intros Hall Hout. unfold JoinCsvFiles, NewCsvFile, os_Create.
  cbn [create_err no_faults].
  erewrite JoinCsvFiles_range_reads with (d := []) (hcs := hcs).
  - cbn [cw_path app]. now rewrite insert_insert_eq.
  - cbn [cw_path]. apply csv_part_frame; assumption.
  - exact Hout.
  - reflexivity.
  - apply lookup_insert_eq.
Qed.
End JoinCsvAny.

(** * Split and Join of message files on any input *)

Lemma isEOF_other (e : error) : e <> io_EOF -> isEOF (Some e) = false.
Proof. destruct e; cbn; congruence. Qed.

Section ProtoAny.
Context {T : Type} `{Marshaler T}.

Lemma ReadTo_progress (r : protoFileReader) (holder : T) :
  snd (fst (protoFileReader_ReadTo r holder)) = None ->
  (length (avail (pr_r (snd (protoFileReader_ReadTo r holder))))
   < length (avail (pr_r r)))%nat.
Proof.
  destruct r as [[buf fin]]. unfold protoFileReader_ReadTo, io_ReadFull.
  cbn [pr_r avail final].
  destruct (Nat.leb_spec 4 (length buf)) as [H4|H4];
    [|cbn [fst snd]; discriminate].
  cbn [avail final].
  destruct (N.to_nat (BigEndian_Uint32 (firstn 4 buf))
            <=? length (skipn 4 buf))%nat;
    [|cbn [fst snd]; discriminate].
  assert (Hlen : (length (skipn (N.to_nat (BigEndian_Uint32 (firstn 4 buf)))
                            (skipn 4 buf)) < length buf)%nat)
    by (rewrite !length_skipn; lia).
  destruct (Unmarshal _); cbn [fst snd pr_r avail]; intros _; exact Hlen.
Qed.

Lemma reads_messages_bound (stop : error) :
  forall (ms : list T) (r : protoFileReader) (holder : T),
    reads protoFileReader_ReadTo_next ms stop (r, holder) ->
    (length ms <= length (avail (pr_r r)))%nat.
Proof.
  induction ms as [|m ms IH]; intros r holder Hr; cbn [length]; [lia|].
  destruct Hr as [Hx Hrest]. unfold protoFileReader_ReadTo_next in Hx, Hrest.
  cbn [fst snd] in Hx, Hrest. apply IH in Hrest.
  pose proof (ReadTo_progress r holder) as Hp. rewrite Hx in Hp.
  specialize (Hp eq_refl). lia.
Qed.

Lemma protoFileWriter_Write_marshals w m W :
  marshals m ->
  protoFileWriter_Write no_faults w m W
  = (((blob_of m, None),
      mkProtoWriter (pw_path w) (pw_layers w)
                    (Datatypes.S (Datatypes.S (pw_n w)))),
     append_file (pw_path w) (proto_frame (blob_of m)) W).
Proof.
  intros Hm. unfold protoFileWriter_Write, write_file. rewrite Hm.
  cbn [write_err no_faults]. now rewrite append_file_append.
Qed.

Section SplitProtoAny.
Variables (limit : Z) (partFn : Z -> string).

Lemma SplitProtoFile_body_read m r r' W holder err parts writer
    partNum cnt :
  protoFileReader_ReadTo r holder = ((m, None), r') ->
  marshals m ->
  (cnt <> limit -> writer <> None) ->
  exists w,
    SplitProtoFile_body no_faults limit partFn
      (mkSplit W (r, holder) err parts writer partNum cnt)
    = (Next,
       if cnt =? limit then
         mkSplit (append_file (partFn partNum) (proto_frame (blob_of m))
                    (<[partFn partNum := mkFile [] io_EOF]> W))
                 (r', m) None (parts ++ [partFn partNum])
                 (Some w) (partNum + 1) 0
       else
         mkSplit (append_file (default EmptyString
                                       (option_map pw_path writer))
                              (proto_frame (blob_of m)) W)
                 (r', m) None parts (Some w) partNum cnt)
    /\ pw_path w = (if cnt =? limit then partFn partNum
                    else default EmptyString (option_map pw_path writer)).
Proof.
  intros Hr Hm Hw. unfold SplitProtoFile_body.
  cbn [sv_reader sv_world sv_err sv_parts sv_writer sv_partNum sv_cnt
       fst snd].
  rewrite Hr.
  cbn [sv_reader sv_world sv_err sv_parts sv_writer sv_partNum sv_cnt].
  destruct (cnt =? limit) eqn:E.
  - unfold NewProtoFile, os_Create. cbn [create_err no_faults].
    cbn [sv_reader sv_world sv_err sv_parts sv_writer sv_partNum sv_cnt].
    rewrite protoFileWriter_Write_marshals by exact Hm.
    eexists. split; reflexivity.
  - apply Z.eqb_neq in E. destruct writer as [w|]; [|now destruct Hw].
    cbn [sv_reader sv_world sv_err sv_parts sv_writer sv_partNum sv_cnt].
    rewrite protoFileWriter_Write_marshals by exact Hm.
    eexists. split; reflexivity.
Qed.

Lemma SplitProtoFile_loop_reads (stop : error) (ms : list T) :
  forall fuel W r holder parts writer partNum cnt,
  reads protoFileReader_ReadTo_next ms stop (r, holder) ->
  Forall marshals ms ->
  (length ms < fuel)%nat ->
  (cnt <> limit -> writer <> None) ->
  exists s',
    for_loop fuel sv_cond (SplitProtoFile_body no_faults limit partFn)
             sv_incr
             (mkSplit W (r, holder) None parts writer partNum cnt)
    = Some s' /\
    sv_err s' = Some stop /\
    (sv_world s', sv_parts s')
    = split_run partFn limit [] (fun m => proto_frame (blob_of m)) ms W
                parts (option_map pw_path writer) partNum cnt.
Proof.
  induction ms as [|m ms IH];
    intros fuel W r holder parts writer partNum cnt HS Hms Hfuel Hw;
    (destruct fuel as [|fuel]; [simpl in Hfuel; lia|]).
  - cbn [reads] in HS. unfold protoFileReader_ReadTo_next in HS.
    cbn [fst snd] in HS.
    cbn [for_loop sv_cond sv_err notNil negb].
    unfold SplitProtoFile_body.
    cbn [sv_reader sv_world sv_err sv_parts sv_writer sv_partNum sv_cnt
         fst snd].
    destruct (protoFileReader_ReadTo r holder) as [[h e] r'].
    cbn [fst snd] in HS. subst e.
    eexists. split; [reflexivity|]. split; reflexivity.
  - destruct HS as [Hx HS]. apply Forall_cons in Hms as [Hm Hms].
    simpl in Hfuel.
    unfold protoFileReader_ReadTo_next in Hx, HS. cbn [fst snd] in Hx, HS.
    destruct (protoFileReader_ReadTo r holder) as [[h e] r'] eqn:Hread.
    cbn [fst snd] in Hx, HS. injection Hx as -> ->.
    cbn [for_loop sv_cond sv_err notNil negb].
    destruct (SplitProtoFile_body_read m r r' W holder None parts writer
                partNum cnt Hread Hm Hw) as (w & -> & Hp).
    cbn [split_run].
    destruct (cnt =? limit) eqn:E.
    + destruct (IH fuel
                  (append_file (partFn partNum) (proto_frame (blob_of m))
                     (<[partFn partNum := mkFile [] io_EOF]> W))
                  r' m (parts ++ [partFn partNum]) (Some w)
                  (partNum + 1) (0 + 1) HS Hms ltac:(lia)
                  ltac:(discriminate))
        as (s' & E1 & E2 & E3).
      exists s'. split; [exact E1|]. split; [exact E2|].
      rewrite E3. cbn [option_map]. rewrite Hp. reflexivity.
    + apply Z.eqb_neq in E. destruct writer as [w0|]; [|now destruct Hw].
      cbn [option_map default] in *.
      destruct (IH fuel
                  (append_file (pw_path w0) (proto_frame (blob_of m)) W)
                  r' m parts (Some w) partNum (cnt + 1) HS Hms ltac:(lia)
                  ltac:(discriminate))
        as (s' & E1 & E2 & E3).
      exists s'. split; [exact E1|]. split; [exact E2|].
      rewrite E3. cbn [option_map]. rewrite Hp. reflexivity.
Qed.

(** The loop of [SplitProtoFile] on an input whose reader delivers [ms]
    and then [stop]: it ends with the function's [err] set to [stop]. *)
Lemma SplitProtoFile_reads (stop : error) (ms : list T)
    (W : gmap string (file byte)) (inputFilePath : string) (holder : T) :
  proto_part W stop inputFilePath ms ->
  Forall marshals ms ->
  SplitProtoFile no_faults W inputFilePath holder limit partFn
  = Some (Split_epilogue
            (mkSplit
               (write_parts partFn [] (fun m => proto_frame (blob_of m)) 1
                            (chunks limit ms) W)
               (mkProtoReader (mkStream [] stop), holder) (Some stop)
               (map partFn (Zseq 1 (length (chunks limit ms))))
               (@None protoFileWriter) 0 0)).
Proof.
  intros (r & Ho & Hr) Hms. unfold SplitProtoFile. rewrite Ho.
  destruct (SplitProtoFile_loop_reads stop ms
              (2 + length (avail (pr_r r))) W r holder [] None 1 limit
              (Hr holder) Hms) as (s' & -> & E2 & E3).
  - pose proof (reads_messages_bound stop ms r holder (Hr holder)). lia.
  - congruence.
  - cbn [option_map]. rewrite split_run_chunks in E3.
    injection E3 as E3 E4. unfold Split_epilogue.
    cbn [sv_err sv_parts sv_world]. rewrite E2, E3, E4. reflexivity.
Qed.
End SplitProtoAny.
End ProtoAny.

Section JoinProtoAny.
Context {T : Type} `{Marshaler T}.
Variable outputFilePath : string.

Lemma JoinProtoFiles_loop_reads (stop : error) (ms : list T) :
  forall fuel W r row writer err,
  reads protoFileReader_ReadTo_next ms stop (r, row) ->
  Forall marshals ms ->
  (length ms < fuel)%nat ->
  exists s',
    for_loop fuel (fun _ => true)
             (JoinProtoFiles_body no_faults outputFilePath) (fun s => s)
             (mkJoin W (r, row) writer err None)
    = Some s' /\
    jv_world s' = append_file (pw_path writer) (message_encode ms) W /\
    jv_return s' = None /\ jv_err s' = Some stop /\
    pw_path (jv_writer s') = pw_path writer.
Proof.
  induction ms as [|m ms IH]; intros fuel W r row writer err HS Hms Hfuel;
    (destruct fuel as [|fuel]; [simpl in Hfuel; lia|]).
  - cbn [reads] in HS. unfold protoFileReader_ReadTo_next in HS.
    cbn [fst snd] in HS.
    cbn [for_loop]. unfold JoinProtoFiles_body.
    cbn [jv_reader jv_world jv_writer jv_err jv_return fst snd].
    destruct (protoFileReader_ReadTo r row) as [[h e] r'].
    cbn [fst snd] in HS. subst e.
    eexists. split; [reflexivity|].
    cbn [jv_world jv_return jv_err jv_writer].
    change (message_encode []) with (@nil byte).
    rewrite append_file_nil. auto.
  - destruct HS as [Hx HS]. apply Forall_cons in Hms as [Hm Hms].
    simpl in Hfuel.
    unfold protoFileReader_ReadTo_next in Hx, HS. cbn [fst snd] in Hx, HS.
    cbn [for_loop]. unfold JoinProtoFiles_body at 1.
    cbn [jv_reader jv_world jv_writer jv_err jv_return fst snd].
    destruct (protoFileReader_ReadTo r row) as [[h e] r'].
    cbn [fst snd] in Hx, HS. injection Hx as -> ->.
    rewrite protoFileWriter_Write_marshals by exact Hm.
    destruct (IH fuel
                (append_file (pw_path writer) (proto_frame (blob_of m)) W)
                r' m
                (mkProtoWriter (pw_path writer) (pw_layers writer)
                               (Datatypes.S (Datatypes.S (pw_n writer))))
                None HS Hms ltac:(lia)) as (s' & E1 & E2 & E3 & E4 & E5).
    exists s'. split; [exact E1|]. cbn [pw_path] in *.
    rewrite E2, append_file_append. auto.
Qed.

Lemma proto_part_frame (W : gmap string (file byte)) (stop : error)
    (out : string) (x : file byte) (p : string) (c : list T) :
  proto_part W stop p c -> out <> p ->
  proto_part (<[out := x]> W) stop p c.
Proof.
  intros (r & Ho & Hr) Hne. exists r. split; [|exact Hr].
  unfold OpenProtoFile in *. rewrite lookup_insert_ne by exact Hne.
  exact Ho.
Qed.

Lemma proto_parts_frame (W : gmap string (file byte)) (stop : error)
    (out : string) (x : file byte) (parts : list string)
    (cs : list (list T)) :
  Forall2 (proto_part W stop) parts cs ->
  out ∉ parts ->
  Forall2 (proto_part (<[out := x]> W) stop) parts cs.
Proof.
  induction 1 as [|p c parts cs Hp _ IH]; intros Hout; constructor.
  - apply not_elem_of_cons in Hout as [Hne _].
    apply proto_part_frame; assumption.
  - apply IH. apply not_elem_of_cons in Hout as [_ Hout]. exact Hout.
Qed.

(** A part that reads to the end: the loop over the parts goes on with
    the output extended by the part's messages. *)
Lemma JoinProtoFiles_range_step p c W row writer d :
  proto_part W io_EOF p c ->
  Forall marshals c ->
  W !! pw_path writer = Some (mkFile d io_EOF) ->
  exists row' writer',
    pw_path writer' = pw_path writer /\
    forall parts,
      JoinProtoFiles_range no_faults outputFilePath (p :: parts) row
                           writer W
      = JoinProtoFiles_range no_faults outputFilePath parts row' writer'
          (<[pw_path writer := mkFile (d ++ message_encode c) io_EOF]> W).
Proof.
  intros (r & Ho & Hr) Hc Hw.
  destruct (JoinProtoFiles_loop_reads io_EOF c
              (2 + length (avail (pr_r r))) W r row writer None
              (Hr row) Hc) as (s' & Hs & E2 & E3 & E4 & E5).
  { pose proof (reads_messages_bound io_EOF c r row (Hr row)). lia. }
  exists (snd (jv_reader s')), (jv_writer s'). split; [exact E5|].
  intros parts. cbn [JoinProtoFiles_range]. rewrite Ho, Hs, E3, E4.
  cbn [isEOF]. rewrite E2, (append_file_lookup _ _ _ _ _ Hw). reflexivity.
Qed.

(** Parts that read to the end. *)
Lemma JoinProtoFiles_range_reads parts cs : forall W row writer d,
  Forall2 (proto_part W io_EOF) parts cs ->
  Forall (Forall marshals) cs ->
  pw_path writer ∉ parts ->
  W !! pw_path writer = Some (mkFile d io_EOF) ->
  JoinProtoFiles_range no_faults outputFilePath parts row writer W
  = Some (None,
          <[pw_path writer
            := mkFile (d ++ message_encode (concat cs)) io_EOF]> W).
Proof.
  revert cs.
  induction parts as [|p parts IH]; intros cs W row writer d Hall Hcs Hout Hw;
    inversion Hall as [|? c ? cs' Hp Hrest]; subst.
  - cbn [JoinProtoFiles_range concat].
    change (message_encode []) with (@nil byte).
    rewrite app_nil_r. f_equal. f_equal. symmetry. now apply insert_id.
  - apply Forall_cons in Hcs as [Hc Hcs].
    apply not_elem_of_cons in Hout as [Hne Hout].
    destruct (JoinProtoFiles_range_step p c W row writer d Hp Hc Hw)
      as (row' & writer' & Hpath & ->).
    rewrite (IH cs' _ row' writer' (d ++ message_encode c)).
    + rewrite Hpath, insert_insert_eq. cbn [concat].
      now rewrite message_encode_app, app_assoc.
    + apply proto_parts_frame; assumption.
    + exact Hcs.
    + now rewrite Hpath.
    + rewrite Hpath. apply lookup_insert_eq.
Qed.

(** Parts that read to the end, and then one whose reading fails. *)
Lemma JoinProtoFiles_range_fails parts cs bad ms stop rest :
  forall W row writer d,
  Forall2 (proto_part W io_EOF) parts cs ->
  Forall (Forall marshals) cs ->
  proto_part W stop bad ms -> Forall marshals ms -> stop <> io_EOF ->
  pw_path writer ∉ parts ++ [bad] ->
  W !! pw_path writer = Some (mkFile d io_EOF) ->
  JoinProtoFiles_range no_faults outputFilePath (parts ++ bad :: rest) row
                       writer W
  = Some (Some (Errorf "join read file '%s', %v" bad stop),
          <[pw_path writer
            := mkFile (d ++ message_encode (concat cs ++ ms)) io_EOF]> W).
Proof.
  revert cs.
  induction parts as [|p parts IH];
    intros cs W row writer d Hall Hcs Hbad Hms Hstop Hout Hw;
    inversion Hall as [|? c ? cs' Hp Hrest]; subst.
  - destruct Hbad as (r & Ho & Hr).
    cbn [app JoinProtoFiles_range concat]. rewrite Ho.
    destruct (JoinProtoFiles_loop_reads stop ms
                (2 + length (avail (pr_r r))) W r row writer None
                (Hr row) Hms) as (s' & -> & E2 & E3 & E4 & E5).
    { pose proof (reads_messages_bound stop ms r row (Hr row)). lia. }
    rewrite E3, E4, (isEOF_other _ Hstop), E2.
    rewrite (append_file_lookup _ _ _ _ _ Hw). reflexivity.
  - apply Forall_cons in Hcs as [Hc Hcs].
    cbn [app] in Hout. apply not_elem_of_cons in Hout as [Hne Hout].
    assert (Hnb : pw_path writer <> bad).
    { intros E. apply Hout. apply elem_of_app. right. rewrite E.
      constructor. }
    destruct (JoinProtoFiles_range_step p c W row writer d Hp Hc Hw)
      as (row' & writer' & Hpath & Hstep).
    cbn [app]. rewrite Hstep.
    rewrite (IH cs' _ row' writer' (d ++ message_encode c)).
    + rewrite Hpath, insert_insert_eq. cbn [concat].
      now rewrite !message_encode_app, <- !app_assoc.
    + apply proto_parts_frame; [exact Hrest|].
      intros Hin. apply Hout. apply elem_of_app. now left.
    + exact Hcs.
    + apply proto_part_frame; assumption.
    + exact Hms.
    + exact Hstop.
    + now rewrite Hpath.
    + rewrite Hpath. apply lookup_insert_eq.
Qed.
End JoinProtoAny.

Lemma remove_all_lookup_other {A} (names : list string) :
  forall (W : gmap string (file A)) (q : string),
    q ∉ names ->
    fold_left (fun W name => os_Remove name W) names W !! q = W !! q.
Proof.
  induction names as [|n names IH]; intros W q Hq; cbn [fold_left].
  - reflexivity.
  - apply not_elem_of_cons in Hq as [Hne Hq]. rewrite IH by exact Hq.
    unfold os_Remove. apply lookup_delete_ne. congruence.
Qed.

(** X16.  [SplitCsvFile] does not report an error of reading a row: when
    the input opens, its first row is read as the header and the reader
    then delivers the rows [rs] and fails, with whatever error (the end
    of the file, a damaged file, a row with another number of fields),
    the function returns a nil error and the parts that partition [rs],
    each under the header. *)
Theorem SplitCsvFile_hides_read_error (limit : Z) (partFn : Z -> string)
    (inputFilePath : string) (W : gmap string (file (list string)))
    (header : list string) (rs : list (list string)) :
  csv_part W inputFilePath (header, rs) ->
  NoDup (map partFn (Zseq 1 (length (chunks limit rs)))) ->
  split_partitions partFn limit
    (fun c => csv_written header ++ csv_rows_written c) rs W
    (SplitCsvFile no_faults W inputFilePath limit partFn).
Proof.
  intros Hpart Hnd.
  apply split_partitions_intro
    with (hdr := csv_written header) (enc := csv_written);
    [reflexivity | exact Hnd |].
  exact (SplitCsvFile_reads limit partFn W inputFilePath (header, rs) Hpart).
Qed.

Lemma SplitCsvFile_hides_read_error_witness :
  split_partitions (part_name ".csv") 10
    (fun c => csv_written ["name"] ++ csv_rows_written c) [["a"]]
    ragged_row_part
    (SplitCsvFile no_faults ragged_row_part "p1.csv" 10 (part_name ".csv")).
Proof.
  apply (SplitCsvFile_hides_read_error 10 (part_name ".csv") "p1.csv"
           ragged_row_part ["name"] [["a"]]).
  - do 2 eexists. exists csv_ErrFieldCount.
    split; [reflexivity|]. split; [reflexivity|].
    cbn [snd reads]. split; reflexivity.
  - apply (bool_decide_unpack _). vm_compute. exact I.
Defined.

(** X17.  [JoinCsvFiles] on parts that all open and have a first row
    writes the first row of the first part, then the rows that the
    readers of all parts deliver after their first rows, and returns a
    nil error.  The first rows of the later parts are read and dropped
    without being compared with the first, and the error a part's reading
    ends with does not show. *)
Theorem JoinCsvFiles_first_header_only (outputFilePath : string)
    (parts : list string)
    (hcs : list (list string * list (list string)))
    (W : gmap string (file (list string))) :
  Forall2 (csv_part W) parts hcs ->
  outputFilePath ∉ parts ->
  JoinCsvFiles no_faults W outputFilePath parts
  = Some (None,
          <[outputFilePath
            := mkFile (match hcs with
                       | hc :: _ => csv_written (fst hc)
                       | [] => []
                       end ++ csv_rows_written (concat (map snd hcs)))
                      io_EOF]> W).
Proof. apply JoinCsvFiles_reads. Qed.

Lemma JoinCsvFiles_first_header_only_witness :
  JoinCsvFiles no_faults mixed_header_parts "out.csv" ["p1.csv"; "p2.csv"]
  = Some (None,
          <["out.csv" := mkFile [["name"]; ["a"]; ["1"; "2"]] io_EOF]>
            mixed_header_parts).
Proof.
  apply (JoinCsvFiles_first_header_only "out.csv" ["p1.csv"; "p2.csv"]
           [(["name"], [["a"]]); (["id"; "count"], [["1"; "2"]])]
           mixed_header_parts).
  - repeat constructor.
    + do 2 eexists. exists io_EOF.
      split; [reflexivity|]. split; [reflexivity|].
      cbn [snd reads]. split; reflexivity.
    + do 2 eexists. exists io_EOF.
      split; [reflexivity|]. split; [reflexivity|].
      cbn [snd reads]. split; reflexivity.
  - apply (bool_decide_unpack _). vm_compute. exact I.
Defined.

Lemma proto_part_encoded {T} `{Marshaler T} (W : gmap string (file byte))
    (fin : error) (p : string) (c : list T) :
  W !! p = Some (mkFile (message_encode c) fin) ->
  Forall framed c ->
  proto_part W fin p c.
Proof.
  intros Hp Hc. unfold proto_part, OpenProtoFile. rewrite Hp.
  eexists. split; [reflexivity|]. intros holder. cbn [f_data f_final].
  apply reads_messages. exact Hc.
Qed.

(** X18.  [SplitProtoFile] reports an error of reading and leaves no part
    behind: when the input opens and its reader delivers the messages
    [ms] and then fails with an error other than [io.EOF], the function
    returns that error and no part; the paths generated for the parts it
    had written have no file afterwards, and every other path is as
    before. *)
Theorem SplitProtoFile_reports_read_error {T} `{Marshaler T} (limit : Z)
    (partFn : Z -> string) (inputFilePath : string)
    (W : gmap string (file byte)) (holder : T) (ms : list T)
    (stop : error) :
  proto_part W stop inputFilePath ms ->
  Forall marshals ms ->
  stop <> io_EOF ->
  exists W',
    SplitProtoFile no_faults W inputFilePath holder limit partFn
    = Some (([], Some stop), W')
    /\ (forall p, p ∈ map partFn (Zseq 1 (length (chunks limit ms))) ->
          W' !! p = None)
    /\ (forall q, q ∉ map partFn (Zseq 1 (length (chunks limit ms))) ->
          W' !! q = W !! q).
Proof.
  intros Hpart Hms Hstop.
  rewrite (SplitProtoFile_reads limit partFn stop ms W inputFilePath holder
             Hpart Hms).
  unfold Split_epilogue. cbn [sv_err sv_parts sv_world].
  rewrite (isEOF_other _ Hstop).
  eexists. split; [reflexivity|]. split.
  - intros p Hp. now apply remove_all_lookup.
  - intros q Hq. rewrite remove_all_lookup_other by exact Hq.
    now apply write_parts_lookup_other.
Qed.

Lemma SplitProtoFile_reports_read_error_witness :
  exists W',
    SplitProtoFile (H := raw_Marshaler) no_faults cut_message_part
      "p1.pb.gz" [] 1 (part_name ".pb")
    = Some (([], Some io_ErrUnexpectedEOF), W')
    /\ (forall p,
          p ∈ map (part_name ".pb")
                (Zseq 1 (length (chunks 1 [bytes_of "a"]))) ->
          W' !! p = None)
    /\ (forall q,
          q ∉ map (part_name ".pb")
                (Zseq 1 (length (chunks 1 [bytes_of "a"]))) ->
          W' !! q = cut_message_part !! q).
Proof.
  apply (SplitProtoFile_reports_read_error (H := raw_Marshaler) 1
           (part_name ".pb") "p1.pb.gz" cut_message_part []
           [bytes_of "a"] io_ErrUnexpectedEOF).
  - apply (proto_part_encoded (H := raw_Marshaler) cut_message_part
             io_ErrUnexpectedEOF "p1.pb.gz" [bytes_of "a"]).
    + reflexivity.
    + repeat constructor.
  - repeat constructor.
  - discriminate.
Defined.

(** X19.  [JoinProtoFiles] copies the messages of the parts in order.  On
    parts that all open and read to the end of the file it returns a nil
    error and the output holds the messages of all parts. *)
Theorem JoinProtoFiles_concatenates {T} `{Marshaler T}
    (outputFilePath : string) (row : T) (parts : list string)
    (cs : list (list T)) (W : gmap string (file byte)) :
  Forall2 (proto_part W io_EOF) parts cs ->
  Forall (Forall marshals) cs ->
  outputFilePath ∉ parts ->
  JoinProtoFiles no_faults W outputFilePath row parts
  = Some (None,
          <[outputFilePath
            := mkFile (message_encode (concat cs)) io_EOF]> W).
Proof.
  intros Hall Hcs Hout. unfold JoinProtoFiles, NewProtoFile, os_Create.
  cbn [create_err no_faults].
  erewrite JoinProtoFiles_range_reads with (d := []) (cs := cs).
  - cbn [pw_path app]. now rewrite insert_insert_eq.
  - cbn [pw_path]. apply proto_parts_frame; assumption.
  - exact Hcs.
  - exact Hout.
  - apply lookup_insert_eq.
Qed.

Lemma JoinProtoFiles_concatenates_witness :
  JoinProtoFiles (H := raw_Marshaler) no_faults cut_message_part "out.pb"
    [] ["p2.pb"; "p2.pb"]
  = Some (None,
          <["out.pb"
            := mkFile (message_encode (H := raw_Marshaler)
                         (concat [[bytes_of "c"]; [bytes_of "c"]]))
                      io_EOF]> cut_message_part).
Proof.
  apply (JoinProtoFiles_concatenates (H := raw_Marshaler) "out.pb" []
           ["p2.pb"; "p2.pb"] [[bytes_of "c"]; [bytes_of "c"]]
           cut_message_part).
  - repeat constructor;
      apply (proto_part_encoded (H := raw_Marshaler));
      try reflexivity; repeat constructor.
  - repeat constructor.
  - apply (bool_decide_unpack _). vm_compute. exact I.
Defined.

(** X20.  [JoinProtoFiles] stops at the first part whose reading fails
    with an error other than [io.EOF]: it returns the error
    [join read file] with the path of that part and the error, the parts
    after it are not opened, and the output holds the messages of the
    parts before it and the messages read from it before the error. *)
Theorem JoinProtoFiles_stops_at_failed_part {T} `{Marshaler T}
    (outputFilePath : string) (row : T) (parts rest : list string)
    (cs : list (list T)) (bad : string) (ms : list T) (stop : error)
    (W : gmap string (file byte)) :
  Forall2 (proto_part W io_EOF) parts cs ->
  Forall (Forall marshals) cs ->
  proto_part W stop bad ms -> Forall marshals ms -> stop <> io_EOF ->
  outputFilePath ∉ parts ++ [bad] ->
  JoinProtoFiles no_faults W outputFilePath row (parts ++ bad :: rest)
  = Some (Some (Errorf "join read file '%s', %v" bad stop),
          <[outputFilePath
            := mkFile (message_encode (concat cs ++ ms)) io_EOF]> W).
Proof.
  intros Hall Hcs Hbad Hms Hstop Hout.
  unfold JoinProtoFiles, NewProtoFile, os_Create.
  cbn [create_err no_faults].
  erewrite JoinProtoFiles_range_fails with (d := []) (cs := cs).
  - cbn [pw_path app]. now rewrite insert_insert_eq.
  - cbn [pw_path]. apply proto_parts_frame; [exact Hall|].
    intros Hin. apply Hout. apply elem_of_app. now left.
  - exact Hcs.
  - cbn [pw_path]. apply proto_part_frame; [exact Hbad|].
    intros E. apply Hout. apply elem_of_app. right. rewrite E. constructor.
  - exact Hms.
  - exact Hstop.
  - exact Hout.
  - apply lookup_insert_eq.
Qed.

Lemma JoinProtoFiles_stops_at_failed_part_witness :
  JoinProtoFiles (H := raw_Marshaler) no_faults cut_message_part "out.pb"
    [] (["p2.pb"] ++ "p1.pb.gz" :: ["p2.pb"; "missing.pb"])
  = Some (Some (Errorf "join read file '%s', %v" "p1.pb.gz"
                       io_ErrUnexpectedEOF),
          <["out.pb"
            := mkFile (message_encode (H := raw_Marshaler)
                         (concat [[bytes_of "c"]] ++ [bytes_of "a"]))
                      io_EOF]> cut_message_part).
Proof.
  apply (JoinProtoFiles_stops_at_failed_part (H := raw_Marshaler) "out.pb"
           [] ["p2.pb"] ["p2.pb"; "missing.pb"] [[bytes_of "c"]]
           "p1.pb.gz" [bytes_of "a"] io_ErrUnexpectedEOF cut_message_part).
  - repeat constructor.
    apply (proto_part_encoded (H := raw_Marshaler));
      try reflexivity; repeat constructor.
  - repeat constructor.
  - apply (proto_part_encoded (H := raw_Marshaler));
      try reflexivity; repeat constructor.
  - repeat constructor.
  - discriminate.
  - apply (bool_decide_unpack _). vm_compute. exact I.
Defined.

(** * Split of message files under any failure *)

Lemma append_file_lookup_ne {A} (name q : string) (xs : list A)
    (W : gmap string (file A)) :
  q <> name -> append_file name xs W !! q = W !! q.
Proof.
  intros Hne. unfold append_file. destruct (W !! name); [|reflexivity].
  apply lookup_insert_ne. congruence.
Qed.

Lemma write_file_lookup_ne {A} (faults : Faults) (name q : string) (n : nat)
    (xs : list A) (W : gmap string (file A)) :
  q <> name -> snd (write_file faults name n xs W) !! q = W !! q.
Proof.
  intros Hne. unfold write_file. destruct (write_err faults name n);
    [reflexivity|]. now apply append_file_lookup_ne.
Qed.

Section SplitProtoAllOrNothing.
Context {T : Type} `{Marshaler T}.
Variables (faults : Faults) (limit : Z) (partFn : Z -> string)
          (W0 : gmap string (file byte)).

Lemma protoFileWriter_Write_frame w m W :
  pw_path (snd (fst (protoFileWriter_Write faults w m W))) = pw_path w
  /\ forall q, q <> pw_path w ->
       snd (protoFileWriter_Write faults w m W) !! q = W !! q.
Proof.
  unfold protoFileWriter_Write. destruct (Marshal m) as [blob|];
    [|split; reflexivity].
  pose proof (write_file_lookup_ne (A := byte) faults (pw_path w)) as Hf.
  destruct (write_file faults (pw_path w) (pw_n w)
              (BigEndian_PutUint32 (N.of_nat (length blob))) W)
    as [[e|] W1] eqn:E1.
  - split; [reflexivity|]. intros q Hq. cbn [snd].
    specialize (Hf q (pw_n w)
                  (BigEndian_PutUint32 (N.of_nat (length blob))) W Hq).
    now rewrite E1 in Hf.
  - destruct (write_file faults (pw_path w) (Datatypes.S (pw_n w)) blob W1)
      as [e W2] eqn:E2.
    split; [reflexivity|]. intros q Hq. cbn [snd].
    pose proof (Hf q (pw_n w)
                  (BigEndian_PutUint32 (N.of_nat (length blob))) W Hq) as H1.
    pose proof (Hf q (Datatypes.S (pw_n w)) blob W1 Hq) as H2.
    rewrite E1 in H1. rewrite E2 in H2. cbn [snd] in H1, H2. congruence.
Qed.

Lemma SplitProtoFile_body_inv s :
  split_proto_inv limit W0 s -> sv_err s = None ->
  match SplitProtoFile_body faults limit partFn s with
  | (Next, s') =>
      split_proto_inv limit W0 s' /\ sv_writer s' <> None /\
      (length (avail (pr_r (fst (sv_reader s'))))
       < length (avail (pr_r (fst (sv_reader s)))))%nat
  | (Break, s') => split_proto_inv limit W0 s'
  | (Panic, _) => False
  end.
Proof.
  intros (I1 & I2 & I3) Herr. unfold SplitProtoFile_body.
  pose proof (ReadTo_progress (fst (sv_reader s)) (snd (sv_reader s)))
    as Hp.
  destruct (protoFileReader_ReadTo (fst (sv_reader s)) (snd (sv_reader s)))
    as [[holder [e|]] reader]; cbn [fst snd] in Hp;
    cbn [sv_reader sv_world sv_err sv_parts sv_writer sv_partNum sv_cnt].
  - repeat split; cbn [sv_writer sv_cnt sv_err sv_parts sv_world]; auto;
      try (intros _; right; discriminate).
  - specialize (Hp eq_refl).
    destruct (sv_cnt s =? limit) eqn:E.
    + unfold NewProtoFile, os_Create.
      destruct (create_err faults (partFn (sv_partNum s))) as [e|].
      * cbn [sv_writer sv_cnt sv_err sv_parts sv_world].
        repeat split; cbn [sv_writer sv_cnt sv_err sv_parts sv_world];
          auto; try discriminate; try (intros _; right; discriminate).
      * cbn [sv_writer sv_cnt sv_err sv_parts sv_world].
        set (w := mkProtoWriter _ _ _).
        set (W1 := <[partFn (sv_partNum s) := _]> (sv_world s)).
        destruct (protoFileWriter_Write_frame w holder W1) as [Hpath Hfr].
        destruct (protoFileWriter_Write faults w holder W1)
          as [[[blob e] w1] W2]. cbn [fst snd] in Hpath, Hfr.
        split; [|split; [discriminate | exact Hp]].
        repeat split; cbn [sv_writer sv_cnt sv_err sv_parts sv_world].
        -- discriminate.
        -- intros w' [= <-]. rewrite Hpath. subst w. cbn [pw_path].
           apply elem_of_app. right. constructor.
        -- intros q Hq. apply not_elem_of_app in Hq as [Hq1 Hq2].
           apply not_elem_of_cons in Hq2 as [Hq2 _].
           rewrite Hfr by (subst w; exact Hq2). subst W1.
           rewrite lookup_insert_ne by congruence. now apply I3.
    + apply Z.eqb_neq in E.
      cbn [sv_writer sv_cnt sv_err sv_parts sv_world].
      destruct (sv_writer s) as [w|] eqn:Ew.
      * destruct (protoFileWriter_Write_frame w holder (sv_world s))
          as [Hpath Hfr].
        destruct (protoFileWriter_Write faults w holder (sv_world s))
          as [[[blob e] w1] W2]. cbn [fst snd] in Hpath, Hfr.
        split; [|split; [discriminate | exact Hp]].
        repeat split; cbn [sv_writer sv_cnt sv_err sv_parts sv_world].
        -- discriminate.
        -- intros w' [= <-]. rewrite Hpath. now apply I2.
        -- intros q Hq. rewrite Hfr; [now apply I3|].
           intros ->. apply Hq. now apply I2.
      * destruct (I1 eq_refl) as [Hc|Hc]; [now destruct E|].
        now destruct Hc.
Qed.

Lemma SplitProtoFile_loop_inv fuel :
  forall s s',
    split_proto_inv limit W0 s ->
    for_loop fuel sv_cond (SplitProtoFile_body faults limit partFn) sv_incr s
    = Some s' ->
    split_proto_inv limit W0 s'.
Proof.
  induction fuel as [|fuel IH]; intros s s' Hs E; [discriminate|].
  cbn [for_loop] in E. destruct (sv_cond s) eqn:Ec; [|congruence].
  assert (Herr : sv_err s = None).
  { unfold sv_cond in Ec. destruct (sv_err s); [discriminate|reflexivity]. }
  pose proof (SplitProtoFile_body_inv s Hs Herr) as Hb.
  destruct (SplitProtoFile_body faults limit partFn s) as [[| |] s1].
  - destruct Hb as ((I1 & I2 & I3) & Hw & _). eapply IH; [|exact E].
    repeat split; cbn [sv_incr sv_writer sv_cnt sv_err sv_parts sv_world];
      auto; try (intros Hn; now destruct Hw).
  - injection E as <-. exact Hb.
  - destruct Hb.
Qed.

Lemma SplitProtoFile_loop_ends fuel :
  forall s,
    split_proto_inv limit W0 s ->
    (length (avail (pr_r (fst (sv_reader s)))) < fuel)%nat ->
    exists s',
      for_loop fuel sv_cond (SplitProtoFile_body faults limit partFn)
               sv_incr s = Some s'.
Proof.
  induction fuel as [|fuel IH]; intros s Hs Hfuel; [lia|].
  cbn [for_loop]. destruct (sv_cond s) eqn:Ec; [|eauto].
  assert (Herr : sv_err s = None).
  { unfold sv_cond in Ec. destruct (sv_err s); [discriminate|reflexivity]. }
  pose proof (SplitProtoFile_body_inv s Hs Herr) as Hb.
  destruct (SplitProtoFile_body faults limit partFn s) as [[| |] s1].
  - destruct Hb as ((I1 & I2 & I3) & Hw & Hl). apply IH.
    + repeat split;
        cbn [sv_incr sv_writer sv_cnt sv_err sv_parts sv_world]; auto;
        try (intros Hn; now destruct Hw).
    + cbn [sv_incr sv_reader]. lia.
  - eauto.
  - destruct Hb.
Qed.
End SplitProtoAllOrNothing.

(** X21.  [SplitProtoFile] is all or nothing, whatever fails: once the
    input is open the function returns; when the error it returns is not
    nil it returns no part, and every path then has either no file or
    the file it had before the call, so that no part is left behind;
    when the error is nil, the paths that are not among the returned
    parts are as before. *)
Theorem SplitProtoFile_all_or_nothing {T} `{Marshaler T} (faults : Faults)
    (limit : Z) (partFn : Z -> string) (W : gmap string (file byte))
    (inputFilePath : string) (f : file byte) (holder : T) :
  W !! inputFilePath = Some f ->
  exists parts err W',
    SplitProtoFile faults W inputFilePath holder limit partFn
    = Some ((parts, err), W')
    /\ (err <> None ->
        parts = [] /\ forall q, W' !! q = None \/ W' !! q = W !! q)
    /\ (err = None -> forall q, q ∉ parts -> W' !! q = W !! q).
Proof.
  intros Hin. unfold SplitProtoFile, OpenProtoFile. rewrite Hin.
  cbn [pr_r avail].
  set (s0 := mkSplit W _ None [] None 1 limit).
  assert (H0 : split_proto_inv limit W s0).
  { subst s0. repeat split;
      cbn [sv_writer sv_cnt sv_err sv_parts sv_world]; auto; discriminate. }
  destruct (SplitProtoFile_loop_ends faults limit partFn W
              (2 + length (f_data f)) s0 H0) as [s' E].
  { subst s0. cbn. lia. }
  pose proof (SplitProtoFile_loop_inv faults limit partFn W _ _ _ H0 E)
    as (_ & _ & I3).
  rewrite E. cbn [option_map]. unfold Split_epilogue.
  destruct (if isEOF (sv_err s') then None else sv_err s') as [e|] eqn:Ee.
  - do 3 eexists. split; [reflexivity|]. split; [|intros [=]].
    intros _. split; [reflexivity|]. intros q.
    destruct (decide (q ∈ sv_parts s')) as [Hq|Hq].
    + left. now apply remove_all_lookup.
    + right. rewrite remove_all_lookup_other by exact Hq. now apply I3.
  - do 3 eexists. split; [reflexivity|]. split; [congruence|].
    intros _ q Hq. now apply I3.
Qed.

Lemma SplitProtoFile_all_or_nothing_witness :
  exists parts err W',
    SplitProtoFile (H := raw_Marshaler) (second_part_full ".pb" 1)
      three_messages "in.pb" [] 1 (part_name ".pb")
    = Some ((parts, err), W')
    /\ (err <> None ->
        parts = []
        /\ forall q, W' !! q = None \/ W' !! q = three_messages !! q)
    /\ (err = None ->
        forall q, q ∉ parts -> W' !! q = three_messages !! q).
Proof.
  apply (SplitProtoFile_all_or_nothing (H := raw_Marshaler)
           (second_part_full ".pb" 1) 1 (part_name ".pb") three_messages
           "in.pb"
           (mkFile (message_encode (H := raw_Marshaler)
                      (map bytes_of ["a"; "b"; "c"])) io_EOF) []).
  reflexivity.
Defined.

(** X22.  [SplitJsonFile] and [SplitCsvFile] never return an error from
    their loop, whatever fails: once the input is open (for rows: once
    its first row is read) the function returns, and the error it
    returns is nil, also when a part could not be created or written. *)
Theorem Split_objects_rows_error_always_nil (faults : Faults) (limit : Z)
    (partFn : Z -> string) (inputFilePath : string) :
  (forall (W : gmap string (file byte)) (f : file byte),
      W !! inputFilePath = Some f ->
      exists parts W',
        SplitJsonFile faults W inputFilePath limit partFn
        = Some ((parts, None), W'))
  /\ (forall (W : gmap string (file (list string))) (header : list string)
             (rs : list (list string)) (fin : error),
        W !! inputFilePath = Some (mkFile (header :: rs) fin) ->
        exists parts W',
          SplitCsvFile faults W inputFilePath limit partFn
          = Some ((parts, None), W')).
Proof.
  split.
  - intros W f Hin. now apply SplitJsonFile_returns_nil with (f := f).
  - intros W header rs fin Hin.
    now apply SplitCsvFile_returns_nil with (header := header) (rs := rs)
                                            (fin := fin).
Qed.

Lemma Split_objects_rows_error_always_nil_witness :
  (exists parts W',
      SplitJsonFile (second_part_denied ".json") three_objects "in.json" 1
                    (part_name ".json")
      = Some ((parts, None), W'))
  /\ (exists parts W',
        SplitCsvFile (second_part_full ".csv" 0) three_rows "in.csv" 1
                     (part_name ".csv")
        = Some ((parts, None), W')).
Proof.
  split.
  - apply (proj1 (Split_objects_rows_error_always_nil
                    (second_part_denied ".json") 1 (part_name ".json")
                    "in.json") three_objects
             (mkFile (json_encode (map bytes_of ["a"; "b"; "c"])) io_EOF)).
    reflexivity.
  - apply (proj2 (Split_objects_rows_error_always_nil
                    (second_part_full ".csv" 0) 1 (part_name ".csv")
                    "in.csv") three_rows ["name"] [["a"]; ["b"]; ["c"]]
             io_EOF).
    reflexivity.
Defined.

(** * A limit below one *)

Lemma chunks_from_above {X} (limit cnt : Z) (cur l : list X) :
  limit < cnt -> chunks_from limit cnt cur l = [cur ++ l].
Proof.
  revert cnt cur. induction l as [|x l IH]; intros cnt cur Hc;
    cbn [chunks_from].
  - now rewrite app_nil_r.
  - destruct (Z.eqb_spec cnt limit) as [->|_]; [lia|].
    rewrite IH by lia. now rewrite <- app_assoc.
Qed.

Lemma chunks_below_one {X} (limit : Z) (x : X) (l : list X) :
  limit <= 0 -> chunks limit (x :: l) = [x :: l].
Proof.
  intros Hl. cbn [chunks]. now rewrite chunks_from_above by lia.
Qed.

(** X23.  With a limit of zero or less, Split writes all records into one
    part, the one generated for number 1: the counter starts at the limit,
    is set to zero when the first part is opened and never comes back to
    the limit. *)
Theorem Split_limit_below_one {T} `{Marshaler T} (limit : Z)
    (partFn : Z -> string) (inputFilePath : string) :
  limit <= 0 ->
  (forall (r : list byte) (S : list (list byte))
          (W : gmap string (file byte)),
      Forall (fun r => ~ In nl r) (r :: S) ->
      W !! inputFilePath = Some (mkFile (json_encode (r :: S)) io_EOF) ->
      SplitJsonFile no_faults W inputFilePath limit partFn
      = Some (([partFn 1], None),
              <[partFn 1 := mkFile (json_encode (r :: S)) io_EOF]> W))
  /\ (forall (m : T) (S : list T) (holder : T)
             (W : gmap string (file byte)),
        Forall framed (m :: S) ->
        W !! inputFilePath = Some (mkFile (message_encode (m :: S)) io_EOF) ->
        SplitProtoFile no_faults W inputFilePath holder limit partFn
        = Some (([partFn 1], None),
                <[partFn 1 := mkFile (message_encode (m :: S)) io_EOF]> W))
  /\ (forall (header row : list string) (S : list (list string))
             (W : gmap string (file (list string))),
        csv_stable header -> Forall (row_ok header) (row :: S) ->
        W !! inputFilePath = Some (mkFile (header :: row :: S) io_EOF) ->
        SplitCsvFile no_faults W inputFilePath limit partFn
        = Some (([partFn 1], None),
                <[partFn 1 := mkFile (header :: row :: S) io_EOF]> W)).
Proof.
  intros Hl. repeat apply conj.
  - intros r S W HS Hin.
    rewrite (SplitJsonFile_chunks limit partFn (r :: S) W inputFilePath
               HS Hin).
    rewrite chunks_below_one by exact Hl. reflexivity.
  - intros m S holder W HS Hin.
    rewrite (SplitProtoFile_chunks limit partFn (m :: S) W inputFilePath
               holder HS Hin).
    rewrite chunks_below_one by exact Hl. reflexivity.
  - intros header row S W Hh HS Hin.
    rewrite (SplitCsvFile_chunks limit partFn header Hh (row :: S) W
               inputFilePath HS Hin).
    rewrite chunks_below_one by exact Hl.
    cbn [length Zseq map write_parts app concat].
    now rewrite concat_singletons.
Qed.

Lemma Split_limit_below_one_witness :
  SplitCsvFile no_faults three_rows "in.csv" 0 (part_name ".csv")
  = Some (([part_name ".csv" 1], None),
          <[part_name ".csv" 1
            := mkFile [["name"]; ["a"]; ["b"]; ["c"]] io_EOF]> three_rows).
Proof.
  refine (proj2 (proj2 (Split_limit_below_one (H := raw_Marshaler) 0
                          (part_name ".csv") "in.csv" _))
            ["name"] ["a"] [["b"]; ["c"]] three_rows _ _ _).
  - lia.
  - reflexivity.
  - repeat constructor.
  - reflexivity.
Defined.

(** * Join when a part is missing *)

Lemma JoinJsonFiles_range_step (outputFilePath : string) p c W writer d :
  json_part W p c ->
  W !! jw_path writer = Some (mkFile d io_EOF) ->
  exists writer',
    jw_path writer' = jw_path writer /\
    forall parts,
      JoinJsonFiles_range no_faults outputFilePath (p :: parts) writer W
      = JoinJsonFiles_range no_faults outputFilePath parts writer'
          (<[jw_path writer := mkFile (d ++ json_encode c) io_EOF]> W).
Proof.
  intros (r & stop & Ho & Hr) Hw.
  destruct (JoinJsonFiles_loop_reads outputFilePath stop c
              (2 + length (avail (jr_r r))) W r writer None Hr)
    as (s' & Hs & E2 & E3 & E4 & E5).
  { apply reads_raw_bound in Hr. unfold json_left in Hr.
    destruct (jr_lastErr r); lia. }
  exists (jv_writer s'). split; [exact E5|].
  intros parts. cbn [JoinJsonFiles_range]. rewrite Ho, Hs, E3, E4.
  cbn [isEOF]. rewrite E2, (append_file_lookup _ _ _ _ _ Hw). reflexivity.
Qed.

Lemma JoinJsonFiles_range_missing (outputFilePath : string) parts cs
    missing rest :
  forall W writer d,
  Forall2 (json_part W) parts cs ->
  W !! missing = None ->
  jw_path writer ∉ parts ->
  W !! jw_path writer = Some (mkFile d io_EOF) ->
  JoinJsonFiles_range no_faults outputFilePath (parts ++ missing :: rest)
                      writer W
  = Some (Some (Errorf "can not open file '%s', %v" missing
                  (Errorf "file open error '%s', %v" missing ENOENT)),
          <[jw_path writer := mkFile (d ++ json_encode (concat cs)) io_EOF]>
            W).
Proof.
  revert cs.
  induction parts as [|p parts IH]; intros cs W writer d Hall Hm Hout Hw;
    inversion Hall as [|? c ? cs' Hp Hrest]; subst.
  - cbn [app JoinJsonFiles_range concat]. unfold OpenJsonFile. rewrite Hm.
    change (json_encode []) with (@nil byte). rewrite app_nil_r.
    f_equal. f_equal. symmetry. now apply insert_id.
  - apply not_elem_of_cons in Hout as [Hne Hout].
    destruct (JoinJsonFiles_range_step outputFilePath p c W writer d Hp Hw)
      as (writer' & Hpath & Hstep).
    cbn [app]. rewrite Hstep.
    rewrite (IH cs' _ writer' (d ++ json_encode c)).
    + rewrite Hpath, insert_insert_eq. cbn [concat].
      now rewrite json_encode_app, app_assoc.
    + apply json_part_frame; assumption.
    + rewrite lookup_insert_ne; [exact Hm|].
      intros E. rewrite <- E, Hw in Hm. discriminate.
    + now rewrite Hpath.
    + rewrite Hpath. apply lookup_insert_eq.
Qed.

Lemma JoinProtoFiles_range_missing {T} `{Marshaler T}
    (outputFilePath : string) parts cs missing rest :
  forall W row writer d,
  Forall2 (proto_part W io_EOF) parts cs ->
  Forall (Forall marshals) cs ->
  W !! missing = None ->
  pw_path writer ∉ parts ->
  W !! pw_path writer = Some (mkFile d io_EOF) ->
  JoinProtoFiles_range no_faults outputFilePath (parts ++ missing :: rest)
                       row writer W
  = Some (Some (Errorf "can not open file '%s', %v" missing
                  (Errorf "file open error '%s', %v" missing ENOENT)),
          <[pw_path writer
            := mkFile (d ++ message_encode (concat cs)) io_EOF]> W).
Proof.
  revert cs.
  induction parts as [|p parts IH];
    intros cs W row writer d Hall Hcs Hm Hout Hw;
    inversion Hall as [|? c ? cs' Hp Hrest]; subst.
  - cbn [app JoinProtoFiles_range concat]. unfold OpenProtoFile. rewrite Hm.
    change (message_encode []) with (@nil byte). rewrite app_nil_r.
    f_equal. f_equal. symmetry. now apply insert_id.
  - apply Forall_cons in Hcs as [Hc Hcs].
    apply not_elem_of_cons in Hout as [Hne Hout].
    destruct (JoinProtoFiles_range_step outputFilePath p c W row writer d
                Hp Hc Hw) as (row' & writer' & Hpath & Hstep).
    cbn [app]. rewrite Hstep.
    rewrite (IH cs' _ row' writer' (d ++ message_encode c)).
    + rewrite Hpath, insert_insert_eq. cbn [concat].
      now rewrite message_encode_app, app_assoc.
    + apply proto_parts_frame; assumption.
    + exact Hcs.
    + rewrite lookup_insert_ne; [exact Hm|].
      intros E. rewrite <- E, Hw in Hm. discriminate.
    + now rewrite Hpath.
    + rewrite Hpath. apply lookup_insert_eq.
Qed.

Lemma JoinCsvFiles_range_step (outputFilePath : string) p hc i W writer d :
  csv_part W p hc ->
  cw_valueProcessors writer = [] ->
  W !! cw_path writer = Some (mkFile d io_EOF) ->
  exists writer',
    cw_path writer' = cw_path writer /\
    cw_valueProcessors writer' = [] /\
    forall parts,
      JoinCsvFiles_range no_faults outputFilePath i (p :: parts) writer W
      = JoinCsvFiles_range no_faults outputFilePath (Datatypes.S i) parts
          writer'
          (<[cw_path writer
             := mkFile (d ++ match i with
                             | O => csv_written (fst hc)
                             | _ => []
                             end ++ csv_rows_written (snd hc)) io_EOF]> W).
Proof.
  intros (r & r' & stop & Ho & Hh & Hr) Hv Hw.
  set (hw := match i with O => csv_written (fst hc) | _ => [] end).
  assert (Ew : (match i with
                | O => csvFileWriter_Write no_faults writer (fst hc) W
                | Datatypes.S _ => ((@None error, writer), W)
                end)
               = ((None, match i with
                         | O => mkCsvWriter (cw_path writer)
                                  (cw_layers writer)
                                  (Datatypes.S (cw_n writer)) []
                         | _ => writer
                         end),
                  append_file (cw_path writer) hw W)).
  { subst hw. destruct i.
    - now apply csvFileWriter_Write_written.
    - now rewrite append_file_nil. }
  set (writer1 := match i with
                  | O => mkCsvWriter (cw_path writer) (cw_layers writer)
                           (Datatypes.S (cw_n writer)) []
                  | _ => writer
                  end) in *.
  assert (Hp1 : cw_path writer1 = cw_path writer)
    by (subst writer1; now destruct i).
  assert (Hv1 : cw_valueProcessors writer1 = [])
    by (subst writer1; now destruct i).
  destruct (JoinCsvFiles_loop_reads outputFilePath stop (snd hc)
              (2 + length (r_avail (cr_src (cfr_csvr r'))))
              (append_file (cw_path writer) hw W) r' writer1 None Hr Hv1)
    as (s' & Hs & E2 & E3 & E4 & E5 & E6).
  { apply reads_rows_bound in Hr. unfold csv_left in Hr. lia. }
  exists (jv_writer s'). split; [now rewrite E5|]. split; [exact E6|].
  intros parts. cbn [JoinCsvFiles_range]. rewrite Ho, Hh, Ew, Hs, E3, E4.
  cbn [isEOF]. rewrite E2, Hp1, append_file_append.
  rewrite (append_file_lookup _ _ _ _ _ Hw). reflexivity.
Qed.

Lemma JoinCsvFiles_range_missing (outputFilePath : string) parts hcs
    missing rest :
  forall i W writer d,
  Forall2 (csv_part W) parts hcs ->
  W !! missing = None ->
  cw_path writer ∉ parts ->
  cw_valueProcessors writer = [] ->
  W !! cw_path writer = Some (mkFile d io_EOF) ->
  JoinCsvFiles_range no_faults outputFilePath i (parts ++ missing :: rest)
                     writer W
  = Some (Some (Errorf "can not open file '%s', %v" missing
                  (Errorf "file open error '%s', %v" missing ENOENT)),
          <[cw_path writer
            := mkFile (d ++ match i, hcs with
                            | O, hc :: _ => csv_written (fst hc)
                            | _, _ => []
                            end
                         ++ csv_rows_written (concat (map snd hcs)))
                      io_EOF]> W).
Proof.
  revert hcs.
  induction parts as [|p parts IH];
    intros hcs i W writer d Hall Hm Hout Hv Hw;
    inversion Hall as [|? hc ? hcs' Hp Hrest]; subst.
  - cbn [app JoinCsvFiles_range concat map]. unfold OpenCsvFile. rewrite Hm.
    replace (d ++ match i with O => [] | _ => [] end
               ++ csv_rows_written []) with d
      by (destruct i; now rewrite app_nil_r).
    f_equal. f_equal. symmetry. now apply insert_id.
  - apply not_elem_of_cons in Hout as [Hne Hout].
    destruct (JoinCsvFiles_range_step outputFilePath p hc i W writer d
                Hp Hv Hw) as (writer' & Hpath & Hv' & Hstep).
    cbn [app]. rewrite Hstep.
    rewrite (IH hcs' (Datatypes.S i) _ writer'
               (d ++ match i with
                     | O => csv_written (fst hc)
                     | _ => []
                     end ++ csv_rows_written (snd hc))).
    + rewrite Hpath, insert_insert_eq. cbn [concat map].
      f_equal. f_equal. f_equal.
      rewrite csv_rows_written_app.
      destruct i; now rewrite !app_nil_l, <- !app_assoc.
    + apply csv_part_frame; assumption.
    + rewrite lookup_insert_ne; [exact Hm|].
      intros E. rewrite <- E, Hw in Hm. discriminate.
    + now rewrite Hpath.
    + exact Hv'.
    + rewrite Hpath. apply lookup_insert_eq.
Qed.

(** X24.  Join stops at the first part that cannot be opened: it returns
    the error [can not open file] with the path of that part and the
    error of opening it, the parts after it are not read, and the output
    file stays, holding the records of the parts before it (for rows,
    under the first row of the first part). *)
Theorem Join_stops_at_missing_part {T} `{Marshaler T}
    (outputFilePath missing : string) (parts rest : list string) :
  outputFilePath ∉ parts ++ [missing] ->
  (forall (cs : list (list (list byte))) (W : gmap string (file byte)),
      Forall2 (json_part W) parts cs ->
      W !! missing = None ->
      JoinJsonFiles no_faults W outputFilePath (parts ++ missing :: rest)
      = Some (Some (Errorf "can not open file '%s', %v" missing
                      (Errorf "file open error '%s', %v" missing ENOENT)),
              <[outputFilePath
                := mkFile (json_encode (concat cs)) io_EOF]> W))
  /\ (forall (cs : list (list T)) (row : T) (W : gmap string (file byte)),
        Forall2 (proto_part W io_EOF) parts cs ->
        Forall (Forall marshals) cs ->
        W !! missing = None ->
        JoinProtoFiles no_faults W outputFilePath row
                       (parts ++ missing :: rest)
        = Some (Some (Errorf "can not open file '%s', %v" missing
                        (Errorf "file open error '%s', %v" missing ENOENT)),
                <[outputFilePath
                  := mkFile (message_encode (concat cs)) io_EOF]> W))
  /\ (forall (hcs : list (list string * list (list string)))
             (W : gmap string (file (list string))),
        Forall2 (csv_part W) parts hcs ->
        W !! missing = None ->
        JoinCsvFiles no_faults W outputFilePath (parts ++ missing :: rest)
        = Some (Some (Errorf "can not open file '%s', %v" missing
                        (Errorf "file open error '%s', %v" missing ENOENT)),
                <[outputFilePath
                  := mkFile (match hcs with
                             | hc :: _ => csv_written (fst hc)
                             | [] => []
                             end
                             ++ csv_rows_written (concat (map snd hcs)))
                            io_EOF]> W)).
Proof.
  intros Hout.
  assert (Hparts : outputFilePath ∉ parts).
  { intros Hin. apply Hout. apply elem_of_app. now left. }
  assert (Hmiss : outputFilePath <> missing).
  { intros E. apply Hout. apply elem_of_app. right. rewrite E. constructor. }
  repeat apply conj.
  - intros cs W Hall Hm. unfold JoinJsonFiles, NewJsonFile, os_Create.
    cbn [create_err no_faults].
    erewrite JoinJsonFiles_range_missing with (d := []) (cs := cs).
    + cbn [jw_path app]. now rewrite insert_insert_eq.
    + cbn [jw_path]. apply json_part_frame; assumption.
    + rewrite lookup_insert_ne by exact Hmiss. exact Hm.
    + exact Hparts.
    + apply lookup_insert_eq.
  - intros cs row W Hall Hcs Hm. unfold JoinProtoFiles, NewProtoFile, os_Create.
    cbn [create_err no_faults].
    erewrite JoinProtoFiles_range_missing with (d := []) (cs := cs).
    + cbn [pw_path app]. now rewrite insert_insert_eq.
    + cbn [pw_path]. apply proto_parts_frame; assumption.
    + exact Hcs.
    + rewrite lookup_insert_ne by exact Hmiss. exact Hm.
    + exact Hparts.
    + apply lookup_insert_eq.
  - intros hcs W Hall Hm. unfold JoinCsvFiles, NewCsvFile, os_Create.
    cbn [create_err no_faults].
    erewrite JoinCsvFiles_range_missing with (d := []) (hcs := hcs).
    + cbn [cw_path app]. now rewrite insert_insert_eq.
    + cbn [cw_path]. apply csv_part_frame; assumption.
    + rewrite lookup_insert_ne by exact Hmiss. exact Hm.
    + exact Hparts.
    + reflexivity.
    + apply lookup_insert_eq.
Qed.

Lemma Join_stops_at_missing_part_witness :
  JoinCsvFiles no_faults mixed_header_parts "out.csv"
    (["p1.csv"] ++ "p3.csv" :: ["p2.csv"])
  = Some (Some (Errorf "can not open file '%s', %v" "p3.csv"
                  (Errorf "file open error '%s', %v" "p3.csv" ENOENT)),
          <["out.csv"
            := mkFile (csv_written ["name"]
                       ++ csv_rows_written (concat (map snd
                            [(["name"], [["a"]])]))) io_EOF]>
            mixed_header_parts).
Proof.
  refine (proj2 (proj2 (Join_stops_at_missing_part (H := raw_Marshaler)
                          "out.csv" "p3.csv" ["p1.csv"] ["p2.csv"] _))
            [(["name"], [["a"]])] mixed_header_parts _ _).
  - apply (bool_decide_unpack _). vm_compute. exact I.
  - repeat constructor. do 2 eexists. exists io_EOF.
    split; [reflexivity|]. split; [reflexivity|].
    cbn [snd reads]. split; reflexivity.
  - reflexivity.
Defined.

(** * Join when the output cannot be written *)

Section JoinJsonWriteError.
Variables (faults : Faults) (outputFilePath : string) (n : nat) (e : error).
Hypothesis Hfaults : fails_at_write faults outputFilePath n e.

Lemma JoinJsonFiles_loop_write_error (stop : error) (S : list (list byte)) :
  forall fuel W r writer err,
  reads jsonFileReader_ReadRaw S stop r ->
  jw_path writer = outputFilePath ->
  (jw_n writer <= n)%nat ->
  (length S < fuel)%nat ->
  exists s',
    for_loop fuel (fun _ => true)
             (JoinJsonFiles_body faults outputFilePath) (fun s => s)
             (mkJoin W r writer err None)
    = Some s' /\
    jv_world s'
    = append_file outputFilePath
        (json_encode (firstn (n - jw_n writer) S)) W /\
    jv_err s' = err /\
    (if (n - jw_n writer <? length S)%nat
     then jv_return s'
          = Some (Errorf "can not write row to file '%s', %v"
                         outputFilePath e)
     else jv_return s' = None
          /\ jw_path (jv_writer s') = outputFilePath
          /\ jw_n (jv_writer s') = (jw_n writer + length S)%nat).
Proof.
  destruct Hfaults as (_ & Hok & Hbad).
  induction S as [|x S IH]; intros fuel W r writer err HS Hp Hk Hfuel;
    (destruct fuel as [|fuel]; [simpl in Hfuel; lia|]).
  - cbn [reads] in HS. cbn [for_loop]. unfold JoinJsonFiles_body.
    cbn [jv_reader jv_world jv_writer jv_err jv_return].
    destruct (jsonFileReader_ReadRaw r) as [[raw e'] r'].
    cbn [fst snd] in HS. subst e'.
    eexists. split; [reflexivity|].
    cbn [jv_world jv_return jv_err jv_writer length].
    rewrite firstn_nil. change (json_encode []) with (@nil byte).
    rewrite append_file_nil.
    replace (n - jw_n writer <? 0)%nat with false
      by (symmetry; apply Nat.ltb_ge; lia).
    rewrite Nat.add_0_r. auto.
  - destruct HS as [Hx HS]. simpl in Hfuel.
    cbn [for_loop]. unfold JoinJsonFiles_body at 1.
    cbn [jv_reader jv_world jv_writer jv_err jv_return].
    destruct (jsonFileReader_ReadRaw r) as [[raw e'] r'].
    cbn [fst snd] in Hx, HS. injection Hx as -> ->.
    unfold jsonFileWriter_WriteRaw, write_file. rewrite Hp.
    destruct (Nat.eq_dec (jw_n writer) n) as [En|En].
    + rewrite En, Hbad. eexists. split; [reflexivity|].
      cbn [jv_world jv_return jv_err jv_writer length].
      rewrite Nat.sub_diag. cbn [firstn].
      change (json_encode []) with (@nil byte). rewrite append_file_nil.
      repeat split.
    + rewrite Hok by lia.
      destruct (IH fuel (append_file outputFilePath (x ++ [nl]) W) r'
                  (mkJsonWriter outputFilePath (jw_layers writer)
                                (Datatypes.S (jw_n writer)))
                  err HS eq_refl ltac:(cbn [jw_n]; lia) ltac:(lia))
        as (s' & E1 & E2 & E3 & E4).
      exists s'. split; [exact E1|]. cbn [jw_n jw_path length] in *.
      replace (n - jw_n writer)%nat
        with (Datatypes.S (n - Datatypes.S (jw_n writer))) by lia.
      cbn [firstn]. rewrite E2, append_file_append.
      split.
      { reflexivity. }
      split; [exact E3|].
      replace (Datatypes.S (n - Datatypes.S (jw_n writer))
               <? Datatypes.S (length S))%nat
        with (n - Datatypes.S (jw_n writer) <? length S)%nat
        by (destruct (Nat.ltb_spec (n - Datatypes.S (jw_n writer))
                                   (length S));
            symmetry; [apply Nat.ltb_lt | apply Nat.ltb_ge]; lia).
      destruct (n - Datatypes.S (jw_n writer) <? length S)%nat;
        [exact E4|].
      destruct E4 as (E4 & E5 & E6). repeat split; auto. lia.
Qed.

Lemma JoinJsonFiles_range_write_error parts cs :
  forall W writer d,
  Forall2 (json_part W) parts cs ->
  outputFilePath ∉ parts ->
  jw_path writer = outputFilePath ->
  (jw_n writer <= n)%nat ->
  (n - jw_n writer < length (concat cs))%nat ->
  W !! outputFilePath = Some (mkFile d io_EOF) ->
  JoinJsonFiles_range faults outputFilePath parts writer W
  = Some (Some (Errorf "can not write row to file '%s', %v"
                       outputFilePath e),
          <[outputFilePath
            := mkFile (d ++ json_encode
                              (firstn (n - jw_n writer) (concat cs)))
                      io_EOF]> W).
Proof.
  revert cs.
  induction parts as [|p parts IH];
    intros cs W writer d Hall Hout Hp Hk Hn Hw.
  - apply Forall2_nil_inv_l in Hall as ->. cbn [concat length] in Hn. lia.
  - apply Forall2_cons_inv_l in Hall as (c & cs' & Hpart & Hrest & ->).
    apply not_elem_of_cons in Hout as [Hne Hout].
    destruct Hpart as (r & stop & Ho & Hr).
    cbn [JoinJsonFiles_range]. rewrite Ho.
    destruct (JoinJsonFiles_loop_write_error stop c
                (2 + length (avail (jr_r r))) W r writer None Hr
                Hp Hk)
      as (s' & -> & E2 & E3 & E4).
    { apply reads_raw_bound in Hr. unfold json_left in Hr.
      destruct (jr_lastErr r); lia. }
    cbn [concat] in *. rewrite length_app in Hn.
    destruct (Nat.ltb_spec (n - jw_n writer) (length c)) as [Hlt|Hge].
    + rewrite E4, E2, (append_file_lookup _ _ _ _ _ Hw).
      rewrite firstn_app.
      replace (n - jw_n writer - length c)%nat with 0%nat by lia.
      cbn [firstn]. now rewrite app_nil_r.
    + destruct E4 as (E4 & E5 & E6). rewrite E4, E3. cbn [isEOF].
      rewrite E2, (append_file_lookup _ _ _ _ _ Hw).
      rewrite firstn_all2 by lia.
      rewrite (IH cs' _ (jv_writer s') (d ++ json_encode c)).
      * rewrite insert_insert_eq, E6.
        rewrite firstn_app, (firstn_all2 c) by lia.
        replace (n - (jw_n writer + length c))%nat
          with (n - jw_n writer - length c)%nat by lia.
        now rewrite json_encode_app, app_assoc.
      * apply json_part_frame; assumption.
      * exact Hout.
      * exact E5.
      * lia.
      * lia.
      * apply lookup_insert_eq.
Qed.
End JoinJsonWriteError.

(** X25.  [JoinJsonFiles] reports an error of writing the output: when
    the [WriteRaw] of the record number [n] (counted from 0 over all
    parts) returns an error, the earlier ones having returned nil, the
    function stops there and returns the error
    [can not write row to file] with the output path and that error. *)
Theorem JoinJsonFiles_reports_write_error (faults : Faults)
    (outputFilePath : string) (n : nat) (e : error) (parts : list string)
    (cs : list (list (list byte))) (W : gmap string (file byte)) :
  fails_at_write faults outputFilePath n e ->
  Forall2 (json_part W) parts cs ->
  outputFilePath ∉ parts ->
  (n < length (concat cs))%nat ->
  exists W',
    JoinJsonFiles faults W outputFilePath parts
    = Some (Some (Errorf "can not write row to file '%s', %v"
                         outputFilePath e), W').
Proof.
  intros Hf Hall Hout Hn. unfold JoinJsonFiles, NewJsonFile, os_Create.
  rewrite (proj1 Hf).
  erewrite (JoinJsonFiles_range_write_error faults outputFilePath n e Hf)
    with (d := []) (cs := cs).
  - eexists. reflexivity.
  - apply json_part_frame; assumption.
  - exact Hout.
  - reflexivity.
  - cbn [jw_n]. lia.
  - cbn [jw_n]. lia.
  - apply lookup_insert_eq.
Qed.

Lemma JoinJsonFiles_reports_write_error_witness :
  exists W',
    JoinJsonFiles output_full cut_object_part "out.json"
      ["p2.json"; "p1.json.gz"; "p2.json"]
    = Some (Some (Errorf "can not write row to file '%s', %v" "out.json"
                         (ErrSys 28)), W').
Proof.
  apply (JoinJsonFiles_reports_write_error output_full "out.json" 2
           (ErrSys 28) ["p2.json"; "p1.json.gz"; "p2.json"]
           [[bytes_of "c"]; [bytes_of "a"]; [bytes_of "c"]]
           cut_object_part).
  - split; [reflexivity|]. split; [|reflexivity].
    intros k Hk. cbn [write_err output_full].
    destruct k as [|[|k]]; [reflexivity | reflexivity | lia].
  - repeat constructor.
    + exists (mkJsonReader (mkStream (json_encode [bytes_of "c"]) io_EOF)
                           None), io_EOF.
      split; [reflexivity|]. cbn [reads]. split; reflexivity.
    + exists (mkJsonReader
                (mkStream (json_encode [bytes_of "a"]) io_ErrUnexpectedEOF)
                None), io_ErrUnexpectedEOF.
      split; [reflexivity|]. cbn [reads]. split; reflexivity.
    + exists (mkJsonReader (mkStream (json_encode [bytes_of "c"]) io_EOF)
                           None), io_EOF.
      split; [reflexivity|]. cbn [reads]. split; reflexivity.
  - apply (bool_decide_unpack _). vm_compute. exact I.
  - cbn. lia.
Defined.

(** * The errors of [ReadTo] at the end of a stream *)

(** X26.  On a stream that ends with [io.EOF], [ReadTo] reports [io.EOF]
    exactly when no byte is left or when what is left is one whole length
    prefix that announces a payload of at least one byte; it reports
    [io.ErrUnexpectedEOF] when the stream ends inside the length prefix,
    or inside a payload of which at least one byte is there. *)
Theorem ReadTo_errors_at_the_end {T} `{Marshaler T} (buf : list byte)
    (m : T) :
  (snd (fst (protoFileReader_ReadTo (mkProtoReader (mkStream buf io_EOF)) m))
   = Some io_EOF
   <-> buf = [] \/ (length buf = 4%nat /\ (0 < BigEndian_Uint32 buf)%N))
  /\ (buf <> [] ->
      (length buf < 4)%nat \/
      (4 < length buf < 4 + N.to_nat (BigEndian_Uint32 (firstn 4 buf)))%nat ->
      snd (fst (protoFileReader_ReadTo
                  (mkProtoReader (mkStream buf io_EOF)) m))
      = Some io_ErrUnexpectedEOF).
Proof.
  split.
  - rewrite ReadTo_EOF_iff. cbn [pr_r avail final]. tauto.
  - apply ReadTo_cut_inside.
Qed.

Lemma ReadTo_errors_at_the_end_witness :
  snd (fst (protoFileReader_ReadTo (H := raw_Marshaler)
              (mkProtoReader (mkStream [x00; x00; x00; x02; x61] io_EOF))
              []))
  = Some io_ErrUnexpectedEOF.
Proof.
  apply (proj2 (ReadTo_errors_at_the_end (H := raw_Marshaler)
                  [x00; x00; x00; x02; x61] [])).
  - discriminate.
  - right. vm_compute. split; lia.
Defined.

(** * The buffer writer *)

Lemma protoBuf_write_each_framed {T} `{Marshaler T} (ms : list T) :
  Forall framed ms ->
  forall w : protoBufWriter,
    protoBuf_write_each ms w
    = (None, mkProtoBuf (pbw_fw w ++ message_encode ms)).
Proof.
  induction 1 as [|m ms Hm _ IH]; intros w; cbn [protoBuf_write_each].
  - change (message_encode []) with (@nil byte). rewrite app_nil_r.
    now destruct w.
  - unfold protoBufWriter_Write. rewrite (proj1 Hm). rewrite IH.
    cbn [pbw_fw]. unfold message_encode. cbn [map concat].
    unfold proto_frame at 2. now rewrite <- !app_assoc.
Qed.

(** X27.  Messages written with [Write] into a buffer writer without gzip
    are in [Bytes] as their frames, one after the other, and a stream
    reader over these bytes gives the messages back in order and then
    reports [io.EOF]; this holds for messages that marshal to a blob
    shorter than 2^32 bytes which unmarshals to the message. *)
Theorem protoBuf_Bytes_read_back {T} `{Marshaler T} (ms : list T)
    (holder : T) :
  Forall framed ms ->
  exists w : protoBufWriter,
    protoBuf_write_each ms NewProtoBuf_plain = (None, w)
    /\ protoBufWriter_Bytes w = message_encode ms
    /\ reads protoFileReader_ReadTo_next ms io_EOF
         (ProtoStream_plain (protoBufWriter_Bytes w), holder).
Proof.
  intros Hms. rewrite (protoBuf_write_each_framed ms Hms).
  eexists. split; [reflexivity|]. cbn [NewProtoBuf_plain pbw_fw app].
  unfold protoBufWriter_Bytes. cbn [pbw_fw].
  split; [reflexivity|]. apply reads_messages. exact Hms.
Qed.

Lemma protoBuf_Bytes_read_back_witness :
  exists w : protoBufWriter,
    protoBuf_write_each (H := raw_Marshaler) (map bytes_of ["a"; "b"])
      NewProtoBuf_plain = (None, w)
    /\ protoBufWriter_Bytes w
       = message_encode (H := raw_Marshaler) (map bytes_of ["a"; "b"])
    /\ reads (protoFileReader_ReadTo_next (H := raw_Marshaler))
         (map bytes_of ["a"; "b"]) io_EOF
         (ProtoStream_plain (protoBufWriter_Bytes w), []).
Proof.
  apply (protoBuf_Bytes_read_back (H := raw_Marshaler)
           (map bytes_of ["a"; "b"]) []).
  repeat constructor.
Defined.

(** * Join of a row part without a first row *)

Lemma JoinCsvFiles_range_no_header (outputFilePath : string) parts hcs
    empty fin rest :
  forall i W writer d,
  Forall2 (csv_part W) parts hcs ->
  W !! empty = Some (mkFile [] fin) ->
  cw_path writer ∉ parts ++ [empty] ->
  cw_valueProcessors writer = [] ->
  W !! cw_path writer = Some (mkFile d io_EOF) ->
  JoinCsvFiles_range no_faults outputFilePath i (parts ++ empty :: rest)
                     writer W
  = Some (Some (Errorf "can not read header in file '%s', %v" empty fin),
          <[cw_path writer
            := mkFile (d ++ match i, hcs with
                            | O, hc :: _ => csv_written (fst hc)
                            | _, _ => []
                            end
                         ++ csv_rows_written (concat (map snd hcs)))
                      io_EOF]> W).
Proof.
  revert hcs.
  induction parts as [|p parts IH];
    intros hcs i W writer d Hall Hm Hout Hv Hw;
    inversion Hall as [|? hc ? hcs' Hp Hrest]; subst.
  - cbn [app JoinCsvFiles_range concat map]. unfold OpenCsvFile. rewrite Hm.
    cbn [f_data f_final]. unfold csvFileReader_Read, csv_Reader_Read.
    cbn [cfr_csvr cfr_valueProcessors cr_src cr_FieldsPerRecord r_avail
         r_final].
    replace (d ++ match i with O => [] | _ => [] end
               ++ csv_rows_written []) with d
      by (destruct i; now rewrite app_nil_r).
    f_equal. f_equal. symmetry. now apply insert_id.
  - cbn [app] in Hout. apply not_elem_of_cons in Hout as [Hne Hout].
    assert (Hnb : cw_path writer <> empty).
    { intros E. apply Hout. apply elem_of_app. right. rewrite E.
      constructor. }
    destruct (JoinCsvFiles_range_step outputFilePath p hc i W writer d
                Hp Hv Hw) as (writer' & Hpath & Hv' & Hstep).
    cbn [app]. rewrite Hstep.
    rewrite (IH hcs' (Datatypes.S i) _ writer'
               (d ++ match i with
                     | O => csv_written (fst hc)
                     | _ => []
                     end ++ csv_rows_written (snd hc))).
    + rewrite Hpath, insert_insert_eq. cbn [concat map].
      f_equal. f_equal. f_equal.
      rewrite csv_rows_written_app.
      destruct i; now rewrite !app_nil_l, <- !app_assoc.
    + apply csv_part_frame; [exact Hrest|].
      intros Hin. apply Hout. apply elem_of_app. now left.
    + rewrite lookup_insert_ne by exact Hnb. exact Hm.
    + now rewrite Hpath.
    + exact Hv'.
    + rewrite Hpath. apply lookup_insert_eq.
Qed.

(** X28.  [JoinCsvFiles] stops at the first part that has no first row
    (an empty file): it returns the error [can not read header in file]
    with the path of that part and the error of the read, [io.EOF] for an
    empty file, and the output holds what the parts before it gave. *)
Theorem JoinCsvFiles_part_without_header (outputFilePath empty : string)
    (fin : error) (parts rest : list string)
    (hcs : list (list string * list (list string)))
    (W : gmap string (file (list string))) :
  Forall2 (csv_part W) parts hcs ->
  W !! empty = Some (mkFile [] fin) ->
  outputFilePath ∉ parts ++ [empty] ->
  JoinCsvFiles no_faults W outputFilePath (parts ++ empty :: rest)
  = Some (Some (Errorf "can not read header in file '%s', %v" empty fin),
          <[outputFilePath
            := mkFile (match hcs with
                       | hc :: _ => csv_written (fst hc)
                       | [] => []
                       end ++ csv_rows_written (concat (map snd hcs)))
                      io_EOF]> W).
Proof.
  intros Hall Hm Hout.
  assert (Hparts : outputFilePath ∉ parts).
  { intros Hin. apply Hout. apply elem_of_app. now left. }
  assert (Hmiss : outputFilePath <> empty).
  { intros E. apply Hout. apply elem_of_app. right. rewrite E. constructor. }
  unfold JoinCsvFiles, NewCsvFile, os_Create. cbn [create_err no_faults].
  erewrite JoinCsvFiles_range_no_header with (d := []) (hcs := hcs).
  - cbn [cw_path app]. now rewrite insert_insert_eq.
  - cbn [cw_path]. apply csv_part_frame; assumption.
  - rewrite lookup_insert_ne by exact Hmiss. exact Hm.
  - exact Hout.
  - reflexivity.
  - apply lookup_insert_eq.
Qed.

Lemma JoinCsvFiles_part_without_header_witness :
  JoinCsvFiles no_faults empty_row_part "out.csv"
    (["p1.csv"] ++ "p2.csv" :: ["p1.csv"])
  = Some (Some (Errorf "can not read header in file '%s', %v" "p2.csv"
                       io_EOF),
          <["out.csv"
            := mkFile (csv_written ["name"]
                       ++ csv_rows_written
                            (concat (map snd [(["name"], [["a"]])])))
                      io_EOF]> empty_row_part).
Proof.
  apply (JoinCsvFiles_part_without_header "out.csv" "p2.csv" io_EOF
           ["p1.csv"] ["p1.csv"] [(["name"], [["a"]])] empty_row_part).
  - repeat constructor. do 2 eexists. exists io_EOF.
    split; [reflexivity|]. split; [reflexivity|].
    cbn [snd reads]. split; reflexivity.
  - reflexivity.
  - apply (bool_decide_unpack _). vm_compute. exact I.
Defined.
